(** * Classical ciphers and their attacks: a shallow embedding

    This development embeds the cipher module (ciphers.js: gcd, modInverse,
    mod, the Caesar, affine, Playfair and Hill 3x3 transforms) and the attack
    module (attacks.js: bruteForceCaesar, bruteForceAffine,
    bruteForcePassword, dictionaryAttack, dictionaryDirectAttack), the
    Diffie-Hellman arithmetic of secure.js (modPow, computeDHPublic,
    computeDHShared) and the client-side Caesar and affine transforms of
    app.js, and proves properties of them.

    Modelling conventions.
    - A JavaScript string is a sequence of UTF-16 code units: [text] is
      [list Z], one code unit per element; [codes] turns a literal into it.
      [ch.charCodeAt(0)] is the element itself and [String.fromCharCode]
      reduces modulo 2^16.
    - A JavaScript number is a double.  The numbers of the ciphers are
      integers, modelled in [Z]: an integer up to 2^53 in magnitude is a
      double, and a sum, a difference or a product is the exact result
      rounded to the nearest double ([toDouble], [fadd], [fsub], [fmul]);
      [%] is the truncated remainder [Z.rem], which is exact.  Statements
      that need exact arithmetic bound the keys so that no intermediate
      value exceeds 2^53.  The BigInt values of the key exchange are exact
      integers.
    - [toUpperCase] and [toLowerCase] are modelled on the ASCII letters;
      statements that depend on the case mapping of a text are stated for
      ASCII text ([is_ascii]).
    - [undefined] (an index out of range) is [None]; a thrown exception is
      [Throw]: [InvalidKey] for the modules' own [throw new Error(...)],
      [TypeError] for destructuring [null]. *)

From Stdlib Require Import ZArith Lia String Ascii.
From Equations Require Import Equations.
From stdpp Require Import base list gmap sorting.

Local Open Scope Z_scope.

(** ** Strings and exceptions *)

Abbreviation text := (list Z).

Definition codes (s : string) : text :=
  (λ c, Z.of_nat (nat_of_ascii c)) <$> list_ascii_of_string s.

Definition fromCharCode (n : Z) : Z := n `mod` 65536.

(** [ch >= 'a' && ch <= 'z'] and [ch >= 'A' && ch <= 'Z'] on a one-unit
    string. *)
Definition is_lower (ch : Z) : bool := (97 <=? ch) && (ch <=? 122).
Definition is_upper (ch : Z) : bool := (65 <=? ch) && (ch <=? 90).
Definition is_alpha (ch : Z) : bool := is_lower ch || is_upper ch.

Definition is_ascii (t : text) : Prop := Forall (λ ch, 0 <= ch < 128) t.

Definition toUpperCase (t : text) : text :=
  (λ ch, if is_lower ch then ch - 32 else ch) <$> t.

Definition toLowerCase (t : text) : text :=
  (λ ch, if is_upper ch then ch + 32 else ch) <$> t.

(** [.replace(/J/g, 'I')] and [.replace(/[^A-Z]/g, '')]. *)
Definition replaceJ (t : text) : text :=
  (λ ch, if ch =? 74 then 73 else ch) <$> t.

Definition stripNonAZ (t : text) : text := List.filter is_upper t.

Inductive exn : Type := InvalidKey | TypeError.

Inductive result (A : Type) : Type :=
| Ok (v : A)
| Throw (e : exn).
Arguments Ok {A} v.
Arguments Throw {A} e.

(** Sequencing of computations that may throw; [x ← r; k] runs [k] on the
    value of [r] and passes an exception of [r] on. *)
#[export] Instance result_bind : MBind result := λ A B k r,
  match r with
  | Ok v => k v
  | Throw e => Throw e
  end.

(** ** Numbers *)

(** The double nearest to an integer.  Up to 2^53 in magnitude every integer
    is a double.  Beyond, between 2^(52+e) and 2^(53+e), the doubles are the
    multiples of 2^e: the integer is rounded to the nearest one, a tie going
    to the even multiple.  Infinity, beyond the largest double (about
    1.8e308), is not modelled. *)
Definition toDouble (n : Z) : Z :=
  if Z.abs n <=? 2 ^ 53 then n
  else
    let ulp := 2 ^ (Z.log2 (Z.abs n) - 52) in
    let q := Z.abs n `div` ulp in
    let r := Z.abs n `mod` ulp in
    let q := if (2 * r <? ulp) || ((2 * r =? ulp) && Z.even q) then q
             else q + 1 in
    Z.sgn n * (q * ulp).

(** [x + y], [x - y] and [x * y] on doubles. *)
Definition fadd (x y : Z) : Z := toDouble (x + y).
Definition fsub (x y : Z) : Z := toDouble (x - y).
Definition fmul (x y : Z) : Z := toDouble (x * y).
Arguments toDouble : simpl never.
Arguments fadd : simpl never.
Arguments fsub : simpl never.
Arguments fmul : simpl never.

(** ** Arithmetic utilities *)

(** [while (b !== 0) { [a, b] = [b, a % b]; } return a;]  The loop ends
    because the magnitude of [b] decreases. *)
Equations? gcd (a b : Z) : Z by wf (Z.abs_nat b) lt :=
  gcd a b with decide (b = 0) => {
    | left _ := a ;
    | right _ := gcd b (Z.rem a b) }.
Proof.
  pose proof (Z.rem_bound_abs a b). lia.
Qed.

(** [null] is [None]. *)
Definition modInverse (a m : Z) : option Z :=
  let a := Z.rem (fadd (Z.rem a m) m) m in
  List.find (λ x, Z.rem (fmul a x) m =? 1) (seqZ 1 (m - 1)).

(** The source's [mod]; the name is a notation keyword here. *)
Definition mod' (n m : Z) : Z := Z.rem (fadd (Z.rem n m) m) m.

(** ** Caesar *)

Definition caesarEncrypt (t : text) (shift : Z) : text :=
  (λ ch,
     if is_lower ch then fromCharCode (mod' (fadd (ch - 97) shift) 26 + 97)
     else if is_upper ch then fromCharCode (mod' (fadd (ch - 65) shift) 26 + 65)
     else ch) <$> t.

Definition caesarDecrypt (t : text) (shift : Z) : text :=
  caesarEncrypt t (- shift).

(** ** Affine *)

Definition affineEncrypt (t : text) (a b : Z) : result text :=
  if decide (gcd a 26 ≠ 1) then Throw InvalidKey
  else
    Ok ((λ ch,
           if is_lower ch then
             let x := ch - 97 in
             let y := mod' (fadd (fmul a x) b) 26 in
             fromCharCode (y + 97)
           else if is_upper ch then
             let x := ch - 65 in
             let y := mod' (fadd (fmul a x) b) 26 in
             fromCharCode (y + 65)
           else ch) <$> t).

Definition affineDecrypt (t : text) (a b : Z) : result text :=
  match modInverse a 26 with
  | None => Throw InvalidKey
  | Some aInv =>
      Ok ((λ ch,
             if is_lower ch then
               let y := ch - 97 in
               let x := mod' (fmul aInv (fsub y b)) 26 in
               fromCharCode (x + 97)
             else if is_upper ch then
               let y := ch - 65 in
               let x := mod' (fmul aInv (fsub y b)) 26 in
               fromCharCode (x + 65)
             else ch) <$> t)
  end.

(** ** Loops *)

(** The values of [i] in [for (let i = 0; i < len; i += step)]. *)
Definition range_step (len step : nat) : list nat :=
  (λ k, k * step)%nat <$> seq 0 ((len + step - 1) `div` step)%nat.

(** [for (const x of l) { s = body(s, x) }] where the body may throw. *)
Fixpoint for_of {A S : Type} (l : list A) (body : S → A → result S) (s : S)
  : result S :=
  match l with
  | [] => Ok s
  | x :: l' => s' ← body s x; for_of l' body s'
  end.

(** ** Playfair *)

Definition alphabet : text := codes "ABCDEFGHIKLMNOPQRSTUVWXYZ".

(** [if (!seen.has(ch)) { matrix.push(ch); seen.add(ch); }] on the pair
    (matrix, seen). *)
Definition push_unseen (st : list Z * gset Z) (ch : Z) : list Z * gset Z :=
  if decide (ch ∈ st.2) then st else (st.1 ++ [ch], {[ch]} ∪ st.2).

(** [l.slice(from, to)]. *)
Definition slice {A : Type} (l : list A) (from to : nat) : list A :=
  take (to - from) (drop from l).

Definition buildPlayfairMatrix (key : text) : list (list Z) :=
  let keyUpper := stripNonAZ (replaceJ (toUpperCase key)) in
  let st := foldl push_unseen ([], ∅) keyUpper in
  let st := foldl push_unseen st alphabet in
  let matrix := st.1 in
  (λ i, slice matrix (i * 5) ((i + 1) * 5)) <$> seq 0 5.

(** [matrix[row][col]]; every grid has the rows 0..4, so only the column
    lookup can be [undefined]. *)
Definition cell (matrix : list (list Z)) (row col : nat) : option Z :=
  matrix !! row ≫= (.!! col).

(** The inner and the outer loop of [findPosition]; [char] may be
    [undefined], and [===] compares it with the cell. *)
Fixpoint findInRow (matrix : list (list Z)) (char : option Z) (row : nat)
  (cols : list nat) : option (nat * nat) :=
  match cols with
  | [] => None
  | col :: cols' =>
      if decide (cell matrix row col = char) then Some (row, col)
      else findInRow matrix char row cols'
  end.

Fixpoint findInRows (matrix : list (list Z)) (char : option Z)
  (rows : list nat) : option (nat * nat) :=
  match rows with
  | [] => None
  | row :: rows' =>
      match findInRow matrix char row (seq 0 5) with
      | Some p => Some p
      | None => findInRows matrix char rows'
      end
  end.

Definition findPosition (matrix : list (list Z)) (char : option Z)
  : option (nat * nat) :=
  findInRows matrix char (seq 0 5).

(** The filler ['X']. *)
Definition X : Z := 88.

(** The [while] loop of [preparePlayfairText] on the text from index [i] on:
    a doubled letter advances by one, a proper pair by two. *)
Fixpoint digramsFrom (t : text) : list (Z * Z) :=
  match t with
  | [] => []
  | a :: rest =>
      match rest with
      | [] => [(a, X)]
      | b :: rest' =>
          if decide (a = b) then (a, X) :: digramsFrom rest
          else (a, b) :: digramsFrom rest'
      end
  end.

Definition preparePlayfairText (t : text) : list (Z * Z) :=
  digramsFrom (stripNonAZ (replaceJ (toUpperCase t))).

(** [const [row, col] = findPosition(...)]: destructuring [null] throws. *)
Definition destructure (p : option (nat * nat)) : result (nat * nat) :=
  match p with
  | Some rc => Ok rc
  | None => Throw TypeError
  end.

(** [result += matrix[row][col]]; an [undefined] cell would be appended as
    the string "undefined". *)
Definition append_cell (res : text) (c : option Z) : text :=
  res ++ match c with
         | Some ch => [ch]
         | None => codes "undefined"
         end.

Definition encryptPair (matrix : list (list Z)) (res : text)
  (c1 c2 : option Z) : result text :=
  '(row1, col1) ← destructure (findPosition matrix c1);
  '(row2, col2) ← destructure (findPosition matrix c2);
  if decide (row1 = row2) then
    let res := append_cell res (cell matrix row1 ((col1 + 1) `mod` 5)%nat) in
    Ok (append_cell res (cell matrix row2 ((col2 + 1) `mod` 5)%nat))
  else if decide (col1 = col2) then
    let res := append_cell res (cell matrix ((row1 + 1) `mod` 5)%nat col1) in
    Ok (append_cell res (cell matrix ((row2 + 1) `mod` 5)%nat col2))
  else
    let res := append_cell res (cell matrix row1 col2) in
    Ok (append_cell res (cell matrix row2 col1)).

Definition playfairEncrypt (t key : text) : result text :=
  let matrix := buildPlayfairMatrix key in
  let digrams := preparePlayfairText t in
  for_of digrams
    (λ res digram, encryptPair matrix res (Some digram.1) (Some digram.2)) [].

(** [mod(col - 1, 5)] as an index. *)
Definition pred5 (i : nat) : nat := Z.to_nat (mod' (Z.of_nat i - 1) 5).

Definition decryptPair (matrix : list (list Z)) (res : text)
  (c1 c2 : option Z) : result text :=
  '(row1, col1) ← destructure (findPosition matrix c1);
  '(row2, col2) ← destructure (findPosition matrix c2);
  if decide (row1 = row2) then
    let res := append_cell res (cell matrix row1 (pred5 col1)) in
    Ok (append_cell res (cell matrix row2 (pred5 col2)))
  else if decide (col1 = col2) then
    let res := append_cell res (cell matrix (pred5 row1) col1) in
    Ok (append_cell res (cell matrix (pred5 row2) col2))
  else
    let res := append_cell res (cell matrix row1 col2) in
    Ok (append_cell res (cell matrix row2 col1)).

Definition playfairDecrypt (t key : text) : result text :=
  let matrix := buildPlayfairMatrix key in
  let t := stripNonAZ (toUpperCase t) in
  for_of (range_step (length t) 2)
    (λ res i, decryptPair matrix res (t !! i) (t !! (i + 1)%nat)) [].

(** ** Hill 3x3 *)

(** A 3x3 integer matrix, by rows; [m[i][j]] is the component [mij]. *)
Definition vec3 : Type := Z * Z * Z.
Definition mat3 : Type := vec3 * vec3 * vec3.

Definition det3x3 (m : mat3) : Z :=
  let '((m00, m01, m02), (m10, m11, m12), (m20, m21, m22)) := m in
  fadd
    (fsub (fmul m00 (fsub (fmul m11 m22) (fmul m12 m21)))
          (fmul m01 (fsub (fmul m10 m22) (fmul m12 m20))))
    (fmul m02 (fsub (fmul m10 m21) (fmul m11 m20))).

Definition adjugate3x3 (m : mat3) : mat3 :=
  let '((m00, m01, m02), (m10, m11, m12), (m20, m21, m22)) := m in
  let c00 := fsub (fmul m11 m22) (fmul m12 m21) in
  let c01 := - fsub (fmul m10 m22) (fmul m12 m20) in
  let c02 := fsub (fmul m10 m21) (fmul m11 m20) in
  let c10 := - fsub (fmul m01 m22) (fmul m02 m21) in
  let c11 := fsub (fmul m00 m22) (fmul m02 m20) in
  let c12 := - fsub (fmul m00 m21) (fmul m01 m20) in
  let c20 := fsub (fmul m01 m12) (fmul m02 m11) in
  let c21 := - fsub (fmul m00 m12) (fmul m02 m10) in
  let c22 := fsub (fmul m00 m11) (fmul m01 m10) in
  ((c00, c10, c20),
   (c01, c11, c21),
   (c02, c12, c22)).

(** [m.map(row => row.map(f))]. *)
Definition map_mat3 (f : Z → Z) (m : mat3) : mat3 :=
  let '((m00, m01, m02), (m10, m11, m12), (m20, m21, m22)) := m in
  ((f m00, f m01, f m02), (f m10, f m11, f m12), (f m20, f m21, f m22)).

(** After the guard [modInverse] finds an inverse; a [null] would count as 0
    in the product [detInv * val]. *)
Definition inverseMatrix3x3Mod26 (m : mat3) : result mat3 :=
  let d := det3x3 m in
  let detMod := mod' d 26 in
  if decide (gcd detMod 26 ≠ 1) then Throw InvalidKey
  else
    let detInv := default 0 (modInverse detMod 26) in
    let adj := adjugate3x3 m in
    Ok (map_mat3 (λ val, mod' (fmul detInv val) 26) adj).

(** The inner loop of [matrixVectorMult3]: [sum += matrix[i][j] * vector[j]]
    over [j = 0, 1, 2], from [sum = 0].  A missing [vector[j]] is [undefined]
    and makes the sum [NaN], here [None]. *)
Definition row_sum (row : vec3) (vector : list Z) : option Z :=
  let '(r0, r1, r2) := row in
  x0 ← vector !! 0%nat;
  x1 ← vector !! 1%nat;
  x2 ← vector !! 2%nat;
  Some (fadd (fadd (fadd 0 (fmul r0 x0)) (fmul r1 x1)) (fmul r2 x2)).

(** [mod(NaN, 26)] is [NaN]. *)
Definition matrixVectorMult3 (matrix : mat3) (vector : list Z)
  : list (option Z) :=
  let '(row0, row1, row2) := matrix in
  (λ row, (λ sum, mod' sum 26) <$> row_sum row vector) <$> [row0; row1; row2].

Definition upper1 (ch : Z) : Z := if is_lower ch then ch - 32 else ch.

Definition textToVector (t : text) : list Z :=
  (λ ch,
     let code := upper1 ch - 65 in
     if (0 <=? code) && (code <? 26) then code else 0) <$> t.

(** [String.fromCharCode(NaN)] is the code unit 0. *)
Definition vectorToText (vector : list (option Z)) : text :=
  (λ n, match n with
        | Some n => fromCharCode (mod' n 26 + 65)
        | None => 0
        end) <$> vector.

(** [while (text.length % 3 !== 0) { text += 'X'; }] *)
Equations? padToBlocks (t : text) : text
  by wf ((3 - length t `mod` 3) `mod` 3)%nat lt :=
  padToBlocks t with decide ((length t `mod` 3)%nat ≠ 0%nat) => {
    | left _ := padToBlocks (t ++ [X]) ;
    | right _ := t }.
Proof.
  rewrite length_app. change (length [X]) with 1%nat.
  clear padToBlocks. revert n. generalize (length t). intros l Hl.
  rewrite <- (Nat.Div0.add_mod_idemp_l l 1 3).
  pose proof (Nat.mod_upper_bound l 3 ltac:(lia)) as Hb.
  destruct (l `mod` 3)%nat as [|[|[|k]]]; [done| | |lia]; cbn; lia.
Qed.

(** The body and the loop shared by [hillEncrypt] and [hillDecrypt]: the
    block [text.substr(i, 3)] for [i = 0, 3, 6, ...] is turned into a
    vector, multiplied and turned back into text. *)
Definition hillBlock (matrix : mat3) (block : text) : text :=
  let vector := textToVector block in
  vectorToText (matrixVectorMult3 matrix vector).

Definition hillBlocks (matrix : mat3) (t : text) : text :=
  i ← range_step (length t) 3;
  let block := take 3 (drop i t) in
  hillBlock matrix block.

Definition hillEncrypt (t : text) (keyMatrix : mat3) : text :=
  let t := stripNonAZ (toUpperCase t) in
  let t := padToBlocks t in
  hillBlocks keyMatrix t.

Definition hillDecrypt (t : text) (keyMatrix : mat3) : result text :=
  let t := stripNonAZ (toUpperCase t) in
  invMatrix ← inverseMatrix3x3Mod26 keyMatrix;
  Ok (hillBlocks invMatrix t).

(** * The attack module *)

(** The entries [{shift, text}] and [{a, b, text}] of the result lists. *)
Record caesarCandidate : Type :=
  { cc_shift : Z; cc_text : text }.

Record affineCandidate : Type :=
  { ac_a : Z; ac_b : Z; ac_text : text }.

Definition bruteForceCaesar (ciphertext : text) : list caesarCandidate :=
  shift ← seqZ 0 26;
  let decrypted := caesarDecrypt ciphertext shift in
  [ {| cc_shift := shift; cc_text := decrypted |} ].

Definition validA : list Z := [1; 3; 5; 7; 9; 11; 15; 17; 19; 21; 23; 25].

(** The [catch] block is empty: a key that throws adds no entry. *)
Definition bruteForceAffine (ciphertext : text) : list affineCandidate :=
  a ← validA;
  b ← seqZ 0 26;
  match affineDecrypt ciphertext a b with
  | Ok decrypted => [ {| ac_a := a; ac_b := b; ac_text := decrypted |} ]
  | Throw _ => []
  end.

(** The [params] object; an absent field is [undefined]. *)
Record params : Type :=
  { p_shift : option Z;
    p_a : option Z;
    p_b : option Z;
    p_key : option text;
    p_keyMatrix : option mat3 }.

(** [params?.field || dflt]: [undefined], 0 and the empty string are falsy;
    a matrix is an object and always truthy. *)
Definition num_or (v : option Z) (dflt : Z) : Z :=
  match v with
  | Some n => if decide (n = 0) then dflt else n
  | None => dflt
  end.

Definition str_or (v : option text) (dflt : text) : text :=
  match v with
  | Some [] | None => dflt
  | Some s => s
  end.

Definition field {A : Type} (p : option params) (f : params → option A)
  : option A := p ≫= f.

(** An entry of the array [words]: a string, or a value of another type
    (null, a number, a boolean, an array, an object of parsed JSON), which
    has none of the methods [split], [toUpperCase] and [toLowerCase]. *)
Inductive entry : Type :=
| Str (w : text)
| NotString.

(** The [switch (cipher)] of [dictionaryDirectAttack] on one entry, up to
    the receiver of [encrypted.toLowerCase()].  On an entry that is no
    string every branch throws a [TypeError]: [text.split] in the Caesar and
    the affine transform (after the key check of [affineEncrypt]),
    [text.toUpperCase] in the Playfair and the Hill transform, and
    [encrypted.toLowerCase] in the default branch. *)
Definition encryptWord (word : entry) (cipher : string) (p : option params)
  : result text :=
  match word with
  | Str word =>
      if String.eqb cipher "caesar" then
        Ok (caesarEncrypt word (num_or (field p p_shift) 3))
      else if String.eqb cipher "affine" then
        affineEncrypt word (num_or (field p p_a) 5) (num_or (field p p_b) 8)
      else if String.eqb cipher "playfair" then
        playfairEncrypt word (str_or (field p p_key) (codes "SECRET"))
      else if String.eqb cipher "hill" then
        Ok (hillEncrypt word
              (default ((6, 24, 1), (13, 16, 10), (20, 17, 15))
                 (field p p_keyMatrix)))
      else Ok word
  | NotString =>
      if String.eqb cipher "affine" then
        if decide (gcd (num_or (field p p_a) 5) 26 ≠ 1) then Throw InvalidKey
        else Throw TypeError
      else Throw TypeError
  end.

(** One pass of the [for (const word of words)] loop with its [try]. *)
Definition tryWord (ciphertext : text) (cipher : string) (p : option params)
  (matches : list entry) (word : entry) : list entry :=
  match encryptWord word cipher p with
  | Ok encrypted =>
      if decide (toLowerCase encrypted = toLowerCase ciphertext)
      then matches ++ [word]
      else matches
  | Throw _ => matches
  end.

Definition dictionaryDirectAttack (ciphertext : text) (words : list entry)
  (cipher : string) (p : option params) : list entry :=
  foldl (tryWord ciphertext cipher p) [] words.

(** ** Dictionary filter (attacks.js) *)

(** [s.split(sep)] for a one-unit separator. *)
Fixpoint split_on (sep : Z) (t : text) : list text :=
  match t with
  | [] => [[]]
  | ch :: t' =>
      if decide (ch = sep) then [] :: split_on sep t'
      else
        match split_on sep t' with
        | l :: ls => (ch :: l) :: ls
        | [] => [[ch]]
        end
  end.

(** The white space and line terminators that [trim] removes. *)
Definition is_space (ch : Z) : bool :=
  bool_decide
    (ch ∈ [9; 10; 11; 12; 13; 32; 160; 5760; 8232; 8233; 8239; 8287; 12288;
           65279])
  || ((8192 <=? ch) && (ch <=? 8202)).

Fixpoint drop_spaces (t : text) : text :=
  match t with
  | ch :: t' => if is_space ch then drop_spaces t' else t
  | [] => []
  end.

Definition trim (t : text) : text :=
  reverse (drop_spaces (reverse (drop_spaces t))).

(** The word list read from the dictionary file, whose content is
    [content]: the lines, trimmed and in small letters, the empty ones
    dropped ([filter(Boolean)]). *)
Definition dictionaryWords (content : text) : list text :=
  filter (λ w, w ≠ []) ((λ w, toLowerCase (trim w)) <$> split_on 10 content).

(** One pass of the loop of [dictionaryAttack]: a match
    [{...candidate, matched: text}] is the candidate paired with the matched
    text; [text_of] reads the field [text] of a candidate. *)
Definition keepMatch {C : Type} (text_of : C → text) (wordSet : gset text)
  (matches : list (C * text)) (candidate : C) : list (C * text) :=
  let t := toLowerCase (text_of candidate) in
  if decide (t ∈ wordSet) then matches ++ [(candidate, t)] else matches.

(** [dictionaryAttack] on the content of the file at [dictPath]. *)
Definition dictionaryAttack {C : Type} (text_of : C → text)
  (candidates : list C) (content : text) : list (C * text) :=
  let words := dictionaryWords content in
  let wordSet : gset text := list_to_set words in
  foldl (keepMatch text_of wordSet) [] candidates.

(** ** Password enumeration (attacks.js) *)

(** The symbols that [for (const char of charset)] visits: the code points
    of the string, a high surrogate followed by a low surrogate being one
    symbol of two code units. *)
Definition is_high_surrogate (ch : Z) : bool := (55296 <=? ch) && (ch <=? 56319).
Definition is_low_surrogate (ch : Z) : bool := (56320 <=? ch) && (ch <=? 57343).

Fixpoint codePoints (t : text) : list text :=
  match t with
  | [] => []
  | a :: rest =>
      match rest with
      | b :: rest' =>
          if is_high_surrogate a && is_low_surrogate b
          then [a; b] :: codePoints rest'
          else [a] :: codePoints rest
      | [] => [[a]]
      end
  end.

(** The inner function [generate] of [bruteForcePassword], with the array
    [results] passed along.  [remaining] is [length - depth]: the source
    counts [depth] up to [length]. *)
Fixpoint generate (charset : text) (maxAttempts : Z) (remaining : nat)
  (current : text) (results : list text) : list text :=
  if decide (maxAttempts <= Z.of_nat (length results)) then results
  else
    match remaining with
    | O => results ++ [current]
    | S remaining' =>
        foldl
          (λ results char,
             generate charset maxAttempts remaining' (current ++ char)
               results)
          results (codePoints charset)
    end.

(** The two shapes of the object returned by [bruteForcePassword]. *)
Inductive passwordSearch : Type :=
| TooMany (total maxAttempts : Z)
| Generated (total : Z) (generated : nat) (passwords : list text).

(** [Math.pow(charset.length, length)] is the power itself up to 2^53 and
    its nearest double beyond. *)
Definition bruteForcePassword (charset : text) (len : nat) (maxAttempts : Z)
  : passwordSearch :=
  let total := toDouble (Z.of_nat (length charset) ^ Z.of_nat len) in
  if decide (total > maxAttempts) then TooMany total maxAttempts
  else
    let results := generate charset maxAttempts len [] [] in
    Generated total (length results) results.

(** * The key exchange (secure.js, app.js) *)

(** The loop of [modPow] on BigInt values: [%] is the truncated remainder
    and [>> 1n] the floor of the half. *)
Equations? modPow_loop (result base exponent modulus : Z) : Z
  by wf (Z.to_nat exponent) lt :=
  modPow_loop result base exponent modulus with decide (exponent > 0) => {
    | left _ :=
        modPow_loop
          (if decide (Z.rem exponent 2 = 1) then Z.rem (result * base) modulus
           else result)
          (Z.rem (base * base) modulus)
          (Z.shiftr exponent 1)
          modulus ;
    | right _ := result }.
Proof.
  rewrite Z.shiftr_div_pow2 by lia. change (2 ^ 1) with 2.
  pose proof (Z.div_lt exponent 2 ltac:(lia) ltac:(lia)).
  pose proof (Z.div_pos exponent 2 ltac:(lia) ltac:(lia)). lia.
Qed.

(** [base % modulus] throws a RangeError when [modulus] is [0n]: [None]. *)
Definition modPow (base exponent modulus : Z) : option Z :=
  if decide (modulus = 1) then Some 0
  else if decide (modulus = 0) then None
  else Some (modPow_loop 1 (Z.rem base modulus) exponent modulus).

Definition computeDHPublic (g privateKey p : Z) : option Z :=
  modPow g privateKey p.

Definition computeDHShared (otherPublic privateKey p : Z) : option Z :=
  modPow otherPublic privateKey p.

(** * The client-side ciphers (app.js) *)

Definition caesarClient (t : text) (shift : Z) : text :=
  (λ ch,
     if is_lower ch then
       fromCharCode (Z.rem (fadd (fadd (ch - 97) shift) 26) 26 + 97)
     else if is_upper ch then
       fromCharCode (Z.rem (fadd (fadd (ch - 65) shift) 26) 26 + 65)
     else ch) <$> t.

(** The inner [modInverse] of [affineClient], which does not reduce [a]
    first. *)
Definition clientModInverse (a m : Z) : option Z :=
  List.find (λ x, Z.rem (fmul a x) m =? 1) (seqZ 1 (m - 1)).

(** The inner [gcd] of [affineClient] is the loop of [gcd] ([while (y)] ends
    at 0); [!aInv] holds for [null] and for 0. *)
Definition affineClient (t : text) (a b : Z) (operation : string)
  : result text :=
  if decide (gcd a 26 ≠ 1) then Throw InvalidKey
  else
    '(a, b) ←
      (if String.eqb operation "decrypt" then
         match clientModInverse a 26 with
         | Some aInv =>
             if decide (aInv = 0) then Throw InvalidKey else Ok (aInv, - b)
         | None => Throw InvalidKey
         end
       else Ok (a, b));
    Ok ((λ ch,
           if is_lower ch then
             let x := ch - 97 in
             let y := Z.rem (fadd (Z.rem (fadd (fmul a x) b) 26) 26) 26 in
             fromCharCode (y + 97)
           else if is_upper ch then
             let x := ch - 65 in
             let y := Z.rem (fadd (Z.rem (fadd (fmul a x) b) 26) 26) 26 in
             fromCharCode (y + 65)
           else ch) <$> t).

(** * Vocabulary of the statements *)

(** A transform passes the non-alphabetic symbols of [inp] through: the
    output has the length of the input and carries every non-alphabetic
    symbol of the input at its own position. *)
Definition passes_through (inp out : text) : Prop :=
  length out = length inp ∧
  ∀ (i : nat) (ch : Z),
    inp !! i = Some ch → is_alpha ch = false → out !! i = Some ch.

(** The key space of the affine search in enumeration order, and the
    ascending (lexicographic) order on its keys. *)
Definition affineKeys : list (Z * Z) :=
  a ← validA; b ← seqZ 0 26; [(a, b)].

Definition key_lt (k1 k2 : Z * Z) : Prop :=
  k1.1 < k2.1 ∨ (k1.1 = k2.1 ∧ k1.2 < k2.2).

#[export] Instance key_lt_dec (k1 k2 : Z * Z) : Decision (key_lt k1 k2).
Proof. unfold key_lt. apply _. Defined.

(** The keys on which the arithmetic of the program is exact.  A shift is
    safe when its sum with every letter index 0..25 is an integer up to
    2^53; an affine key when [a * x + b] and [aInv * (y - b)] are, for
    letter indices [x], [y] and an inverse [aInv] below 26. *)
Definition safe_shift (s : Z) : Prop := Z.abs s <= 2 ^ 53 - 25.

Definition safe_affine (a b : Z) : Prop :=
  Z.abs a <= 2 ^ 48 ∧ Z.abs b <= 2 ^ 48.

(** The product of a row with a vector of residues. *)
Definition dot (row : vec3) (x y z : Z) : Z :=
  let '(r0, r1, r2) := row in r0 * x + r1 * y + r2 * z.

(** The invariant of the two push loops of [buildPlayfairMatrix]: the list
    has no duplicates and [seen] is the set of its elements. *)
Definition pushed (st : list Z * gset Z) : Prop :=
  NoDup st.1 ∧ ∀ x, x ∈ st.2 ↔ x ∈ st.1.

(** The flat list [matrix] from which [buildPlayfairMatrix] cuts the rows. *)
Definition flatGrid (key : text) : list Z :=
  (foldl push_unseen
     (foldl push_unseen ([], ∅) (stripNonAZ (replaceJ (toUpperCase key))))
     alphabet).1.

(** The text spelled by a list of digrams. *)
Definition spell (digrams : list (Z * Z)) : text :=
  d ← digrams; [d.1; d.2].

(** No two neighbouring symbols of the text are equal. *)
Fixpoint no_adjacent_repeat (t : text) : Prop :=
  match t with
  | a :: rest =>
      match rest with
      | b :: _ => a ≠ b ∧ no_adjacent_repeat rest
      | [] => True
      end
  | [] => True
  end.

(** The loop of [playfairDecrypt] on the stripped text [t], started with
    [res]. *)
Definition decryptLoop (matrix : list (list Z)) (t : text) (res : text)
  : result text :=
  for_of (range_step (length t) 2)
    (λ res i, decryptPair matrix res (t !! i) (t !! (i + 1)%nat)) res.

(** A full 5x5 grid of the alphabet: every cell holds a letter, no letter
    is in two cells and every letter is in a cell. *)
Definition grid_ok (matrix : list (list Z)) : Prop :=
  (∀ row col, (row < 5)%nat → (col < 5)%nat →
     ∃ ch, cell matrix row col = Some ch ∧ ch ∈ alphabet) ∧
  (∀ r1 c1 r2 c2 ch,
     (r1 < 5)%nat → (c1 < 5)%nat → (r2 < 5)%nat → (c2 < 5)%nat →
     cell matrix r1 c1 = Some ch → cell matrix r2 c2 = Some ch →
     r1 = r2 ∧ c1 = c2) ∧
  (∀ ch, ch ∈ alphabet →
     ∃ row col, (row < 5)%nat ∧ (col < 5)%nat ∧
       cell matrix row col = Some ch).

(** A list without its repetitions, the first occurrence of every element
    kept in place. *)
Fixpoint first_seen (l : list Z) : list Z :=
  match l with
  | [] => []
  | x :: l' => x :: filter (λ y, y ≠ x) (first_seen l')
  end.

(** The product of two 3x3 matrices and the identity matrix. *)
Definition mat_mul (x y : mat3) : mat3 :=
  let '((y00, y01, y02), (y10, y11, y12), (y20, y21, y22)) := y in
  let '(r0, r1, r2) := x in
  ((dot r0 y00 y10 y20, dot r0 y01 y11 y21, dot r0 y02 y12 y22),
   (dot r1 y00 y10 y20, dot r1 y01 y11 y21, dot r1 y02 y12 y22),
   (dot r2 y00 y10 y20, dot r2 y01 y11 y21, dot r2 y02 y12 y22)).

Definition identity3 : mat3 := ((1, 0, 0), (0, 1, 0), (0, 0, 1)).

Definition entries (m : mat3) : list Z :=
  let '((m00, m01, m02), (m10, m11, m12), (m20, m21, m22)) := m in
  [m00; m01; m02; m10; m11; m12; m20; m21; m22].

(** A key matrix whose entries are at most [bound] in magnitude. *)
Definition bounded_key (bound : Z) (m : mat3) : Prop :=
  Forall (λ v, Z.abs v <= bound) (entries m).

(** The determinant and the adjugate of a 3x3 integer matrix, in exact
    arithmetic. *)
Definition determinant (m : mat3) : Z :=
  let '((m00, m01, m02), (m10, m11, m12), (m20, m21, m22)) := m in
  m00 * (m11 * m22 - m12 * m21)
  - m01 * (m10 * m22 - m12 * m20)
  + m02 * (m10 * m21 - m11 * m20).

Definition adjugate (m : mat3) : mat3 :=
  let '((m00, m01, m02), (m10, m11, m12), (m20, m21, m22)) := m in
  ((m11 * m22 - m12 * m21, - (m01 * m22 - m02 * m21), m01 * m12 - m02 * m11),
   (- (m10 * m22 - m12 * m20), m00 * m22 - m02 * m20, - (m00 * m12 - m02 * m10)),
   (m10 * m21 - m11 * m20, - (m00 * m21 - m01 * m20), m00 * m11 - m01 * m10)).

(** An entry of a word list is ASCII when it is a string of ASCII symbols
    or no string. *)
Definition ascii_entry (e : entry) : Prop :=
  match e with
  | Str w => is_ascii w
  | NotString => True
  end.

(** The parameters of [dictionaryDirectAttack], after their defaults, on
    which the arithmetic of the transforms is exact and the Playfair key is
    ASCII. *)
Definition safe_params (p : option params) : Prop :=
  safe_shift (num_or (field p p_shift) 3) ∧
  safe_affine (num_or (field p p_a) 5) (num_or (field p p_b) 8) ∧
  is_ascii (str_or (field p p_key) (codes "SECRET")) ∧
  bounded_key (2 ^ 46)
    (default ((6, 24, 1), (13, 16, 10), (20, 17, 15)) (field p p_keyMatrix)).

(** The words of [n] symbols, the first symbol varying slowest; a symbol is
    a string of one or two code units. *)
Fixpoint all_words (symbols : list text) (n : nat) : list text :=
  match n with
  | O => [[]]
  | S n' => c ← symbols; (λ w, c ++ w) <$> all_words symbols n'
  end.

(** * Properties *)

(** ** Numbers *)

(** Integers up to 2^53 in magnitude are doubles. *)
Lemma toDouble_exact (n : Z) : Z.abs n <= 2 ^ 53 → toDouble n = n.
Proof.
  intros H. unfold toDouble. by rewrite (proj2 (Z.leb_le _ _) H).
Qed.

(** A multiple of 2^e with a significand between 2^52 and 2^53 is a
    double. *)
Lemma toDouble_significand (q e : Z) :
  0 <= e → 2 ^ 52 <= q <= 2 ^ 53 → toDouble (q * 2 ^ e) = q * 2 ^ e.
Proof.
  intros He Hq. unfold toDouble.
  assert (0 < 2 ^ e) as Hpe by (apply Z.pow_pos_nonneg; lia).
  destruct (Z.leb_spec (Z.abs (q * 2 ^ e)) (2 ^ 53)) as [|Hbig]; [done|].
  rewrite Z.abs_eq in * by nia. rewrite Z.sgn_pos by nia. cbv zeta.
  destruct (decide (q = 2 ^ 53)) as [->|Hne].
  - rewrite <- Z.pow_add_r by lia. rewrite Z.log2_pow2 by lia.
    replace (53 + e - 52) with (e + 1) by lia.
    replace (53 + e) with (52 + (e + 1)) by lia.
    rewrite (Z.pow_add_r 2 52) by lia.
    assert (0 < 2 ^ (e + 1)) by (apply Z.pow_pos_nonneg; lia).
    rewrite Z.div_mul, Z.mod_mul by lia.
    replace (2 * 0 <? 2 ^ (e + 1)) with true by lia. cbn [orb]. lia.
  - assert (Z.log2 (q * 2 ^ e) = 52 + e) as ->.
    { apply Z.log2_unique; [lia|].
      replace (Z.succ (52 + e)) with (53 + e) by lia.
      rewrite !Z.pow_add_r by lia. nia. }
    replace (52 + e - 52) with e by lia.
    rewrite Z.div_mul, Z.mod_mul by lia.
    replace (2 * 0 <? 2 ^ e) with true by lia. cbn [orb]. lia.
Qed.

Lemma toDouble_opp (n : Z) : toDouble (- n) = - toDouble n.
Proof.
  unfold toDouble. rewrite Z.abs_opp, Z.sgn_opp.
  destruct (Z.abs n <=? 2 ^ 53); [done|]. cbv zeta. lia.
Qed.

Lemma toDouble_idemp (n : Z) : toDouble (toDouble n) = toDouble n.
Proof.
  assert (∀ n, 0 <= n → toDouble (toDouble n) = toDouble n) as Hpos.
  { clear n. intros n Hn.
    assert (toDouble n = n ∨
            ∃ q e, 0 <= e ∧ 2 ^ 52 <= q <= 2 ^ 53 ∧ toDouble n = q * 2 ^ e)
      as [E | (q & e & He & Hq & E)];
      [|by rewrite !E|rewrite E; by apply toDouble_significand].
    unfold toDouble.
    destruct (Z.leb_spec (Z.abs n) (2 ^ 53)) as [|Hbig]; [by left|right].
    rewrite Z.abs_eq in * by done. rewrite Z.sgn_pos by lia. cbv zeta.
    rewrite Z.mul_1_l.
    pose proof (Z.log2_spec n ltac:(lia)) as [Hlo Hhi].
    assert (53 <= Z.log2 n) as Hl by (apply Z.log2_le_pow2; lia).
    set (e := Z.log2 n - 52) in *.
    replace (Z.log2 n) with (52 + e) in Hlo by lia.
    replace (Z.succ (Z.log2 n)) with (53 + e) in Hhi by lia.
    rewrite Z.pow_add_r in Hlo, Hhi by lia.
    assert (0 < 2 ^ e) as Hpe by (apply Z.pow_pos_nonneg; lia).
    assert (2 ^ 52 <= n `div` 2 ^ e < 2 ^ 53) as Hq.
    { split.
      - apply Z.div_le_lower_bound; lia.
      - apply Z.div_lt_upper_bound; lia. }
    eexists _, e. split; [lia|]. split; [|reflexivity].
    destruct ((2 * (n `mod` 2 ^ e) <? 2 ^ e)
              || (2 * (n `mod` 2 ^ e) =? 2 ^ e) && Z.even (n `div` 2 ^ e));
      lia. }
  destruct (Z.le_ge_cases 0 n) as [H|H]; [by apply Hpos|].
  assert (0 <= - n) as Hm by lia. rewrite <- (Z.opp_involutive n).
  revert Hm. generalize (- n). intros m Hm.
  rewrite !toDouble_opp. by rewrite Hpos.
Qed.

Lemma fmul_1_l (x : Z) : fmul 1 (toDouble x) = toDouble x.
Proof. unfold fmul. rewrite Z.mul_1_l. apply toDouble_idemp. Qed.

Lemma fadd_exact (x y : Z) : Z.abs (x + y) <= 2 ^ 53 → fadd x y = x + y.
Proof. apply toDouble_exact. Qed.

Lemma fsub_exact (x y : Z) : Z.abs (x - y) <= 2 ^ 53 → fsub x y = x - y.
Proof. apply toDouble_exact. Qed.

Lemma fmul_exact (x y : Z) : Z.abs (x * y) <= 2 ^ 53 → fmul x y = x * y.
Proof. apply toDouble_exact. Qed.

(** ** Arithmetic *)

Lemma mod'_eq (n m : Z) : 0 < m <= 2 ^ 52 → mod' n m = n `mod` m.
Proof.
  intros Hm. unfold mod'.
  pose proof (Z.rem_bound_abs n m ltac:(lia)) as Hb.
  rewrite fadd_exact by lia.
  rewrite (Z.rem_mod_nonneg (Z.rem n m + m) m) by lia.
  rewrite (Z.rem_eq n m) by lia.
  replace (n - m * (n `quot` m) + m) with (n + (1 - n `quot` m) * m) by ring.
  apply Z_mod_plus_full.
Qed.

Lemma mod'_26_range (n : Z) : 0 <= mod' n 26 < 26.
Proof. rewrite mod'_eq by lia. apply Z.mod_pos_bound. lia. Qed.

Lemma gcd_step (a b : Z) :
  gcd a b = if decide (b = 0) then a else gcd b (Z.rem a b).
Proof. rewrite gcd_equation_1. destruct (decide (b = 0)); reflexivity. Qed.

(** The loop computes the greatest common divisor up to its sign. *)
Lemma gcd_abs (a b : Z) : Z.abs (gcd a b) = Z.gcd a b.
Proof.
  remember (Z.abs_nat b) as n eqn:Hn. revert a b Hn.
  induction n as [n IH] using lt_wf_ind. intros a b ->.
  rewrite gcd_step. destruct (decide (b = 0)) as [->|Hb].
  - rewrite Z.gcd_0_r. reflexivity.
  - pose proof (Z.rem_bound_abs a b Hb) as Hr.
    rewrite (IH (Z.abs_nat (Z.rem a b)) ltac:(lia) b (Z.rem a b) eq_refl).
    rewrite (Z.rem_eq a b) by done.
    replace (a - b * (a `quot` b)) with (a + (- (a `quot` b)) * b) by ring.
    rewrite Z.gcd_add_mult_diag_r. apply Z.gcd_comm.
Qed.

Lemma gcd_nonneg (a b : Z) : 0 <= a → 0 <= b → 0 <= gcd a b.
Proof.
  remember (Z.abs_nat b) as n eqn:Hn. revert a b Hn.
  induction n as [n IH] using lt_wf_ind. intros a b -> Ha Hb.
  rewrite gcd_step. destruct (decide (b = 0)) as [->|Hb0]; [done|].
  pose proof (Z.rem_bound_pos a b Ha ltac:(lia)) as Hr.
  apply (IH (Z.abs_nat (Z.rem a b))); lia.
Qed.

(** On non-negative arguments the loop is the mathematical gcd. *)
Lemma gcd_spec (a b : Z) : 0 <= a → 0 <= b → gcd a b = Z.gcd a b.
Proof.
  intros Ha Hb. rewrite <- gcd_abs.
  pose proof (gcd_nonneg a b Ha Hb). lia.
Qed.

Lemma gcd_1_coprime (a : Z) : gcd a 26 = 1 → Z.gcd (a `mod` 26) 26 = 1.
Proof.
  intros H. rewrite Z.gcd_mod by lia. rewrite Z.gcd_comm, <- gcd_abs, H.
  reflexivity.
Qed.

Lemma below_26_forallb (P : Z → bool) :
  forallb P (seqZ 0 26) = true → ∀ r, 0 <= r < 26 → P r = true.
Proof.
  intros H r Hr. rewrite forallb_forall in H. apply H.
  apply list_elem_of_In, elem_of_seqZ. lia.
Qed.

(** The search of [modInverse] succeeds on every residue coprime to 26. *)
Lemma modInverse_residue (r : Z) :
  0 <= r < 26 → Z.gcd r 26 = 1 →
  ∃ x, modInverse r 26 = Some x ∧ 0 < x < 26 ∧ (r * x) `mod` 26 = 1.
Proof.
  intros Hr Hg.
  pose (P := λ r : Z,
    implb (Z.gcd r 26 =? 1)
      match modInverse r 26 with
      | Some x => (0 <? x) && (x <? 26) && ((r * x) `mod` 26 =? 1)
      | None => false
      end).
  assert (P r = true) as HP by (apply below_26_forallb; [vm_compute; done|done]).
  unfold P in HP. rewrite (proj2 (Z.eqb_eq _ _) Hg) in HP. simpl in HP.
  destruct (modInverse r 26) as [x|]; [|done].
  exists x. split; [done|]. lia.
Qed.

Lemma modInverse_mod (a : Z) : modInverse a 26 = modInverse (a `mod` 26) 26.
Proof.
  unfold modInverse. fold (mod' a 26). fold (mod' (a `mod` 26) 26).
  rewrite !mod'_eq by lia. rewrite Z.mod_mod by lia. reflexivity.
Qed.

Lemma modInverse_coprime (a : Z) :
  Z.gcd (a `mod` 26) 26 = 1 →
  ∃ x, modInverse a 26 = Some x ∧ 0 < x < 26 ∧ (x * a) `mod` 26 = 1.
Proof.
  intros Hg.
  destruct (modInverse_residue (a `mod` 26)) as (x & Hx & Hr & Hm);
    [apply Z.mod_pos_bound; lia|done|].
  exists x. rewrite modInverse_mod. split; [done|]. split; [done|].
  rewrite <- Hm, Z.mul_comm. symmetry. apply Zmult_mod_idemp_l.
Qed.

(** ** Letters *)

Lemma is_lower_spec (ch : Z) : is_lower ch = true ↔ 97 <= ch <= 122.
Proof. unfold is_lower. rewrite andb_true_iff, !Z.leb_le. done. Qed.

Lemma is_upper_spec (ch : Z) : is_upper ch = true ↔ 65 <= ch <= 90.
Proof. unfold is_upper. rewrite andb_true_iff, !Z.leb_le. done. Qed.

Lemma is_lower_false (ch : Z) : is_lower ch = false ↔ ¬ (97 <= ch <= 122).
Proof. rewrite <- is_lower_spec. destruct (is_lower ch); naive_solver. Qed.

Lemma is_upper_false (ch : Z) : is_upper ch = false ↔ ¬ (65 <= ch <= 90).
Proof. rewrite <- is_upper_spec. destruct (is_upper ch); naive_solver. Qed.

Lemma fromCharCode_small (n : Z) : 0 <= n < 65536 → fromCharCode n = n.
Proof. intros H. unfold fromCharCode. apply Z.mod_small. done. Qed.

(** Case analysis on the class of a symbol, with the bounds in context. *)
Ltac letter_cases ch :=
  let Hl := fresh "Hl" in
  let Hu := fresh "Hu" in
  destruct (is_lower ch) eqn:Hl;
  [ pose proof (proj1 (is_lower_spec ch) Hl)
  | pose proof (proj1 (is_lower_false ch) Hl);
    destruct (is_upper ch) eqn:Hu;
    [ pose proof (proj1 (is_upper_spec ch) Hu)
    | pose proof (proj1 (is_upper_false ch) Hu) ] ].

(** A residue turned back into a letter above [base] stays a letter. *)
Lemma letter_of_residue (base n : Z) :
  0 <= base < 65000 →
  fromCharCode (mod' n 26 + base) = n `mod` 26 + base.
Proof.
  intros Hb. rewrite mod'_eq by lia.
  pose proof (Z.mod_pos_bound n 26 ltac:(lia)).
  apply fromCharCode_small. lia.
Qed.

(** ** Caesar *)

Lemma caesarEncrypt_length (t : text) (s : Z) :
  length (caesarEncrypt t s) = length t.
Proof. unfold caesarEncrypt. apply length_fmap. Qed.

(** Under a safe shift the sum of a letter index and the shift is exact,
    and the transform is the shift of the alphabet modulo 26. *)
Lemma caesarEncrypt_ok (t : text) (s : Z) :
  safe_shift s →
  caesarEncrypt t s =
    (λ ch,
       if is_lower ch then (ch - 97 + s) `mod` 26 + 97
       else if is_upper ch then (ch - 65 + s) `mod` 26 + 65
       else ch) <$> t.
Proof.
  unfold safe_shift. intros Hs. unfold caesarEncrypt.
  apply list_fmap_ext. intros _ ch _. cbn.
  rewrite !letter_of_residue by lia.
  letter_cases ch; [| |reflexivity]; rewrite fadd_exact by lia; reflexivity.
Qed.

Lemma safe_shift_mod (s : Z) : safe_shift (s `mod` 26).
Proof.
  unfold safe_shift. pose proof (Z.mod_pos_bound s 26 ltac:(lia)). lia.
Qed.

Lemma safe_shift_opp (s : Z) : safe_shift s → safe_shift (- s).
Proof. unfold safe_shift. lia. Qed.

Lemma caesarEncrypt_mod (t : text) (s : Z) :
  safe_shift s → caesarEncrypt t s = caesarEncrypt t (s `mod` 26).
Proof.
  intros Hs. rewrite !caesarEncrypt_ok by (done || apply safe_shift_mod).
  apply list_fmap_ext. intros _ ch _. cbn.
  rewrite !(Zplus_mod_idemp_r s). reflexivity.
Qed.

Lemma caesar_round_trip (t : text) (s : Z) :
  safe_shift s → caesarDecrypt (caesarEncrypt t s) s = t.
Proof.
  intros Hs. unfold caesarDecrypt.
  rewrite !caesarEncrypt_ok by (done || by apply safe_shift_opp).
  rewrite <- list_fmap_compose.
  rewrite <- (list_fmap_id t) at 2. apply list_fmap_ext. intros _ ch _.
  cbn.
  pose proof (Z.mod_pos_bound (ch - 97 + s) 26 ltac:(lia)).
  pose proof (Z.mod_pos_bound (ch - 65 + s) 26 ltac:(lia)).
  letter_cases ch.
  - rewrite (proj2 (is_lower_spec _)) by lia.
    replace ((ch - 97 + s) `mod` 26 + 97 - 97 + - s)
      with ((ch - 97 + s) `mod` 26 - s) by ring.
    rewrite Zminus_mod_idemp_l.
    replace (ch - 97 + s - s) with (ch - 97) by ring.
    rewrite Z.mod_small by lia. ring.
  - rewrite (proj2 (is_lower_false _)) by lia.
    rewrite (proj2 (is_upper_spec _)) by lia.
    replace ((ch - 65 + s) `mod` 26 + 65 - 65 + - s)
      with ((ch - 65 + s) `mod` 26 - s) by ring.
    rewrite Zminus_mod_idemp_l.
    replace (ch - 65 + s - s) with (ch - 65) by ring.
    rewrite Z.mod_small by lia. ring.
  - rewrite Hl, Hu. reflexivity.
Qed.

(** C10, within the exact range of the numbers: for every integer shift of
    magnitude up to 2^53 - 25, negative shifts and shifts of 26 or more
    included, a shift acts through its residue modulo 26, decoding is
    encoding with the opposite shift, and decoding undoes encoding. *)
Theorem caesar_any_integer_shift (t : text) (s : Z) :
  safe_shift s →
  caesarEncrypt t s = caesarEncrypt t (s `mod` 26) ∧
  caesarDecrypt t s = caesarEncrypt t (- s) ∧
  caesarDecrypt (caesarEncrypt t s) s = t.
Proof.
  intros Hs. split; [by apply caesarEncrypt_mod|]. split; [reflexivity|].
  by apply caesar_round_trip.
Qed.

Lemma caesar_any_integer_shift_witness :
  caesarEncrypt (codes "Hello, World!") (-29)
  = caesarEncrypt (codes "Hello, World!") ((-29) `mod` 26) ∧
  caesarDecrypt (codes "Hello, World!") (-29)
  = caesarEncrypt (codes "Hello, World!") (- -29) ∧
  caesarDecrypt (caesarEncrypt (codes "Hello, World!") (-29)) (-29)
  = codes "Hello, World!".
Proof.
  apply (caesar_any_integer_shift (codes "Hello, World!") (-29)).
  unfold safe_shift. lia.
Defined.

(** C10, counterexample: the shift 2^53 - 1 is an integer the program can
    receive, but the sums of the letter indices 1 and 2 with it are both
    rounded to 2^53: "abcd" is encoded to "fggi", not to its encoding "fghi"
    under the residue 5 of the shift, and decoded back to "abbd". *)
Lemma caesar_shift_beyond_2_53 :
  (2 ^ 53 - 1) `mod` 26 = 5 ∧
  caesarEncrypt (codes "abcd") (2 ^ 53 - 1) = codes "fggi" ∧
  caesarEncrypt (codes "abcd") ((2 ^ 53 - 1) `mod` 26) = codes "fghi" ∧
  caesarDecrypt (caesarEncrypt (codes "abcd") (2 ^ 53 - 1)) (2 ^ 53 - 1)
  = codes "abbd" ∧
  codes "fggi" ≠ codes "fghi" ∧ codes "abbd" ≠ codes "abcd".
Proof.
  split; [reflexivity|]. split; [vm_compute; reflexivity|].
  split; [vm_compute; reflexivity|]. split; [vm_compute; reflexivity|].
  split; discriminate.
Qed.

Lemma caesarEncrypt_passes (t : text) (s : Z) :
  passes_through t (caesarEncrypt t s).
Proof.
  split; [apply caesarEncrypt_length|].
  intros i ch Hi Ha. unfold caesarEncrypt. rewrite list_lookup_fmap, Hi. cbn.
  unfold is_alpha in Ha. apply orb_false_elim in Ha as [-> ->]. reflexivity.
Qed.

(** ** Affine *)

(** Under a safe key the products and sums of the affine transforms are
    exact. *)
Lemma affineEncrypt_ok (t : text) (a b : Z) :
  gcd a 26 = 1 → safe_affine a b →
  affineEncrypt t a b =
    Ok ((λ ch,
           if is_lower ch then (a * (ch - 97) + b) `mod` 26 + 97
           else if is_upper ch then (a * (ch - 65) + b) `mod` 26 + 65
           else ch) <$> t).
Proof.
  intros Hg [Ha Hb]. unfold affineEncrypt.
  rewrite decide_False by (rewrite Hg; tauto).
  f_equal. apply list_fmap_ext. intros _ ch _. cbn.
  rewrite !letter_of_residue by lia.
  letter_cases ch; [| |reflexivity];
    rewrite fmul_exact by nia; rewrite fadd_exact by nia; reflexivity.
Qed.

Lemma modInverse_range (a m x : Z) : modInverse a m = Some x → 1 <= x < m.
Proof.
  unfold modInverse. intros H. apply find_some in H as [Hin _].
  apply list_elem_of_In, elem_of_seqZ in Hin. lia.
Qed.

Lemma affineDecrypt_ok (t : text) (a b aInv : Z) :
  modInverse a 26 = Some aInv → Z.abs b <= 2 ^ 48 →
  affineDecrypt t a b =
    Ok ((λ ch,
           if is_lower ch then (aInv * (ch - 97 - b)) `mod` 26 + 97
           else if is_upper ch then (aInv * (ch - 65 - b)) `mod` 26 + 65
           else ch) <$> t).
Proof.
  intros Hi Hb. unfold affineDecrypt. rewrite Hi.
  apply modInverse_range in Hi.
  f_equal. apply list_fmap_ext. intros _ ch _. cbn.
  rewrite !letter_of_residue by lia.
  letter_cases ch; [| |reflexivity];
    rewrite fsub_exact by lia; rewrite fmul_exact by nia; reflexivity.
Qed.

(** Undoing [y = (a x + b) mod 26] with an inverse of [a]. *)
Lemma affine_residue_inverse (a b aInv x : Z) :
  (aInv * a) `mod` 26 = 1 → 0 <= x < 26 →
  (aInv * ((a * x + b) `mod` 26 - b)) `mod` 26 = x.
Proof.
  intros Hinv Hx.
  rewrite <- Zmult_mod_idemp_r, Zminus_mod_idemp_l, Zmult_mod_idemp_r.
  replace (aInv * (a * x + b - b)) with (aInv * a * x) by ring.
  rewrite <- Zmult_mod_idemp_l, Hinv, Z.mul_1_l. apply Z.mod_small. done.
Qed.

(** C2, within the exact range of the numbers: under a key that passes the
    coprimality check of [affineEncrypt] and whose two numbers are at most
    2^48 in magnitude, decoding the encoding of a text with the same key
    returns the text. *)
Theorem affine_round_trip (t : text) (a b : Z) :
  gcd a 26 = 1 → safe_affine a b →
  (affineEncrypt t a b ≫= λ c, affineDecrypt c a b) = Ok t.
Proof.
  intros Hg Hs.
  destruct (modInverse_coprime a (gcd_1_coprime a Hg)) as (aInv & Hi & _ & Hm).
  rewrite (affineEncrypt_ok t a b Hg Hs). cbn.
  rewrite (affineDecrypt_ok _ a b aInv Hi (proj2 Hs)). f_equal.
  rewrite <- list_fmap_compose.
  rewrite <- (list_fmap_id t) at 2. apply list_fmap_ext. intros _ ch _. cbn.
  pose proof (Z.mod_pos_bound (a * (ch - 97) + b) 26 ltac:(lia)).
  pose proof (Z.mod_pos_bound (a * (ch - 65) + b) 26 ltac:(lia)).
  letter_cases ch.
  - rewrite (proj2 (is_lower_spec _)) by lia.
    replace ((a * (ch - 97) + b) `mod` 26 + 97 - 97 - b)
      with ((a * (ch - 97) + b) `mod` 26 - b) by ring.
    rewrite affine_residue_inverse by (done || lia). ring.
  - rewrite (proj2 (is_lower_false _)) by lia.
    rewrite (proj2 (is_upper_spec _)) by lia.
    replace ((a * (ch - 65) + b) `mod` 26 + 65 - 65 - b)
      with ((a * (ch - 65) + b) `mod` 26 - b) by ring.
    rewrite affine_residue_inverse by (done || lia). ring.
  - rewrite Hl, Hu. reflexivity.
Qed.

Lemma affine_round_trip_witness :
  gcd 5 26 = 1 ∧
  (affineEncrypt (codes "Hello, World!") 5 8 ≫= λ c, affineDecrypt c 5 8)
  = Ok (codes "Hello, World!").
Proof.
  split; [reflexivity|].
  apply (affine_round_trip (codes "Hello, World!") 5 8); [reflexivity|].
  unfold safe_affine. lia.
Defined.

(** C2, counterexample: the multiplier 2^53 - 1 is coprime to 26 and passes
    the key check, but its products with the letter indices are rounded:
    the round trip of "Hello, World!" under the key (2^53 - 1, 8) returns
    another text. *)
Lemma affine_round_trip_large_key :
  gcd (2 ^ 53 - 1) 26 = 1 ∧ Z.gcd (2 ^ 53 - 1) 26 = 1 ∧
  (affineEncrypt (codes "Hello, World!") (2 ^ 53 - 1) 8
     ≫= λ c, affineDecrypt c (2 ^ 53 - 1) 8)
  = Ok (codes "Mywwk, Ikcwi!") ∧
  codes "Mywwk, Ikcwi!" ≠ codes "Hello, World!".
Proof.
  split; [vm_compute; reflexivity|]. split; [vm_compute; reflexivity|].
  split; [vm_compute; reflexivity|discriminate].
Qed.

Lemma validA_gcd (a : Z) : a ∈ validA → gcd a 26 = 1.
Proof.
  intros Ha. unfold validA in Ha.
  repeat (apply elem_of_cons in Ha as [->|Ha]; [reflexivity|]).
  by apply elem_of_nil in Ha.
Qed.

Lemma validA_spec (a : Z) : 0 <= a < 26 → (a ∈ validA ↔ Z.gcd a 26 = 1).
Proof.
  intros Hr.
  pose (P := λ a : Z, eqb (bool_decide (a ∈ validA)) (Z.gcd a 26 =? 1)).
  assert (P a = true) as HP by (apply below_26_forallb; [vm_compute; done|done]).
  unfold P in HP. apply eqb_prop in HP.
  rewrite <- Z.eqb_eq, <- HP, bool_decide_eq_true. done.
Qed.

Lemma affineEncrypt_throws (t : text) (a b : Z) :
  affineEncrypt t a b = Throw InvalidKey ↔ gcd a 26 ≠ 1.
Proof.
  unfold affineEncrypt. destruct (decide (gcd a 26 ≠ 1)); naive_solver.
Qed.

Lemma affineEncrypt_succeeds (t : text) (a b : Z) :
  (∃ c, affineEncrypt t a b = Ok c) ↔ gcd a 26 = 1.
Proof.
  unfold affineEncrypt. destruct (decide (gcd a 26 ≠ 1)) as [H|H].
  - split; [intros [c Hc]; done|done].
  - split; [intros _; apply dec_stable; done|eauto].
Qed.

(** C6, as the program has it: among the multipliers 0..25 the rejected
    ones are exactly those outside the list of valid values, every listed
    value is accepted, and a non-negative multiplier is rejected exactly
    when it is not coprime to 26. *)
Theorem affineEncrypt_key_check (t : text) (a b : Z) :
  (0 <= a < 26 → a ∉ validA → affineEncrypt t a b = Throw InvalidKey) ∧
  (a ∈ validA → ∃ c, affineEncrypt t a b = Ok c) ∧
  (0 <= a → (affineEncrypt t a b = Throw InvalidKey ↔ Z.gcd a 26 ≠ 1)).
Proof.
  split; [|split].
  - intros Hr Hn. apply affineEncrypt_throws.
    rewrite gcd_spec by lia. rewrite <- validA_spec; done.
  - intros Ha. apply affineEncrypt_succeeds, validA_gcd, Ha.
  - intros Ha. rewrite affineEncrypt_throws, gcd_spec by lia. done.
Qed.

Lemma affineEncrypt_key_check_witness :
  affineEncrypt (codes "HELLO") 13 8 = Throw InvalidKey ∧
  (∃ c, affineEncrypt (codes "HELLO") 5 8 = Ok c) ∧
  (affineEncrypt (codes "HELLO") 27 8 = Throw InvalidKey ↔ Z.gcd 27 26 ≠ 1).
Proof.
  split; [|split].
  - apply (proj1 (affineEncrypt_key_check (codes "HELLO") 13 8)).
    + lia.
    + apply (bool_decide_unpack _). vm_compute. exact I.
  - apply (proj1 (proj2 (affineEncrypt_key_check (codes "HELLO") 5 8))).
    apply (bool_decide_unpack _). vm_compute. exact I.
  - apply (proj2 (proj2 (affineEncrypt_key_check (codes "HELLO") 27 8))).
    lia.
Defined.

(** C6, counterexample: 27 is not one of the twelve listed multipliers, yet
    [affineEncrypt] accepts it. *)
Lemma affineEncrypt_accepts_27 :
  (27 ∉ validA) ∧ affineEncrypt (codes "HELLO") 27 8 = Ok (codes "PMTTW").
Proof.
  split; [|reflexivity].
  unfold validA. rewrite !not_elem_of_cons. repeat split; try lia.
  apply not_elem_of_nil.
Qed.

(** The loop of [gcd] keeps the sign of its operands: on the multiplier -1,
    coprime to 26, it returns -1 and [affineEncrypt] throws. *)
Lemma affineEncrypt_rejects_minus_1 :
  gcd (-1) 26 = -1 ∧ affineEncrypt (codes "HELLO") (-1) 8 = Throw InvalidKey.
Proof. split; reflexivity. Qed.

(** ** Exhaustive search *)

Lemma fmap_of_bind {A B C : Type} (f : B → C) (g : A → list B) (l : list A) :
  f <$> (l ≫= g) = l ≫= (λ x, f <$> g x).
Proof.
  induction l as [|x l IH]; [reflexivity|].
  rewrite !bind_cons, fmap_app, IH. reflexivity.
Qed.

Lemma bind_ext_elem {A B : Type} (f g : A → list B) (l : list A) :
  (∀ x, x ∈ l → f x = g x) → l ≫= f = l ≫= g.
Proof.
  induction l as [|x l IH]; intros H; [reflexivity|]. rewrite !bind_cons.
  rewrite (H x) by left. rewrite IH; [reflexivity|].
  intros y Hy. apply H. by right.
Qed.

Lemma affineDecrypt_valid (ct : text) (a b : Z) :
  a ∈ validA → ∃ d, affineDecrypt ct a b = Ok d.
Proof.
  intros Ha.
  destruct (modInverse_coprime a (gcd_1_coprime a (validA_gcd a Ha)))
    as (aInv & Hi & _).
  unfold affineDecrypt. rewrite Hi. eauto.
Qed.

Lemma bruteForceCaesar_shifts (ct : text) :
  cc_shift <$> bruteForceCaesar ct = seqZ 0 26.
Proof.
  unfold bruteForceCaesar. rewrite fmap_of_bind.
  induction (seqZ 0 26) as [|s l IH]; [reflexivity|].
  rewrite bind_cons, IH. reflexivity.
Qed.

Lemma bruteForceAffine_keys (ct : text) :
  (λ c, (ac_a c, ac_b c)) <$> bruteForceAffine ct = affineKeys.
Proof.
  unfold bruteForceAffine, affineKeys. rewrite fmap_of_bind.
  apply bind_ext_elem. intros a Ha. rewrite fmap_of_bind.
  apply bind_ext_elem. intros b _.
  destruct (affineDecrypt_valid ct a b Ha) as [d ->]. reflexivity.
Qed.

Lemma bruteForceAffine_texts (ct : text) :
  Forall (λ c, affineDecrypt ct (ac_a c) (ac_b c) = Ok (ac_text c))
    (bruteForceAffine ct).
Proof.
  unfold bruteForceAffine. apply Forall_bind, Forall_forall. intros a _.
  apply Forall_bind, Forall_forall. intros b _.
  cbn. destruct (affineDecrypt ct a b) as [d|e] eqn:E; [|constructor].
  constructor; [exact E|constructor].
Qed.

(** C7: both searches enumerate their whole key space in ascending key
    order: 26 shifts 0..25, and the 312 pairs of a valid multiplier and an
    offset 0..25, each entry holding the decoding under its key; the two
    sample ciphertexts yield the expected entries. *)
Theorem bruteForce_enumeration (ct : text) :
  (cc_shift <$> bruteForceCaesar ct = seqZ 0 26 ∧
   length (bruteForceCaesar ct) = 26%nat ∧
   Sorted Z.lt (cc_shift <$> bruteForceCaesar ct) ∧
   Forall (λ c, cc_text c = caesarDecrypt ct (cc_shift c))
     (bruteForceCaesar ct)) ∧
  ((λ c, (ac_a c, ac_b c)) <$> bruteForceAffine ct = affineKeys ∧
   length (bruteForceAffine ct) = 312%nat ∧
   Sorted key_lt ((λ c, (ac_a c, ac_b c)) <$> bruteForceAffine ct) ∧
   Forall (λ c, affineDecrypt ct (ac_a c) (ac_b c) = Ok (ac_text c))
     (bruteForceAffine ct)) ∧
  {| cc_shift := 3; cc_text := codes "HELLO" |}
    ∈ bruteForceCaesar (codes "KHOOR") ∧
  {| ac_a := 5; ac_b := 8; ac_text := codes "HELLO" |}
    ∈ bruteForceAffine (codes "RCLLA").
Proof.
  split; [|split; [|split]].
  - pose proof (bruteForceCaesar_shifts ct) as Hs.
    split; [done|]. split; [|split].
    + rewrite <- (length_fmap cc_shift), Hs. reflexivity.
    + rewrite Hs. apply (bool_decide_unpack _). vm_compute. exact I.
    + unfold bruteForceCaesar. apply Forall_bind, Forall_forall.
      intros s _. repeat constructor.
  - pose proof (bruteForceAffine_keys ct) as Hk.
    split; [done|]. split; [|split].
    + rewrite <- (length_fmap (λ c, (ac_a c, ac_b c))), Hk. reflexivity.
    + rewrite Hk. apply (bool_decide_unpack _). vm_compute. exact I.
    + apply bruteForceAffine_texts.
  - apply list_elem_of_lookup. exists 3%nat. reflexivity.
  - apply list_elem_of_lookup. exists 60%nat. reflexivity.
Qed.

(** ** Dictionary search *)

(** The loop appends to [matches] and never reads it, so a scan is the
    concatenation of the scans of its entries. *)
Lemma tryWord_acc (ct : text) (cipher : string) (p : option params)
  (acc : list entry) (word : entry) :
  tryWord ct cipher p acc word = acc ++ tryWord ct cipher p [] word.
Proof.
  unfold tryWord. destruct (encryptWord word cipher p) as [enc|e].
  - destruct (decide (toLowerCase enc = toLowerCase ct)).
    + reflexivity.
    + by rewrite app_nil_r.
  - by rewrite app_nil_r.
Qed.

Lemma scan_acc (ct : text) (cipher : string) (p : option params)
  (words : list entry) (acc : list entry) :
  foldl (tryWord ct cipher p) acc words
  = acc ++ dictionaryDirectAttack ct words cipher p.
Proof.
  unfold dictionaryDirectAttack. revert acc.
  induction words as [|w words IH]; intros acc; cbn.
  - by rewrite app_nil_r.
  - rewrite IH, (IH (tryWord ct cipher p [] w)), (tryWord_acc _ _ _ acc).
    by rewrite app_assoc.
Qed.

Lemma dictionaryDirectAttack_app (ct : text) (cipher : string)
  (p : option params) (words1 words2 : list entry) :
  dictionaryDirectAttack ct (words1 ++ words2) cipher p
  = dictionaryDirectAttack ct words1 cipher p
    ++ dictionaryDirectAttack ct words2 cipher p.
Proof.
  unfold dictionaryDirectAttack at 1. rewrite foldl_app.
  fold (dictionaryDirectAttack ct words1 cipher p). apply scan_acc.
Qed.

Lemma dictionaryDirectAttack_cons (ct : text) (cipher : string)
  (p : option params) (word : entry) (words : list entry) :
  dictionaryDirectAttack ct (word :: words) cipher p
  = tryWord ct cipher p [] word ++ dictionaryDirectAttack ct words cipher p.
Proof. unfold dictionaryDirectAttack at 1. cbn. apply scan_acc. Qed.

(** An entry that is no string makes every branch of the switch throw. *)
Lemma encryptWord_NotString (cipher : string) (p : option params) :
  ∃ e, encryptWord NotString cipher p = Throw e.
Proof.
  unfold encryptWord. destruct (String.eqb cipher "affine"); [|eauto].
  case_decide; eauto.
Qed.

(** C9: the sample scan finds exactly "hello"; and an entry whose encoding
    throws, as that of every entry that is no string does, contributes
    nothing while the entries before and after it are scanned as if it were
    absent. *)
Theorem dictionaryDirectAttack_scan :
  dictionaryDirectAttack (codes "khoor")
    [Str (codes "hello"); Str (codes "world")] "caesar"
    (Some {| p_shift := Some 3; p_a := None; p_b := None; p_key := None;
             p_keyMatrix := None |})
  = [Str (codes "hello")] ∧
  (∀ (cipher : string) (p : option params),
     ∃ e, encryptWord NotString cipher p = Throw e) ∧
  ∀ (ct : text) (cipher : string) (p : option params)
    (words1 : list entry) (word : entry) (words2 : list entry) (e : exn),
    encryptWord word cipher p = Throw e →
    dictionaryDirectAttack ct (words1 ++ word :: words2) cipher p
    = dictionaryDirectAttack ct words1 cipher p
      ++ dictionaryDirectAttack ct words2 cipher p.
Proof.
  split; [vm_compute; reflexivity|]. split; [apply encryptWord_NotString|].
  intros ct cipher p words1 word words2 e He.
  rewrite dictionaryDirectAttack_app, dictionaryDirectAttack_cons.
  unfold tryWord. rewrite He. reflexivity.
Qed.

(** A scan with an entry that is no string between two matching words:
    both words are found. *)
Lemma dictionaryDirectAttack_scan_witness :
  dictionaryDirectAttack (codes "khoor")
    ([Str (codes "hello")] ++ NotString :: [Str (codes "HELLO")]) "caesar"
    (Some {| p_shift := Some 3; p_a := None; p_b := None; p_key := None;
             p_keyMatrix := None |})
  = dictionaryDirectAttack (codes "khoor") [Str (codes "hello")] "caesar"
      (Some {| p_shift := Some 3; p_a := None; p_b := None; p_key := None;
               p_keyMatrix := None |})
    ++ dictionaryDirectAttack (codes "khoor") [Str (codes "HELLO")] "caesar"
         (Some {| p_shift := Some 3; p_a := None; p_b := None;
                  p_key := None; p_keyMatrix := None |}).
Proof.
  apply (proj2 (proj2 dictionaryDirectAttack_scan) (codes "khoor")
           "caesar"%string
           (Some {| p_shift := Some 3; p_a := None; p_b := None;
                    p_key := None; p_keyMatrix := None |})
           [Str (codes "hello")] NotString [Str (codes "HELLO")] TypeError).
  reflexivity.
Defined.

(** The scan of the witness returns both words: the entry between them does
    not end the scan. *)
Lemma dictionaryDirectAttack_scan_continues :
  dictionaryDirectAttack (codes "khoor")
    [Str (codes "hello"); NotString; Str (codes "HELLO")] "caesar"
    (Some {| p_shift := Some 3; p_a := None; p_b := None; p_key := None;
             p_keyMatrix := None |})
  = [Str (codes "hello"); Str (codes "HELLO")].
Proof. vm_compute. reflexivity. Qed.

(** ** Canonical text *)

Lemma toUpperCase_upper (t : text) :
  Forall (λ ch, is_upper ch = true) t → toUpperCase t = t.
Proof.
  intros H. unfold toUpperCase. rewrite <- (list_fmap_id t) at 2.
  apply Forall_fmap_ext. eapply Forall_impl; [exact H|].
  intros ch Hu. cbn. apply is_upper_spec in Hu.
  by rewrite (proj2 (is_lower_false ch)) by lia.
Qed.

Lemma stripNonAZ_upper (t : text) :
  Forall (λ ch, is_upper ch = true) t → stripNonAZ t = t.
Proof.
  unfold stripNonAZ. induction 1 as [|ch t Hch _ IH]; [reflexivity|].
  cbn. rewrite Hch, IH. reflexivity.
Qed.

Lemma stripNonAZ_Forall (t : text) :
  Forall (λ ch, is_upper ch = true) (stripNonAZ t).
Proof.
  unfold stripNonAZ. apply Forall_forall. intros ch Hin.
  apply list_elem_of_In, filter_In in Hin. tauto.
Qed.

(** ** Hill 3x3: the block loop *)

Lemma range_step_3_nil : range_step 0 3 = [].
Proof. reflexivity. Qed.

Lemma range_step_3_cons (n : nat) :
  range_step (S (S (S n))) 3 = 0%nat :: ((λ i, i + 3)%nat <$> range_step n 3).
Proof.
  unfold range_step.
  replace ((S (S (S n)) + 3 - 1) `div` 3)%nat
    with (S ((n + 3 - 1) `div` 3)%nat).
  - cbn [seq fmap list_fmap]. f_equal.
    rewrite <- fmap_S_seq, <- !list_fmap_compose.
    apply list_fmap_ext. intros _ k _. cbn. lia.
  - replace (S (S (S n)) + 3 - 1)%nat with ((n + 3 - 1) + 1 * 3)%nat by lia.
    rewrite Nat.div_add by lia. lia.
Qed.

Lemma hillBlocks_nil (matrix : mat3) : hillBlocks matrix [] = [].
Proof. reflexivity. Qed.

Lemma hillBlocks_cons (matrix : mat3) (a b c : Z) (t : text) :
  hillBlocks matrix (a :: b :: c :: t)
  = hillBlock matrix [a; b; c] ++ hillBlocks matrix t.
Proof.
  unfold hillBlocks. cbn [length]. rewrite range_step_3_cons, bind_cons.
  f_equal. rewrite list_fmap_bind. apply list_bind_ext; [|reflexivity].
  intros i. cbn. replace (i + 3)%nat with (S (S (S i))) by lia. reflexivity.
Qed.

(** Lists whose length is a multiple of 3, three symbols at a time. *)
Lemma blocks_ind (P : text → Prop) :
  P [] →
  (∀ a b c t, P t → P (a :: b :: c :: t)) →
  ∀ t, (length t `mod` 3 = 0)%nat → P t.
Proof.
  intros Hnil Hcons t.
  remember (length t) as n eqn:Hn. revert t Hn.
  induction n as [n IH] using lt_wf_ind. intros t Hn Hm.
  destruct t as [|a [|b [|c t]]]; cbn in Hn; subst n.
  - exact Hnil.
  - done.
  - done.
  - apply Hcons. apply (IH (length t)); [lia|reflexivity|].
    replace (S (S (S (length t)))) with (length t + 1 * 3)%nat in Hm by lia.
    by rewrite Nat.Div0.mod_add in Hm.
Qed.

(** ** Hill 3x3: arithmetic modulo 26 *)

#[local] Instance eqm26_equiv : Equivalence (eqm 26) := eqm_setoid 26.
#[local] Instance eqm26_add : Proper (eqm 26 ==> eqm 26 ==> eqm 26) Z.add :=
  Zplus_eqm 26.
#[local] Instance eqm26_sub : Proper (eqm 26 ==> eqm 26 ==> eqm 26) Z.sub :=
  Zminus_eqm 26.
#[local] Instance eqm26_mul : Proper (eqm 26 ==> eqm 26 ==> eqm 26) Z.mul :=
  Zmult_eqm 26.

Lemma eqm26_small (n x : Z) : eqm 26 n x → 0 <= x < 26 → n `mod` 26 = x.
Proof. unfold eqm. intros -> Hx. apply Z.mod_small, Hx. Qed.

(** ** Hill 3x3: exact arithmetic under bounded keys *)

Lemma mul_within (a b A B : Z) :
  - A <= a <= A → - B <= b <= B → - (A * B) <= a * b <= A * B.
Proof.
  intros Ha Hb. apply Z.abs_le. rewrite Z.abs_mul.
  apply Z.mul_le_mono_nonneg; [apply Z.abs_nonneg|by apply Z.abs_le
                              |apply Z.abs_nonneg|by apply Z.abs_le].
Qed.

Lemma toDouble_within (n : Z) : - 2 ^ 53 <= n <= 2 ^ 53 → toDouble n = n.
Proof. intros H. apply toDouble_exact, Z.abs_le. lia. Qed.

Lemma bounded_key_entries (bound m00 m01 m02 m10 m11 m12 m20 m21 m22 : Z) :
  bounded_key bound ((m00, m01, m02), (m10, m11, m12), (m20, m21, m22)) ↔
  - bound <= m00 <= bound ∧ - bound <= m01 <= bound ∧
  - bound <= m02 <= bound ∧ - bound <= m10 <= bound ∧
  - bound <= m11 <= bound ∧ - bound <= m12 <= bound ∧
  - bound <= m20 <= bound ∧ - bound <= m21 <= bound ∧
  - bound <= m22 <= bound.
Proof.
  unfold bounded_key, entries. rewrite !Forall_cons, Forall_nil.
  rewrite !Z.abs_le. tauto.
Qed.

Lemma bounded_key_le (bound bound' : Z) (m : mat3) :
  bounded_key bound m → bound <= bound' → bounded_key bound' m.
Proof.
  intros H Hle. eapply Forall_impl; [exact H|]. intros v Hv. cbv beta in *.
  lia.
Qed.

(** Replaces the products of two factors within [A] and [B] in magnitude,
    and then the sums and differences that stay within 2^53, by the exact
    results. *)
Ltac exact_products A B :=
  repeat match goal with
    | |- context [fmul ?a ?b] =>
        let H := fresh "Hprod" in
        assert (- (A * B) <= a * b <= A * B) as H by (apply mul_within; lia);
        change (fmul a b) with (toDouble (a * b));
        rewrite (toDouble_within (a * b)) by lia
    end.

Ltac exact_sums :=
  repeat match goal with
    | |- context [fadd ?a ?b] =>
        change (fadd a b) with (toDouble (a + b));
        rewrite (toDouble_within (a + b)) by lia
    | |- context [fsub ?a ?b] =>
        change (fsub a b) with (toDouble (a - b));
        rewrite (toDouble_within (a - b)) by lia
    end.

(** The determinant and the adjugate are computed exactly on keys with
    entries up to 100000: no intermediate result exceeds 6 * 10^15. *)
Lemma det3x3_exact (m : mat3) :
  bounded_key 100000 m → det3x3 m = determinant m.
Proof.
  destruct m as [[[[m00 m01] m02] [[m10 m11] m12]] [[m20 m21] m22]].
  rewrite bounded_key_entries. intros (?&?&?&?&?&?&?&?&?).
  unfold det3x3, determinant.
  exact_products 100000 100000. exact_sums.
  exact_products 100000 (2 * (100000 * 100000)). exact_sums.
  reflexivity.
Qed.

Lemma adjugate3x3_exact (m : mat3) :
  bounded_key 100000 m → adjugate3x3 m = adjugate m.
Proof.
  destruct m as [[[[m00 m01] m02] [[m10 m11] m12]] [[m20 m21] m22]].
  rewrite bounded_key_entries. intros (?&?&?&?&?&?&?&?&?).
  unfold adjugate3x3, adjugate. cbv zeta.
  exact_products 100000 100000. exact_sums.
  reflexivity.
Qed.

(** A block of three capital letters is sent to three capital letters,
    through the exact products of the rows with the letter indices when the
    entries of the key are at most 2^46 in magnitude. *)
Lemma hillBlock_letters (m : mat3) (a b c : Z) :
  bounded_key (2 ^ 46) m →
  is_upper a = true → is_upper b = true → is_upper c = true →
  hillBlock m [a; b; c]
  = [ dot m.1.1 (a - 65) (b - 65) (c - 65) `mod` 26 + 65;
      dot m.1.2 (a - 65) (b - 65) (c - 65) `mod` 26 + 65;
      dot m.2 (a - 65) (b - 65) (c - 65) `mod` 26 + 65 ].
Proof.
  intros Hm Ha Hb Hc.
  apply is_upper_spec in Ha, Hb, Hc.
  destruct m as [[[[m00 m01] m02] [[m10 m11] m12]] [[m20 m21] m22]].
  apply bounded_key_entries in Hm as (?&?&?&?&?&?&?&?&?).
  unfold hillBlock, textToVector, upper1. cbn [fmap list_fmap].
  rewrite !(proj2 (is_lower_false _)) by lia.
  replace ((0 <=? a - 65) && (a - 65 <? 26)) with true by lia.
  replace ((0 <=? b - 65) && (b - 65 <? 26)) with true by lia.
  replace ((0 <=? c - 65) && (c - 65 <? 26)) with true by lia.
  cbn. rewrite !letter_of_residue by lia. rewrite !mod'_eq by lia.
  rewrite !Z.mod_mod by lia.
  exact_products (2 ^ 46) 25. exact_sums. reflexivity.
Qed.

Lemma residue_letter (n : Z) : is_upper (n `mod` 26 + 65) = true.
Proof.
  pose proof (Z.mod_pos_bound n 26 ltac:(lia)). apply is_upper_spec. lia.
Qed.

Lemma hillBlock_upper (m : mat3) (a b c : Z) :
  bounded_key (2 ^ 46) m →
  is_upper a = true → is_upper b = true → is_upper c = true →
  Forall (λ ch, is_upper ch = true) (hillBlock m [a; b; c]).
Proof.
  intros Hm Ha Hb Hc. rewrite hillBlock_letters by done.
  repeat constructor; apply residue_letter.
Qed.

(** ** Hill 3x3: the inverse matrix *)

(** Adds the bounds of the products of two factors within [A] and [B] that
    occur in the goal to the context. *)
Ltac bound_products A B :=
  repeat match goal with
    | |- context [?a * ?b] =>
        lazymatch goal with
        | _ : - (A * B) <= a * b <= A * B |- _ => fail
        | _ => assert (- (A * B) <= a * b <= A * B)
                 by (apply mul_within; lia)
        end
    end.

Lemma adjugate_bounded (m : mat3) :
  bounded_key 100000 m → bounded_key (2 * (100000 * 100000)) (adjugate m).
Proof.
  destruct m as [[[[m00 m01] m02] [[m10 m11] m12]] [[m20 m21] m22]].
  rewrite bounded_key_entries. intros (?&?&?&?&?&?&?&?&?).
  unfold adjugate. rewrite bounded_key_entries.
  bound_products 100000 100000. repeat split; lia.
Qed.

(** The entries of the inverse are residues. *)
Lemma inverse_bounded (dInv : Z) (adj : mat3) :
  bounded_key 25 (map_mat3 (λ val, (dInv * val) `mod` 26) adj).
Proof.
  destruct adj as [[[[c00 c01] c02] [[c10 c11] c12]] [[c20 c21] c22]].
  cbn [map_mat3]. unfold bounded_key, entries.
  repeat constructor;
    match goal with
    | |- Z.abs (?n `mod` 26) <= 25 =>
        pose proof (Z.mod_pos_bound n 26 ltac:(lia)); lia
    end.
Qed.

Lemma inverseMatrix3x3Mod26_throws (m : mat3) :
  bounded_key 100000 m →
  Z.gcd (determinant m `mod` 26) 26 ≠ 1 →
  inverseMatrix3x3Mod26 m = Throw InvalidKey.
Proof.
  intros Hb Hg. unfold inverseMatrix3x3Mod26.
  rewrite det3x3_exact by done. rewrite mod'_eq by lia.
  pose proof (Z.mod_pos_bound (determinant m) 26 ltac:(lia)).
  rewrite gcd_spec by lia. by rewrite decide_True.
Qed.

Lemma inverseMatrix3x3Mod26_ok (m : mat3) :
  bounded_key 100000 m →
  Z.gcd (determinant m `mod` 26) 26 = 1 →
  ∃ dInv,
    (dInv * determinant m) `mod` 26 = 1 ∧
    inverseMatrix3x3Mod26 m
    = Ok (map_mat3 (λ val, (dInv * val) `mod` 26) (adjugate m)).
Proof.
  intros Hb Hg. unfold inverseMatrix3x3Mod26.
  rewrite det3x3_exact, adjugate3x3_exact by done.
  rewrite mod'_eq by lia.
  pose proof (Z.mod_pos_bound (determinant m) 26 ltac:(lia)).
  rewrite gcd_spec by lia. rewrite decide_False by (rewrite Hg; tauto).
  destruct (modInverse_coprime (determinant m `mod` 26)) as (x & -> & Hx0 & Hx).
  { by rewrite Z.mod_mod by lia. }
  rewrite Zmult_mod_idemp_r in Hx.
  exists x. split; [done|]. change (default 0 (Some x)) with x. f_equal.
  pose proof (adjugate_bounded m Hb) as Hadj.
  destruct (adjugate m)
    as [[[[c00 c01] c02] [[c10 c11] c12]] [[c20 c21] c22]].
  apply bounded_key_entries in Hadj as (?&?&?&?&?&?&?&?&?).
  cbn [map_mat3]. rewrite !mod'_eq by lia.
  exact_products 25 (2 * (100000 * 100000)). reflexivity.
Qed.

(** Decoding a block undoes its encoding: the adjugate times the matrix is
    the determinant times the identity, and [dInv] inverts the determinant
    modulo 26. *)
Lemma hillBlock_inverse (m : mat3) (dInv a b c : Z) :
  bounded_key (2 ^ 46) m →
  (dInv * determinant m) `mod` 26 = 1 →
  is_upper a = true → is_upper b = true → is_upper c = true →
  hillBlock (map_mat3 (λ val, (dInv * val) `mod` 26) (adjugate m))
    (hillBlock m [a; b; c])
  = [a; b; c].
Proof.
  intros Hm Hd Ha Hb Hc.
  assert (∃ x, a = x + 65 ∧ 0 <= x < 26) as (x & -> & Hx)
    by (apply is_upper_spec in Ha; exists (a - 65); lia).
  assert (∃ y, b = y + 65 ∧ 0 <= y < 26) as (y & -> & Hy)
    by (apply is_upper_spec in Hb; exists (b - 65); lia).
  assert (∃ z, c = z + 65 ∧ 0 <= z < 26) as (z & -> & Hz)
    by (apply is_upper_spec in Hc; exists (c - 65); lia).
  rewrite (hillBlock_letters m) by done.
  rewrite hillBlock_letters;
    [|eapply bounded_key_le; [apply inverse_bounded|lia]
     |apply residue_letter..].
  assert (eqm 26 (dInv * determinant m) 1) as Hd' by (unfold eqm; by rewrite Hd).
  clear Hm.
  destruct m as [[[[m00 m01] m02] [[m10 m11] m12]] [[m20 m21] m22]].
  cbn [adjugate map_mat3 fst snd dot] in *.
  replace (x + 65 - 65) with x by ring.
  replace (y + 65 - 65) with y by ring.
  replace (z + 65 - 65) with z by ring.
  repeat f_equal.
  all: replace (_ `mod` 26 + 65 - 65) with
         ((m00 * x + m01 * y + m02 * z) `mod` 26) by ring.
  all: replace (_ `mod` 26 + 65 - 65) with
         ((m10 * x + m11 * y + m12 * z) `mod` 26) by ring.
  all: replace (_ `mod` 26 + 65 - 65) with
         ((m20 * x + m21 * y + m22 * z) `mod` 26) by ring.
  all: apply eqm26_small; [|lia].
  all: rewrite !(Zmod_eqm 26).
  all: set (d := determinant ((m00, m01, m02), (m10, m11, m12), (m20, m21, m22)))
         in Hd'.
  - match goal with |- eqm 26 ?l _ =>
      replace l with (dInv * d * x) by (unfold d; cbn; ring) end.
    transitivity (1 * x); [apply eqm26_mul; [exact Hd'|reflexivity]|].
    rewrite Z.mul_1_l. reflexivity.
  - match goal with |- eqm 26 ?l _ =>
      replace l with (dInv * d * y) by (unfold d; cbn; ring) end.
    transitivity (1 * y); [apply eqm26_mul; [exact Hd'|reflexivity]|].
    rewrite Z.mul_1_l. reflexivity.
  - match goal with |- eqm 26 ?l _ =>
      replace l with (dInv * d * z) by (unfold d; cbn; ring) end.
    transitivity (1 * z); [apply eqm26_mul; [exact Hd'|reflexivity]|].
    rewrite Z.mul_1_l. reflexivity.
Qed.

(** ** Hill 3x3: the transforms *)

Lemma padToBlocks_full (t : text) :
  (length t `mod` 3 = 0)%nat → padToBlocks t = t.
Proof.
  intros H. rewrite padToBlocks_equation_1.
  destruct (decide ((length t `mod` 3)%nat ≠ 0%nat)); [done|reflexivity].
Qed.

Lemma hillEncrypt_canonical (t : text) (m : mat3) :
  Forall (λ ch, is_upper ch = true) t → (length t `mod` 3 = 0)%nat →
  hillEncrypt t m = hillBlocks m t.
Proof.
  intros Hu Hl. unfold hillEncrypt.
  rewrite toUpperCase_upper, stripNonAZ_upper by done.
  by rewrite padToBlocks_full.
Qed.

Lemma hillBlocks_upper (m : mat3) (t : text) :
  bounded_key (2 ^ 46) m →
  (length t `mod` 3 = 0)%nat → Forall (λ ch, is_upper ch = true) t →
  Forall (λ ch, is_upper ch = true) (hillBlocks m t).
Proof.
  intros Hm. revert t.
  apply (blocks_ind (λ t, Forall _ t → Forall _ (hillBlocks m t))).
  - intros _. constructor.
  - intros a b c t IH Hu. rewrite hillBlocks_cons.
    apply Forall_cons in Hu as [Ha Hu].
    apply Forall_cons in Hu as [Hb Hu].
    apply Forall_cons in Hu as [Hc Hu].
    apply Forall_app. split; [by apply hillBlock_upper|by apply IH].
Qed.

Lemma hillBlocks_inverse (m : mat3) (dInv : Z) (t : text) :
  bounded_key (2 ^ 46) m →
  (dInv * determinant m) `mod` 26 = 1 →
  (length t `mod` 3 = 0)%nat → Forall (λ ch, is_upper ch = true) t →
  hillBlocks (map_mat3 (λ val, (dInv * val) `mod` 26) (adjugate m))
    (hillBlocks m t)
  = t.
Proof.
  intros Hm Hd. revert t.
  apply (blocks_ind (λ t, Forall _ t → hillBlocks _ (hillBlocks m t) = t)).
  - reflexivity.
  - intros a b c t IH Hu.
    apply Forall_cons in Hu as [Ha Hu].
    apply Forall_cons in Hu as [Hb Hu].
    apply Forall_cons in Hu as [Hc Hu].
    rewrite (hillBlocks_cons m). rewrite (hillBlock_letters m) by done.
    cbn [app]. rewrite hillBlocks_cons.
    rewrite <- (hillBlock_letters m) by done.
    rewrite hillBlock_inverse by done. rewrite IH by done. reflexivity.
Qed.

Lemma bounded_key_encrypt (m : mat3) :
  bounded_key 100000 m → bounded_key (2 ^ 46) m.
Proof. intros H. eapply bounded_key_le; [exact H|lia]. Qed.




(** C3, on canonical text and within the exact range of the numbers: for a
    key with entries up to 100000 in magnitude whose determinant is coprime
    to 26 modulo 26 and a text of capital letters whose length is a multiple
    of 3, decoding the encoding returns the text. *)
Theorem hill_round_trip (t : text) (m : mat3) :
  bounded_key 100000 m →
  Z.gcd (determinant m `mod` 26) 26 = 1 →
  Forall (λ ch, is_upper ch = true) t →
  (length t `mod` 3 = 0)%nat →
  hillDecrypt (hillEncrypt t m) m = Ok t.
Proof.
  intros Hb Hg Hu Hl.
  pose proof (bounded_key_encrypt m Hb) as Hb'.
  destruct (inverseMatrix3x3Mod26_ok m Hb Hg) as (dInv & Hd & Hinv).
  rewrite hillEncrypt_canonical by done.
  pose proof (hillBlocks_upper m t Hb' Hl Hu) as Hc.
  unfold hillDecrypt. rewrite toUpperCase_upper, stripNonAZ_upper by done.
  rewrite Hinv. cbn. f_equal. by apply hillBlocks_inverse.
Qed.

Lemma hill_round_trip_witness :
  hillDecrypt
    (hillEncrypt (codes "ACTNOW") ((6, 24, 1), (13, 16, 10), (20, 17, 15)))
    ((6, 24, 1), (13, 16, 10), (20, 17, 15))
  = Ok (codes "ACTNOW").
Proof.
  apply (hill_round_trip (codes "ACTNOW")
           ((6, 24, 1), (13, 16, 10), (20, 17, 15))).
  - repeat constructor; vm_compute; discriminate.
  - reflexivity.
  - repeat constructor.
  - reflexivity.
Defined.

(** C3, counterexample: a text of three small letters, under the identity
    key, comes back in capitals. *)
Lemma hill_round_trip_lowercase :
  Z.gcd (determinant ((1, 0, 0), (0, 1, 0), (0, 0, 1)) `mod` 26) 26 = 1 ∧
  (length (codes "abc") `mod` 3 = 0)%nat ∧
  hillDecrypt (hillEncrypt (codes "abc") ((1, 0, 0), (0, 1, 0), (0, 0, 1)))
    ((1, 0, 0), (0, 1, 0), (0, 0, 1))
  = Ok (codes "ABC") ∧
  codes "ABC" ≠ codes "abc".
Proof. repeat split. discriminate. Qed.

(** Beyond the bound on the entries the round trip fails too: the
    determinant of this diagonal key is 1 modulo 26, but the rounded product
    [det3x3] returns is 0 modulo 26 and [hillDecrypt] rejects the key. *)
Lemma hill_round_trip_large_key :
  Z.gcd (determinant ((94906267, 0, 0), (0, 94906267, 0), (0, 0, 1))
           `mod` 26) 26 = 1 ∧
  hillDecrypt
    (hillEncrypt (codes "ABC")
       ((94906267, 0, 0), (0, 94906267, 0), (0, 0, 1)))
    ((94906267, 0, 0), (0, 94906267, 0), (0, 0, 1))
  = Throw InvalidKey.
Proof. split; vm_compute; reflexivity. Qed.

(** ** Playfair: the grid *)

(** The letters of a key as pushed by [buildPlayfairMatrix], and the flat
    list [matrix] the 5x5 grid is cut from. *)
Lemma alphabet_NoDup : NoDup alphabet.
Proof. apply (bool_decide_unpack _). vm_compute. exact I. Qed.

Lemma range_forallb (P : Z → bool) (lo n : Z) :
  forallb P (seqZ lo n) = true → ∀ r, lo <= r < lo + n → P r = true.
Proof.
  intros H r Hr. rewrite forallb_forall in H. apply H.
  apply list_elem_of_In, elem_of_seqZ. lia.
Qed.

(** The alphabet of the grid is the capital letters without J. *)
Lemma alphabet_spec (ch : Z) :
  ch ∈ alphabet ↔ is_upper ch = true ∧ ch ≠ 74.
Proof.
  split.
  - intros H.
    let l := eval vm_compute in alphabet in change alphabet with l in H.
    repeat (apply elem_of_cons in H as [->|H]; [split; [reflexivity|lia]|]).
    by apply elem_of_nil in H.
  - intros [Hu Hj]. apply is_upper_spec in Hu.
    pose (P := λ ch : Z, (ch =? 74) || bool_decide (ch ∈ alphabet)).
    assert (P ch = true) as HP
      by (apply (range_forallb P 65 26); [vm_compute; done|lia]).
    unfold P in HP. apply orb_true_iff in HP as [HP|HP]; [lia|].
    by apply bool_decide_eq_true in HP.
Qed.

Lemma keyUpper_alphabet (key : text) (ch : Z) :
  ch ∈ stripNonAZ (replaceJ key) → ch ∈ alphabet.
Proof.
  intros H. apply alphabet_spec. unfold stripNonAZ in H.
  apply list_elem_of_In, filter_In in H as [H Hu]. split; [done|].
  apply list_elem_of_In in H. unfold replaceJ in H.
  apply list_elem_of_fmap in H as (c & -> & _).
  destruct (Z.eqb_spec c 74); lia.
Qed.

Lemma push_unseen_pushed (st : list Z * gset Z) (ch : Z) :
  pushed st →
  pushed (push_unseen st ch) ∧
  ∀ x, x ∈ (push_unseen st ch).1 ↔ x ∈ st.1 ∨ x = ch.
Proof.
  destruct st as [matrix seen]. intros [Hnd Hseen]. unfold push_unseen.
  cbn [fst snd] in *.
  destruct (decide (ch ∈ seen)) as [Hin|Hin]; cbn [fst snd].
  - split; [done|]. intros x. split; [tauto|].
    intros [?| ->]; [done|]. by apply Hseen.
  - split; [split|]; cbn [fst snd].
    + apply NoDup_app. split; [done|]. split; [|apply NoDup_singleton].
      intros x Hx. rewrite list_elem_of_singleton. intros ->.
      by apply Hin, Hseen.
    + intros x. rewrite elem_of_union, elem_of_singleton, elem_of_app,
        list_elem_of_singleton, Hseen. tauto.
    + intros x. rewrite elem_of_app, list_elem_of_singleton. tauto.
Qed.

Lemma foldl_push_unseen_pushed (l : list Z) (st : list Z * gset Z) :
  pushed st →
  pushed (foldl push_unseen st l) ∧
  ∀ x, x ∈ (foldl push_unseen st l).1 ↔ x ∈ st.1 ∨ x ∈ l.
Proof.
  revert st. induction l as [|ch l IH]; intros st Hst; cbn.
  - split; [done|]. intros x. rewrite elem_of_nil. tauto.
  - destruct (push_unseen_pushed st ch Hst) as [Hst' Hel].
    destruct (IH _ Hst') as [Hfin Hel'].
    split; [done|]. intros x. rewrite Hel', Hel, elem_of_cons. tauto.
Qed.

Lemma flatGrid_permutation (key : text) : flatGrid key ≡ₚ alphabet.
Proof.
  unfold flatGrid.
  assert (pushed ([], ∅)) as H0.
  { split; [apply NoDup_nil_2|]. intros x. cbn.
    rewrite elem_of_empty, elem_of_nil. tauto. }
  destruct (foldl_push_unseen_pushed
              (stripNonAZ (replaceJ (toUpperCase key))) _ H0) as [H1 Hel1].
  destruct (foldl_push_unseen_pushed alphabet _ H1) as [[Hnd _] Hel2].
  apply NoDup_Permutation; [done|apply alphabet_NoDup|].
  intros x. rewrite Hel2, Hel1. cbn. rewrite elem_of_nil.
  split; [|tauto].
  intros [[[]|H]|H]; [|done]. by apply keyUpper_alphabet in H.
Qed.

Lemma flatGrid_NoDup (key : text) : NoDup (flatGrid key).
Proof. rewrite flatGrid_permutation. apply alphabet_NoDup. Qed.

Lemma flatGrid_length (key : text) : length (flatGrid key) = 25%nat.
Proof. rewrite flatGrid_permutation. reflexivity. Qed.

Lemma flatGrid_elem (key : text) (ch : Z) :
  ch ∈ flatGrid key ↔ ch ∈ alphabet.
Proof. by rewrite flatGrid_permutation. Qed.

(** The grid is the flat list cut into five rows of five. *)
Lemma buildPlayfairMatrix_rows (key : text) :
  buildPlayfairMatrix key
  = (λ i, slice (flatGrid key) (i * 5) ((i + 1) * 5)) <$> seq 0 5.
Proof. unfold buildPlayfairMatrix, flatGrid. cbv zeta. reflexivity. Qed.

(** The cell [(row, col)] of the grid is the entry [5 row + col] of the
    flat list. *)
Lemma cell_flatGrid (key : text) (row col : nat) :
  (row < 5)%nat → (col < 5)%nat →
  cell (buildPlayfairMatrix key) row col
  = flatGrid key !! (5 * row + col)%nat.
Proof.
  intros Hr Hc. rewrite buildPlayfairMatrix_rows. unfold cell.
  rewrite list_lookup_fmap, lookup_seq_lt by done.
  cbn [fmap option_fmap option_map mbind option_bind].
  unfold slice. rewrite lookup_take_lt by lia. rewrite lookup_drop.
  f_equal. lia.
Qed.

Lemma cell_is_Some (key : text) (row col : nat) :
  (row < 5)%nat → (col < 5)%nat →
  ∃ ch, cell (buildPlayfairMatrix key) row col = Some ch ∧ ch ∈ alphabet.
Proof.
  intros Hr Hc. rewrite cell_flatGrid by done.
  destruct (lookup_lt_is_Some_2 (flatGrid key) (5 * row + col)) as [ch Hch].
  { rewrite flatGrid_length. lia. }
  exists ch. split; [done|].
  apply (flatGrid_elem key). by eapply list_elem_of_lookup_2.
Qed.

(** Two cells with the same letter are the same cell. *)
Lemma cell_inj (key : text) (r1 c1 r2 c2 : nat) (ch : Z) :
  (r1 < 5)%nat → (c1 < 5)%nat → (r2 < 5)%nat → (c2 < 5)%nat →
  cell (buildPlayfairMatrix key) r1 c1 = Some ch →
  cell (buildPlayfairMatrix key) r2 c2 = Some ch →
  r1 = r2 ∧ c1 = c2.
Proof.
  intros ???? H1 H2. rewrite cell_flatGrid in H1, H2 by done.
  pose proof (NoDup_lookup _ _ _ _ (flatGrid_NoDup key) H1 H2). lia.
Qed.

(** Every letter of the alphabet sits in some cell. *)
Lemma cell_of_letter (key : text) (ch : Z) :
  ch ∈ alphabet →
  ∃ row col, (row < 5)%nat ∧ (col < 5)%nat ∧
    cell (buildPlayfairMatrix key) row col = Some ch.
Proof.
  intros H. apply (flatGrid_elem key), list_elem_of_lookup in H as [i Hi].
  pose proof (lookup_lt_Some _ _ _ Hi) as Hlt. rewrite flatGrid_length in Hlt.
  exists (i `div` 5)%nat, (i `mod` 5)%nat.
  split; [apply Nat.Div0.div_lt_upper_bound; lia|].
  split; [apply Nat.mod_upper_bound; lia|].
  rewrite cell_flatGrid.
  - by rewrite <- Nat.div_mod_eq.
  - apply Nat.Div0.div_lt_upper_bound; lia.
  - apply Nat.mod_upper_bound; lia.
Qed.

(** The grid of every key is a full grid of the alphabet. *)
Lemma buildPlayfairMatrix_ok (key : text) : grid_ok (buildPlayfairMatrix key).
Proof.
  split; [|split].
  - intros row col Hr Hc. by apply cell_is_Some.
  - intros r1 c1 r2 c2 ch ??????. by eapply cell_inj.
  - apply cell_of_letter.
Qed.

(** ** Playfair: finding a letter *)

Lemma findInRow_Some (matrix : list (list Z)) (char : option Z)
  (row : nat) (cols : list nat) (r c : nat) :
  findInRow matrix char row cols = Some (r, c) →
  r = row ∧ c ∈ cols ∧ cell matrix row c = char.
Proof.
  induction cols as [|col cols IH]; cbn; [done|].
  destruct (decide (cell matrix row col = char)) as [Heq|Hne].
  - intros [= <- <-]. split; [done|]. split; [left|done].
  - intros H. destruct (IH H) as (? & ? & ?).
    split; [done|]. split; [by right|done].
Qed.

Lemma findInRow_is_Some (matrix : list (list Z)) (char : option Z)
  (row : nat) (cols : list nat) (col : nat) :
  col ∈ cols → cell matrix row col = char →
  is_Some (findInRow matrix char row cols).
Proof.
  intros Hin Hc. induction cols as [|col' cols IH]; cbn.
  - by apply elem_of_nil in Hin.
  - destruct (decide (cell matrix row col' = char)); [eauto|].
    apply elem_of_cons in Hin as [->|Hin]; [done|by apply IH].
Qed.

Lemma findInRows_Some (matrix : list (list Z)) (char : option Z)
  (rows : list nat) (r c : nat) :
  findInRows matrix char rows = Some (r, c) →
  r ∈ rows ∧ c ∈ seq 0 5 ∧ cell matrix r c = char.
Proof.
  induction rows as [|row rows IH]; cbn -[seq]; [done|].
  destruct (findInRow matrix char row (seq 0 5)) as [p|] eqn:Hrow.
  - intros [= ->]. apply findInRow_Some in Hrow as (-> & ? & ?).
    split; [left|done].
  - intros H. destruct (IH H) as (? & ? & ?). split; [by right|done].
Qed.

Lemma findInRows_is_Some (matrix : list (list Z)) (char : option Z)
  (rows : list nat) (row col : nat) :
  row ∈ rows → col ∈ seq 0 5 → cell matrix row col = char →
  is_Some (findInRows matrix char rows).
Proof.
  intros Hin Hcol Hc. induction rows as [|row' rows IH]; cbn -[seq].
  - by apply elem_of_nil in Hin.
  - destruct (findInRow matrix char row' (seq 0 5)) as [p|] eqn:Hrow;
      [eauto|].
    apply elem_of_cons in Hin as [->|Hin]; [|by apply IH].
    destruct (findInRow_is_Some matrix char row' (seq 0 5) col Hcol Hc)
      as [p Hp].
    congruence.
Qed.

Lemma findPosition_Some (matrix : list (list Z)) (char : option Z)
  (r c : nat) :
  findPosition matrix char = Some (r, c) →
  (r < 5)%nat ∧ (c < 5)%nat ∧ cell matrix r c = char.
Proof.
  intros H. apply findInRows_Some in H as (Hr & Hc & Hcell).
  apply elem_of_seq in Hr, Hc. split; [lia|]. split; [lia|done].
Qed.

Lemma pred5_succ (i : nat) : (i < 5)%nat → pred5 ((i + 1) `mod` 5)%nat = i.
Proof.
  intros H. destruct i as [|[|[|[|[|i]]]]]; try reflexivity. lia.
Qed.

Lemma succ5_lt (i : nat) : ((i + 1) `mod` 5 < 5)%nat.
Proof. apply Nat.mod_upper_bound. lia. Qed.

Lemma succ5_inj (i j : nat) :
  (i < 5)%nat → (j < 5)%nat → ((i + 1) `mod` 5 = (j + 1) `mod` 5)%nat → i = j.
Proof.
  intros Hi Hj H.
  destruct i as [|[|[|[|[|i]]]]]; destruct j as [|[|[|[|[|j]]]]];
    try reflexivity; try lia; cbn in H; discriminate.
Qed.

Section Grid.

Variable matrix : list (list Z).
Hypothesis Hgrid : grid_ok matrix.

(** The search returns the cell of a letter of the grid. *)
Lemma findPosition_cell (row col : nat) (ch : Z) :
  (row < 5)%nat → (col < 5)%nat →
  cell matrix row col = Some ch →
  findPosition matrix (Some ch) = Some (row, col).
Proof.
  intros Hr Hc Hcell. unfold findPosition.
  destruct (findInRows_is_Some matrix (Some ch) (seq 0 5) row col)
    as [[r c] Hp].
  { apply elem_of_seq. lia. }
  { apply elem_of_seq. lia. }
  { done. }
  rewrite Hp. apply findInRows_Some in Hp as (Hr' & Hc' & Hcell').
  apply elem_of_seq in Hr', Hc'.
  destruct Hgrid as (_ & Hinj & _).
  destruct (Hinj r c row col ch) as [-> ->]; (done || lia).
Qed.

Lemma findPosition_letter (ch : Z) :
  ch ∈ alphabet →
  ∃ row col, (row < 5)%nat ∧ (col < 5)%nat ∧
    cell matrix row col = Some ch ∧
    findPosition matrix (Some ch) = Some (row, col).
Proof.
  intros H. destruct Hgrid as (_ & _ & Hall).
  destruct (Hall ch H) as (row & col & Hr & Hc & Hcell).
  exists row, col. repeat split; try done. by apply findPosition_cell.
Qed.

(** What is not a letter of the grid, and [undefined], is not found. *)
Lemma findPosition_absent (ch : Z) :
  ch ∉ alphabet → findPosition matrix (Some ch) = None.
Proof.
  intros Hn.
  destruct (findPosition matrix (Some ch)) as [[r c]|] eqn:Hp; [|done].
  apply findPosition_Some in Hp as (Hr & Hc & Hcell).
  destruct Hgrid as (Hfull & _).
  destruct (Hfull r c Hr Hc) as (ch' & Hch' & Hin).
  rewrite Hcell in Hch'. by injection Hch' as ->.
Qed.

Lemma findPosition_undefined : findPosition matrix None = None.
Proof.
  destruct (findPosition matrix None) as [[r c]|] eqn:Hp; [|done].
  apply findPosition_Some in Hp as (Hr & Hc & Hcell).
  destruct Hgrid as (Hfull & _).
  destruct (Hfull r c Hr Hc) as (ch' & Hch' & _). congruence.
Qed.

(** Encoding a pair of letters of the grid yields two letters of the grid,
    and decoding that pair returns the two letters. *)
Lemma pair_round_trip (a b : Z) (res : text) :
  a ∈ alphabet → b ∈ alphabet →
  ∃ a' b',
    a' ∈ alphabet ∧ b' ∈ alphabet ∧
    encryptPair matrix res (Some a) (Some b) = Ok (res ++ [a'; b']) ∧
    ∀ res', decryptPair matrix res' (Some a') (Some b') = Ok (res' ++ [a; b]).
Proof.
  intros Ha Hb.
  destruct (findPosition_letter a Ha) as (r1 & c1 & Hr1 & Hc1 & Hcell1 & Hp1).
  destruct (findPosition_letter b Hb) as (r2 & c2 & Hr2 & Hc2 & Hcell2 & Hp2).
  pose proof Hgrid as (Hfull & _).
  unfold encryptPair. rewrite Hp1, Hp2. cbn [mbind result_bind destructure].
  destruct (decide (r1 = r2)) as [->|Hr];
    [|destruct (decide (c1 = c2)) as [->|Hc]].
  - (* same row *)
    destruct (Hfull r2 ((c1 + 1) `mod` 5)%nat Hr2 (succ5_lt c1))
      as (a' & Ha' & Hina).
    destruct (Hfull r2 ((c2 + 1) `mod` 5)%nat Hr2 (succ5_lt c2))
      as (b' & Hb' & Hinb).
    exists a', b'. rewrite Ha', Hb'. unfold append_cell.
    split; [done|]. split; [done|]. split; [by rewrite <- app_assoc|].
    intros res'. unfold decryptPair.
    rewrite (findPosition_cell _ _ a' Hr2 (succ5_lt c1) Ha').
    rewrite (findPosition_cell _ _ b' Hr2 (succ5_lt c2) Hb').
    cbn [mbind result_bind destructure].
    rewrite decide_True by done. rewrite !pred5_succ by done.
    rewrite Hcell1, Hcell2. unfold append_cell. by rewrite <- app_assoc.
  - (* same column *)
    destruct (Hfull ((r1 + 1) `mod` 5)%nat c2 (succ5_lt r1) Hc2)
      as (a' & Ha' & Hina).
    destruct (Hfull ((r2 + 1) `mod` 5)%nat c2 (succ5_lt r2) Hc2)
      as (b' & Hb' & Hinb).
    exists a', b'. rewrite Ha', Hb'. unfold append_cell.
    split; [done|]. split; [done|]. split; [by rewrite <- app_assoc|].
    intros res'. unfold decryptPair.
    rewrite (findPosition_cell _ _ a' (succ5_lt r1) Hc2 Ha').
    rewrite (findPosition_cell _ _ b' (succ5_lt r2) Hc2 Hb').
    cbn [mbind result_bind destructure].
    rewrite decide_False by (intros E; apply succ5_inj in E; done).
    rewrite decide_True by done. rewrite !pred5_succ by done.
    rewrite Hcell1, Hcell2. unfold append_cell. by rewrite <- app_assoc.
  - (* rectangle *)
    destruct (Hfull r1 c2 Hr1 Hc2) as (a' & Ha' & Hina).
    destruct (Hfull r2 c1 Hr2 Hc1) as (b' & Hb' & Hinb).
    exists a', b'. rewrite Ha', Hb'. unfold append_cell.
    split; [done|]. split; [done|]. split; [by rewrite <- app_assoc|].
    intros res'. unfold decryptPair.
    rewrite (findPosition_cell _ _ a' Hr1 Hc2 Ha').
    rewrite (findPosition_cell _ _ b' Hr2 Hc1 Hb').
    cbn [mbind result_bind destructure].
    rewrite decide_False by done. rewrite decide_False by done.
    rewrite Hcell1, Hcell2. unfold append_cell. by rewrite <- app_assoc.
Qed.

End Grid.
(** ** Playfair: the loops *)

Lemma range_step_2_cons (n : nat) :
  range_step (S (S n)) 2 = 0%nat :: ((λ i, i + 2)%nat <$> range_step n 2).
Proof.
  unfold range_step.
  replace ((S (S n) + 2 - 1) `div` 2)%nat with (S ((n + 2 - 1) `div` 2)%nat).
  - cbn [seq fmap list_fmap]. f_equal.
    rewrite <- fmap_S_seq, <- !list_fmap_compose.
    apply list_fmap_ext. intros _ k _. cbn. lia.
  - replace (S (S n) + 2 - 1)%nat with ((n + 2 - 1) + 1 * 2)%nat by lia.
    rewrite Nat.div_add by lia. lia.
Qed.

Lemma for_of_fmap {A B S : Type} (f : A → B) (l : list A)
  (body : S → B → result S) (s : S) :
  for_of (f <$> l) body s = for_of l (λ s x, body s (f x)) s.
Proof.
  revert s. induction l as [|x l IH]; intros s; cbn; [reflexivity|].
  destruct (body s (f x)) as [s'|e]; cbn; [apply IH|reflexivity].
Qed.

Lemma for_of_ext {A S : Type} (l : list A) (body1 body2 : S → A → result S)
  (s : S) :
  (∀ s x, body1 s x = body2 s x) → for_of l body1 s = for_of l body2 s.
Proof.
  intros H. revert s. induction l as [|x l IH]; intros s; cbn; [reflexivity|].
  rewrite H. destruct (body2 s x) as [s'|e]; cbn; [apply IH|reflexivity].
Qed.

Lemma decryptLoop_nil (matrix : list (list Z)) (res : text) :
  decryptLoop matrix [] res = Ok res.
Proof. reflexivity. Qed.

Lemma decryptLoop_cons (matrix : list (list Z)) (a b : Z) (t res : text) :
  decryptLoop matrix (a :: b :: t) res
  = decryptPair matrix res (Some a) (Some b) ≫= decryptLoop matrix t.
Proof.
  unfold decryptLoop. cbn [length]. rewrite range_step_2_cons.
  cbn [for_of]. change ((a :: b :: t) !! 0%nat) with (Some a).
  change ((a :: b :: t) !! (0 + 1)%nat) with (Some b).
  destruct (decryptPair matrix res (Some a) (Some b)) as [res'|e]; cbn;
    [|reflexivity].
  rewrite for_of_fmap. apply for_of_ext. intros s i.
  replace (i + 2)%nat with (S (S i)) by lia. reflexivity.
Qed.

Lemma playfairDecrypt_unfold (t key : text) :
  playfairDecrypt t key
  = decryptLoop (buildPlayfairMatrix key) (stripNonAZ (toUpperCase t)) [].
Proof. unfold playfairDecrypt, decryptLoop. cbv zeta. reflexivity. Qed.

Lemma alphabet_upper (t : text) :
  Forall (λ ch, ch ∈ alphabet) t → Forall (λ ch, is_upper ch = true) t.
Proof.
  intros H. eapply Forall_impl; [exact H|].
  intros ch Hch. by apply alphabet_spec in Hch as [? _].
Qed.

(** Encoding a list of digrams over the alphabet succeeds, and the decoding
    loop run on the outcome spells the digrams. *)
Lemma encrypt_digrams (matrix : list (list Z)) (digrams : list (Z * Z))
  (res : text) :
  grid_ok matrix →
  Forall (λ d, d.1 ∈ alphabet ∧ d.2 ∈ alphabet) digrams →
  ∃ c,
    for_of digrams
      (λ res d, encryptPair matrix res (Some d.1) (Some d.2)) res
    = Ok (res ++ c) ∧
    Forall (λ ch, ch ∈ alphabet) c ∧
    ∀ res', decryptLoop matrix c res' = Ok (res' ++ spell digrams).
Proof.
  intros Hgrid H. revert res.
  induction H as [|[a b] digrams [Ha Hb] _ IH]; intros res.
  - exists []. cbn [for_of]. rewrite app_nil_r. split; [done|]. split; [done|].
    intros res'. rewrite decryptLoop_nil. unfold spell. cbn.
    by rewrite app_nil_r.
  - cbn [fst snd] in Ha, Hb.
    destruct (pair_round_trip matrix Hgrid a b res Ha Hb)
      as (a' & b' & Ha' & Hb' & Henc & Hdec).
    destruct (IH (res ++ [a'; b'])) as (c & Hc & Hletters & Hloop).
    exists (a' :: b' :: c). split; [|split].
    + cbn [for_of fst snd]. rewrite Henc. cbn [mbind result_bind].
      rewrite Hc. by rewrite <- app_assoc.
    + constructor; [done|]. constructor; done.
    + intros res'. rewrite decryptLoop_cons, Hdec. cbn [mbind result_bind].
      rewrite Hloop. unfold spell. rewrite bind_cons. cbn [fst snd].
      by rewrite <- app_assoc.
Qed.

Lemma X_alphabet : X ∈ alphabet.
Proof. apply alphabet_spec. split; [reflexivity|]. unfold X. lia. Qed.

Lemma digramsFrom_cons (a b : Z) (t : text) :
  digramsFrom (a :: b :: t)
  = if decide (a = b) then (a, X) :: digramsFrom (b :: t)
    else (a, b) :: digramsFrom t.
Proof. reflexivity. Qed.

Lemma digramsFrom_alphabet (t : text) :
  Forall (λ ch, ch ∈ alphabet) t →
  Forall (λ d, d.1 ∈ alphabet ∧ d.2 ∈ alphabet) (digramsFrom t).
Proof.
  remember (length t) as n eqn:Hn. revert t Hn.
  induction n as [n IH] using lt_wf_ind. intros t -> Ht.
  destruct t as [|a [|b t]].
  - constructor.
  - apply Forall_cons in Ht as [Ha _].
    constructor; [split; [done|apply X_alphabet]|constructor].
  - apply Forall_cons in Ht as [Ha Ht].
    pose proof Ht as Hbt. apply Forall_cons in Ht as [Hb Ht].
    rewrite digramsFrom_cons. destruct (decide (a = b)).
    + constructor; [split; [done|apply X_alphabet]|].
      apply (IH (length (b :: t))); [cbn; lia|reflexivity|done].
    + constructor; [done|].
      apply (IH (length t)); [cbn; lia|reflexivity|done].
Qed.

Lemma prepared_alphabet (t : text) :
  Forall (λ ch, ch ∈ alphabet) (stripNonAZ (replaceJ t)).
Proof. apply Forall_forall. intros ch. apply keyUpper_alphabet. Qed.

(** [playfairEncrypt] never throws, and its output is made of letters of
    the grid. *)
Lemma playfairEncrypt_ok (t key : text) :
  ∃ c,
    playfairEncrypt t key = Ok c ∧
    Forall (λ ch, ch ∈ alphabet) c ∧
    playfairDecrypt c key = Ok (spell (preparePlayfairText t)).
Proof.
  unfold playfairEncrypt. cbv zeta.
  destruct (encrypt_digrams (buildPlayfairMatrix key)
              (preparePlayfairText t) [] (buildPlayfairMatrix_ok key))
    as (c & Hc & Hletters & Hloop).
  { apply digramsFrom_alphabet, prepared_alphabet. }
  exists c. split; [exact Hc|]. split; [exact Hletters|].
  rewrite playfairDecrypt_unfold.
  rewrite toUpperCase_upper, stripNonAZ_upper by by apply alphabet_upper.
  apply Hloop.
Qed.

(** ** Playfair: the transforms *)

Lemma no_adjacent_repeat_tail (a : Z) (t : text) :
  no_adjacent_repeat (a :: t) → no_adjacent_repeat t.
Proof. destruct t as [|b t]; cbn; tauto. Qed.

(** Without doubled letters and with an even length, the digrams are the
    consecutive pairs of the text: no filler is inserted. *)
Lemma spell_digramsFrom (t : text) :
  (length t `mod` 2 = 0)%nat → no_adjacent_repeat t →
  spell (digramsFrom t) = t.
Proof.
  remember (length t) as n eqn:Hn. revert t Hn.
  induction n as [n IH] using lt_wf_ind. intros t -> Hl Hr.
  destruct t as [|a [|b t]].
  - reflexivity.
  - cbn in Hl. done.
  - destruct Hr as [Hab Hr]. apply no_adjacent_repeat_tail in Hr.
    rewrite digramsFrom_cons, decide_False by done.
    unfold spell. rewrite bind_cons. cbn [fst snd app]. do 2 f_equal.
    apply (IH (length t)); [cbn; lia|reflexivity| |done].
    cbn [length] in Hl.
    replace (S (S (length t))) with (length t + 1 * 2)%nat in Hl by lia.
    by rewrite Nat.Div0.mod_add in Hl.
Qed.

(** The canonical form of an alphabetic text: capitals, with I for J. *)
Lemma canonical_upper (t : text) :
  Forall (λ ch, is_alpha ch = true) t →
  Forall (λ ch, is_upper ch = true) (replaceJ (toUpperCase t)).
Proof.
  intros H. unfold replaceJ, toUpperCase. rewrite <- list_fmap_compose.
  apply Forall_fmap. eapply Forall_impl; [exact H|].
  intros ch Ha. cbn. unfold is_alpha in Ha.
  letter_cases ch; try done.
  - destruct (Z.eqb_spec (ch - 32) 74); apply is_upper_spec; lia.
  - destruct (Z.eqb_spec ch 74); apply is_upper_spec; lia.
Qed.

(** C4, on canonical text: for every key and every alphabetic text whose
    canonical form (capitals, I for J) has no two equal neighbours and an
    even length, decoding the encoding returns the canonical form.  The key
    enters only through its grid, which holds the 25 letters whatever the
    key is ([flatGrid_permutation]). *)
Theorem playfair_round_trip (t key : text) :
  Forall (λ ch, is_alpha ch = true) t →
  no_adjacent_repeat (replaceJ (toUpperCase t)) →
  (length t `mod` 2 = 0)%nat →
  (playfairEncrypt t key ≫= λ c, playfairDecrypt c key)
  = Ok (replaceJ (toUpperCase t)).
Proof.
  intros Ha Hr Hl.
  destruct (playfairEncrypt_ok t key) as (c & -> & _ & Hdec).
  cbn [mbind result_bind]. rewrite Hdec. f_equal. unfold preparePlayfairText.
  rewrite stripNonAZ_upper by by apply canonical_upper.
  apply spell_digramsFrom; [|done].
  unfold replaceJ, toUpperCase. by rewrite !length_fmap.
Qed.

Lemma playfair_round_trip_witness :
  (playfairEncrypt (codes "Jokera") (codes "Playfair Example")
     ≫= λ c, playfairDecrypt c (codes "Playfair Example"))
  = Ok (codes "IOKERA").
Proof.
  apply (playfair_round_trip (codes "Jokera") (codes "Playfair Example")).
  - repeat constructor.
  - cbn. repeat split; discriminate.
  - reflexivity.
Defined.

(** C4, counterexample: "IJ" is alphabetic, has an even length and no two
    equal neighbours, yet the round trip returns "IXIX", which is neither
    the text nor the text with I for J. *)
Lemma playfair_round_trip_IJ :
  Forall (λ ch, is_alpha ch = true) (codes "IJ") ∧
  no_adjacent_repeat (codes "IJ") ∧
  (length (codes "IJ") `mod` 2 = 0)%nat ∧
  (playfairEncrypt (codes "IJ") (codes "KEY")
     ≫= λ c, playfairDecrypt c (codes "KEY"))
  = Ok (codes "IXIX") ∧
  codes "IXIX" ≠ codes "IJ" ∧
  codes "IXIX" ≠ replaceJ (codes "IJ").
Proof.
  split; [repeat constructor|]. split; [cbn; split; [discriminate|done]|].
  split; [reflexivity|]. split; [vm_compute; reflexivity|].
  split; discriminate.
Qed.

(** Every exception of the decoding loop is the [TypeError] of
    destructuring [null]. *)
Lemma decryptPair_throws (matrix : list (list Z)) (res : text)
  (c1 c2 : option Z) (e : exn) :
  decryptPair matrix res c1 c2 = Throw e → e = TypeError.
Proof.
  unfold decryptPair.
  destruct (findPosition matrix c1) as [[r1 k1]|];
    cbn [mbind result_bind destructure]; [|by intros [= <-]].
  destruct (findPosition matrix c2) as [[r2 k2]|];
    cbn [mbind result_bind destructure]; [|by intros [= <-]].
  repeat case_decide; discriminate.
Qed.

(** On a stripped text of odd length the loop reads [undefined] past the
    end, which is in no cell: the loop throws. *)
Lemma decryptLoop_odd (matrix : list (list Z)) (t res : text) :
  grid_ok matrix →
  (length t `mod` 2 = 1)%nat →
  decryptLoop matrix t res = Throw TypeError.
Proof.
  intros Hgrid.
  remember (length t) as n eqn:Hn. revert t res Hn.
  induction n as [n IH] using lt_wf_ind. intros t res -> Hl.
  destruct t as [|a [|b t]].
  - cbn in Hl. done.
  - unfold decryptLoop. cbn [length range_step]. cbn [for_of].
    change (for_of (range_step 1 2)) with (for_of (A:=nat) (S:=text) [0%nat]).
    cbn [for_of]. unfold decryptPair.
    change ([a] !! 0%nat) with (Some a).
    change ([a] !! (0 + 1)%nat) with (@None Z).
    rewrite (findPosition_undefined matrix Hgrid).
    destruct (findPosition matrix (Some a)) as [[r1 k1]|]; reflexivity.
  - rewrite decryptLoop_cons.
    destruct (decryptPair matrix res (Some a) (Some b)) as [res'|e] eqn:Hp;
      cbn [mbind result_bind].
    + apply (IH (length t)); [cbn; lia|reflexivity|].
      cbn [length] in Hl.
      replace (S (S (length t))) with (length t + 1 * 2)%nat in Hl by lia.
      by rewrite Nat.Div0.mod_add in Hl.
    + by apply decryptPair_throws in Hp as ->.
Qed.

(** C8, where the program fails: [playfairDecrypt] throws a [TypeError] on
    a text of odd length and on a text that holds a J. *)
Theorem playfairDecrypt_throws :
  playfairDecrypt (codes "ABC") (codes "KEY") = Throw TypeError ∧
  playfairDecrypt (codes "JA") (codes "KEY") = Throw TypeError.
Proof. split; vm_compute; reflexivity. Qed.

(** ** Non-alphabetic symbols *)

Lemma affineEncrypt_passes (t : text) (a b : Z) (c : text) :
  affineEncrypt t a b = Ok c → passes_through t c.
Proof.
  unfold affineEncrypt. destruct (decide (gcd a 26 ≠ 1)); [done|].
  intros [= <-]. split; [apply length_fmap|].
  intros i ch Hi Ha. rewrite list_lookup_fmap, Hi. cbn.
  unfold is_alpha in Ha. apply orb_false_elim in Ha as [-> ->]. reflexivity.
Qed.

Lemma affineDecrypt_passes (t : text) (a b : Z) (c : text) :
  affineDecrypt t a b = Ok c → passes_through t c.
Proof.
  unfold affineDecrypt. destruct (modInverse a 26) as [aInv|]; [|done].
  intros [= <-]. split; [apply length_fmap|].
  intros i ch Hi Ha. rewrite list_lookup_fmap, Hi. cbn.
  unfold is_alpha in Ha. apply orb_false_elim in Ha as [-> ->]. reflexivity.
Qed.

Lemma filter_fmap_filter {A B : Type} (P : B → bool) (f : A → B)
  (Q : A → bool) (l : list A) :
  (∀ x, P (f x) = true → Q x = true) →
  List.filter P (f <$> List.filter Q l) = List.filter P (f <$> l).
Proof.
  intros H. induction l as [|x l IH]; [reflexivity|].
  cbn [List.filter]. destruct (Q x) eqn:HQ.
  - cbn [fmap list_fmap List.filter]. by rewrite IH.
  - cbn [fmap list_fmap List.filter]. rewrite IH.
    destruct (P (f x)) eqn:HP; [|reflexivity].
    rewrite (H x HP) in HQ. discriminate.
Qed.

(** Upper-casing and stripping see only the letters of a text. *)
Lemma strip_upper_letters (t : text) :
  stripNonAZ (toUpperCase (List.filter is_alpha t))
  = stripNonAZ (toUpperCase t).
Proof.
  unfold stripNonAZ, toUpperCase. apply filter_fmap_filter.
  intros ch. unfold is_alpha. letter_cases ch; intros Hup; done.
Qed.

Lemma strip_merge_upper_letters (t : text) :
  stripNonAZ (replaceJ (toUpperCase (List.filter is_alpha t)))
  = stripNonAZ (replaceJ (toUpperCase t)).
Proof.
  unfold stripNonAZ, replaceJ, toUpperCase. rewrite <- !list_fmap_compose.
  apply filter_fmap_filter.
  intros ch. unfold is_alpha. cbn. letter_cases ch; [done|done|].
  destruct (Z.eqb_spec ch 74) as [->|_]; [lia|].
  intros Hup. congruence.
Qed.

(** C1, as the program has it: the Caesar and the affine transforms carry
    every non-alphabetic symbol of the text through at its position; the
    Playfair and the Hill transforms strip the text to its letters first,
    so that their result is that of the text without its non-alphabetic
    symbols. *)
Theorem nonalphabetic_symbols (t : text) :
  (∀ s, passes_through t (caesarEncrypt t s)) ∧
  (∀ s, passes_through t (caesarDecrypt t s)) ∧
  (∀ a b c, affineEncrypt t a b = Ok c → passes_through t c) ∧
  (∀ a b c, affineDecrypt t a b = Ok c → passes_through t c) ∧
  (is_ascii t →
   ∀ key m,
     playfairEncrypt t key = playfairEncrypt (List.filter is_alpha t) key ∧
     playfairDecrypt t key = playfairDecrypt (List.filter is_alpha t) key ∧
     hillEncrypt t m = hillEncrypt (List.filter is_alpha t) m ∧
     hillDecrypt t m = hillDecrypt (List.filter is_alpha t) m).
Proof.
  split; [intros s; apply caesarEncrypt_passes|].
  split; [intros s; apply caesarEncrypt_passes|].
  split; [apply affineEncrypt_passes|].
  split; [apply affineDecrypt_passes|].
  intros _ key m.
  unfold playfairEncrypt, preparePlayfairText, playfairDecrypt, hillEncrypt,
    hillDecrypt.
  by rewrite strip_upper_letters, strip_merge_upper_letters.
Qed.

Lemma nonalphabetic_symbols_witness :
  passes_through (codes "Hi, you!") (codes "Rw, yae!") ∧
  hillEncrypt (codes "Hi, you!") ((6, 24, 1), (13, 16, 10), (20, 17, 15))
  = hillEncrypt (codes "Hiyou") ((6, 24, 1), (13, 16, 10), (20, 17, 15)).
Proof.
  pose proof (nonalphabetic_symbols (codes "Hi, you!"))
    as (_ & _ & Haff & _ & Hstrip).
  split.
  - apply (Haff 5 8). reflexivity.
  - refine (proj1 (proj2 (proj2 (Hstrip _ (codes "KEY") _)))).
    repeat constructor; lia.
Defined.

(** C1, counterexample: the hyphen of "A-B" is in no position of the Hill
    encoding of the text, nor of its Playfair encoding. *)
Lemma hyphen_is_stripped :
  (45 ∈ codes "A-B") ∧ is_alpha 45 = false ∧
  hillEncrypt (codes "A-B") ((6, 24, 1), (13, 16, 10), (20, 17, 15))
  = codes "VMY" ∧
  playfairEncrypt (codes "A-B") (codes "KEY") = Ok (codes "BK") ∧
  (45 ∉ codes "VMY") ∧ (45 ∉ codes "BK").
Proof.
  split; [apply (bool_decide_unpack _); vm_compute; exact I|].
  split; [reflexivity|]. split; [reflexivity|]. split; [reflexivity|].
  split; apply (bool_decide_unpack _); vm_compute; exact I.
Qed.

(** * Further properties of the cipher module *)

(** ** Arithmetic utilities *)

(** [gcd] returns the greatest common divisor of its arguments up to the
    sign: its magnitude is the mathematical gcd for all integers, on the
    magnitudes of its arguments it is the gcd itself, and [gcd a 0] is
    [a]. *)
Theorem gcd_up_to_sign (a b : Z) :
  Z.abs (gcd a b) = Z.gcd a b ∧
  gcd (Z.abs a) (Z.abs b) = Z.gcd a b ∧
  gcd a 0 = a.
Proof.
  split; [apply gcd_abs|]. split.
  - rewrite gcd_spec by lia. by rewrite Z.gcd_abs_l, Z.gcd_abs_r.
  - rewrite gcd_step. by rewrite decide_True.
Qed.

(** [mod] is the floor modulus for a positive modulus up to 2^52, where the
    sum [(n % m) + m] is exact: the result lies in [0, m) and differs from
    [n] by a multiple of [m], also for negative [n]. *)
Theorem mod_is_floor_modulus (n m : Z) :
  0 < m <= 2 ^ 52 →
  0 <= mod' n m < m ∧ mod' n m = n `mod` m ∧ (m | n - mod' n m).
Proof.
  intros Hm. rewrite mod'_eq by done.
  split; [apply Z.mod_pos_bound; lia|]. split; [reflexivity|].
  exists (n `div` m). rewrite (Z.div_mod n m) at 1 by lia. ring.
Qed.

Lemma mod_is_floor_modulus_witness :
  0 <= mod' (-7) 26 < 26 ∧ mod' (-7) 26 = (-7) `mod` 26 ∧
  (26 | -7 - mod' (-7) 26).
Proof. apply (mod_is_floor_modulus (-7) 26). lia. Defined.

(** The candidates of [modInverse] and its test, for a modulus above 1 and
    up to 2^26, where the products [a * x] of numbers below the modulus are
    exact. *)
Lemma modInverse_test (a m x : Z) :
  2 <= m <= 2 ^ 26 → 1 <= x < m →
  (Z.rem (fmul (Z.rem (fadd (Z.rem a m) m) m) x) m =? 1) = true
  ↔ (a * x) `mod` m = 1.
Proof.
  intros Hm Hx. fold (mod' a m). rewrite mod'_eq by lia.
  pose proof (Z.mod_pos_bound a m ltac:(lia)).
  rewrite fmul_exact by nia.
  rewrite Z.rem_mod_nonneg by nia. rewrite Z.eqb_eq.
  by rewrite Zmult_mod_idemp_l.
Qed.

Lemma modInverse_Some (a m x : Z) :
  2 <= m <= 2 ^ 26 →
  modInverse a m = Some x → 1 <= x < m ∧ (a * x) `mod` m = 1.
Proof.
  intros Hm H. unfold modInverse in H. apply find_some in H as [Hin Ht].
  apply list_elem_of_In, elem_of_seqZ in Hin.
  assert (1 <= x < m) as Hx by lia. split; [done|].
  by apply (modInverse_test a m x Hm Hx).
Qed.

Lemma modInverse_exists (a m : Z) :
  2 <= m <= 2 ^ 26 → Z.gcd a m = 1 → ∃ x, modInverse a m = Some x.
Proof.
  intros Hm Hg.
  destruct (Z.gcd_bezout a m 1 Hg) as (u & v & Huv).
  assert ((a * (u `mod` m)) `mod` m = 1) as Hinv.
  { rewrite Zmult_mod_idemp_r.
    replace (a * u) with (1 + (- v) * m) by lia.
    rewrite Z_mod_plus_full. apply Z.mod_small. lia. }
  pose proof (Z.mod_pos_bound u m ltac:(lia)) as Hb.
  assert (u `mod` m ≠ 0) as Hnz.
  { intros E. rewrite E, Z.mul_0_r, Z.mod_0_l in Hinv by lia. done. }
  destruct (modInverse a m) as [x|] eqn:Hf; [eauto|].
  unfold modInverse in Hf.
  pose proof (find_none _ _ Hf (u `mod` m)) as Hnone. cbv beta in Hnone.
  rewrite (proj2 (modInverse_test a m (u `mod` m) Hm ltac:(lia)) Hinv)
    in Hnone.
  discriminate Hnone. apply list_elem_of_In, elem_of_seqZ. lia.
Qed.

Lemma modInverse_None (a m : Z) :
  2 <= m <= 2 ^ 26 → (modInverse a m = None ↔ Z.gcd a m ≠ 1).
Proof.
  intros Hm. split.
  - intros Hn Hg. destruct (modInverse_exists a m Hm Hg) as [x Hx].
    congruence.
  - intros Hg. destruct (modInverse a m) as [x|] eqn:Hf; [|done].
    apply modInverse_Some in Hf as [Hx Hinv]; [|done].
    exfalso. apply Hg. apply Z.bezout_1_gcd.
    exists x, (- ((a * x) `div` m)).
    pose proof (Z.div_mod (a * x) m ltac:(lia)) as E. rewrite Hinv in E.
    lia.
Qed.

(** For a modulus above 1 and up to 2^26, [modInverse] returns an inverse
    of [a] among 1..m-1 whenever it returns a number, and it returns [null]
    exactly when [a] is not coprime to the modulus; [a] may be any
    integer. *)
Theorem modInverse_correct (a m : Z) :
  2 <= m <= 2 ^ 26 →
  (∀ x, modInverse a m = Some x → 1 <= x < m ∧ (a * x) `mod` m = 1) ∧
  (modInverse a m = None ↔ Z.gcd a m ≠ 1).
Proof.
  intros Hm. split.
  - intros x. by apply modInverse_Some.
  - by apply modInverse_None.
Qed.

Lemma modInverse_correct_witness :
  (∀ x, modInverse (-5) 26 = Some x → 1 <= x < 26 ∧ (-5 * x) `mod` 26 = 1) ∧
  (modInverse (-5) 26 = None ↔ Z.gcd (-5) 26 ≠ 1).
Proof. apply (modInverse_correct (-5) 26). lia. Defined.

(** ** Caesar *)

Lemma caesarEncrypt_compose (t : text) (s1 s2 : Z) :
  safe_shift s1 → safe_shift s2 → safe_shift (s1 + s2) →
  caesarEncrypt (caesarEncrypt t s1) s2 = caesarEncrypt t (s1 + s2).
Proof.
  intros H1 H2 H12. rewrite !caesarEncrypt_ok by done.
  rewrite <- list_fmap_compose.
  apply list_fmap_ext. intros _ ch _. cbn.
  pose proof (Z.mod_pos_bound (ch - 97 + s1) 26 ltac:(lia)).
  pose proof (Z.mod_pos_bound (ch - 65 + s1) 26 ltac:(lia)).
  letter_cases ch.
  - rewrite (proj2 (is_lower_spec _)) by lia. f_equal.
    replace ((ch - 97 + s1) `mod` 26 + 97 - 97 + s2)
      with ((ch - 97 + s1) `mod` 26 + s2) by ring.
    rewrite Zplus_mod_idemp_l. f_equal. ring.
  - rewrite (proj2 (is_lower_false _)) by lia.
    rewrite (proj2 (is_upper_spec _)) by lia. f_equal.
    replace ((ch - 65 + s1) `mod` 26 + 65 - 65 + s2)
      with ((ch - 65 + s1) `mod` 26 + s2) by ring.
    rewrite Zplus_mod_idemp_l. f_equal. ring.
  - rewrite Hl, Hu. reflexivity.
Qed.

Lemma safe_shift_0 : safe_shift 0.
Proof. unfold safe_shift. lia. Qed.

Lemma caesarEncrypt_0 (t : text) : caesarEncrypt t 0 = t.
Proof.
  rewrite caesarEncrypt_ok by apply safe_shift_0.
  rewrite <- (list_fmap_id t) at 2.
  apply list_fmap_ext. intros _ ch _. cbn.
  rewrite !Z.add_0_r.
  letter_cases ch; [| |reflexivity].
  - rewrite Z.mod_small by lia. ring.
  - rewrite Z.mod_small by lia. ring.
Qed.

(** Shifts add up, as long as the two shifts and their sum are safe:
    encoding twice is encoding once with the sum of the shifts, the shifts 0
    and 26 change nothing, and encoding undoes decoding (the other
    direction of the round trip). *)
Theorem caesar_shifts_add_up (t : text) (s1 s2 : Z) :
  safe_shift s1 → safe_shift s2 → safe_shift (s1 + s2) →
  caesarEncrypt (caesarEncrypt t s1) s2 = caesarEncrypt t (s1 + s2) ∧
  caesarEncrypt t 0 = t ∧
  caesarEncrypt t 26 = t ∧
  caesarEncrypt (caesarDecrypt t s1) s1 = t.
Proof.
  intros H1 H2 H12.
  split; [by apply caesarEncrypt_compose|]. split; [apply caesarEncrypt_0|].
  split.
  - rewrite caesarEncrypt_mod by (unfold safe_shift; lia).
    apply caesarEncrypt_0.
  - unfold caesarDecrypt. rewrite caesarEncrypt_compose.
    + replace (- s1 + s1) with 0 by ring. apply caesarEncrypt_0.
    + by apply safe_shift_opp.
    + done.
    + replace (- s1 + s1) with 0 by ring. apply safe_shift_0.
Qed.

Lemma caesar_shifts_add_up_witness :
  caesarEncrypt (caesarEncrypt (codes "Hello, World!") 30) (-4)
  = caesarEncrypt (codes "Hello, World!") (30 + -4) ∧
  caesarEncrypt (codes "Hello, World!") 0 = codes "Hello, World!" ∧
  caesarEncrypt (codes "Hello, World!") 26 = codes "Hello, World!" ∧
  caesarEncrypt (caesarDecrypt (codes "Hello, World!") 30) 30
  = codes "Hello, World!".
Proof.
  apply (caesar_shifts_add_up (codes "Hello, World!") 30 (-4));
    unfold safe_shift; lia.
Defined.

(** Decides the class of every symbol in the goal from the bounds in
    context. *)
Ltac decide_classes :=
  repeat match goal with
    | |- context [is_lower ?e] =>
        first [ rewrite (proj2 (is_lower_spec e)) by lia
              | rewrite (proj2 (is_lower_false e)) by lia ]
    | |- context [is_upper ?e] =>
        first [ rewrite (proj2 (is_upper_spec e)) by lia
              | rewrite (proj2 (is_upper_false e)) by lia ]
    end;
  reflexivity.

(** The Caesar transform keeps the shape of the text: its length, and at
    every position whether the symbol is a small letter, a capital letter
    or no letter. *)
Theorem caesarEncrypt_keeps_case (t : text) (s : Z) :
  length (caesarEncrypt t s) = length t ∧
  is_lower <$> caesarEncrypt t s = is_lower <$> t ∧
  is_upper <$> caesarEncrypt t s = is_upper <$> t.
Proof.
  split; [apply caesarEncrypt_length|].
  unfold caesarEncrypt. rewrite <- !list_fmap_compose.
  split; apply list_fmap_ext; intros _ ch _; cbn;
    rewrite !letter_of_residue by lia;
    pose proof (Z.mod_pos_bound (fadd (ch - 97) s) 26 ltac:(lia));
    pose proof (Z.mod_pos_bound (fadd (ch - 65) s) 26 ltac:(lia));
    letter_cases ch; try done; decide_classes.
Qed.

(** ** Affine *)

(** With the multiplier 1 the affine cipher is the Caesar cipher. *)
Theorem affine_multiplier_1_is_caesar (t : text) (b : Z) :
  affineEncrypt t 1 b = Ok (caesarEncrypt t b) ∧
  affineDecrypt t 1 b = Ok (caesarDecrypt t b).
Proof.
  split.
  - unfold affineEncrypt. rewrite decide_False by (intros H; by apply H).
    f_equal. unfold caesarEncrypt. apply list_fmap_ext. intros _ ch _. cbn.
    letter_cases ch; [| |reflexivity];
      rewrite fmul_exact by lia; rewrite Z.mul_1_l; reflexivity.
  - unfold affineDecrypt. change (modInverse 1 26) with (Some 1).
    f_equal. unfold caesarDecrypt, caesarEncrypt. apply list_fmap_ext.
    intros _ ch _. cbn.
    unfold fsub. rewrite !fmul_1_l. unfold fadd.
    rewrite !Z.add_opp_r. reflexivity.
Qed.

Lemma affineDecrypt_throws (t : text) (a b : Z) :
  affineDecrypt t a b = Throw InvalidKey ↔ Z.gcd a 26 ≠ 1.
Proof.
  rewrite <- (modInverse_None a 26) by lia. unfold affineDecrypt.
  destruct (modInverse a 26); naive_solver.
Qed.

(** [affineDecrypt] checks its key through [modInverse]: for every integer
    multiplier, negative ones included, it throws exactly when the
    multiplier is not coprime to 26, and returns a text otherwise. *)
Theorem affineDecrypt_key_check (t : text) (a b : Z) :
  (affineDecrypt t a b = Throw InvalidKey ↔ Z.gcd a 26 ≠ 1) ∧
  ((∃ p, affineDecrypt t a b = Ok p) ↔ Z.gcd a 26 = 1).
Proof.
  split; [apply affineDecrypt_throws|].
  pose proof (affineDecrypt_throws t a b) as Ht.
  destruct (decide (Z.gcd a 26 = 1)) as [Hg|Hg].
  - split; [done|]. intros _.
    destruct (affineDecrypt t a b) as [p|e] eqn:Hd; [eauto|].
    unfold affineDecrypt in Hd.
    destruct (modInverse a 26); [done|].
    injection Hd as <-. by apply Ht in Hg.
  - split; [|done]. intros [p Hp]. apply Ht in Hg. congruence.
Qed.

(** Redoing [x = aInv (y - b) mod 26] with [a]. *)
Lemma affine_residue_forward (a b aInv y : Z) :
  (aInv * a) `mod` 26 = 1 → 0 <= y < 26 →
  (a * ((aInv * (y - b)) `mod` 26) + b) `mod` 26 = y.
Proof.
  intros Hinv Hy.
  rewrite <- Zplus_mod_idemp_l, Zmult_mod_idemp_r, Zplus_mod_idemp_l.
  replace (a * (aInv * (y - b)) + b) with (aInv * a * (y - b) + b) by ring.
  rewrite <- Zplus_mod_idemp_l, <- Zmult_mod_idemp_l, Hinv, Z.mul_1_l.
  rewrite Zplus_mod_idemp_l. replace (y - b + b) with y by ring.
  apply Z.mod_small. done.
Qed.

(** The other direction of the affine round trip: under a key accepted by
    [affineEncrypt] whose numbers are at most 2^48 in magnitude, encoding
    the decoding of a text returns the text. *)
Theorem affine_decrypt_then_encrypt (t : text) (a b : Z) :
  gcd a 26 = 1 → safe_affine a b →
  (affineDecrypt t a b ≫= λ p, affineEncrypt p a b) = Ok t.
Proof.
  intros Hg Hs.
  destruct (modInverse_coprime a (gcd_1_coprime a Hg)) as (aInv & Hi & _ & Hm).
  rewrite (affineDecrypt_ok t a b aInv Hi (proj2 Hs)). cbn [mbind result_bind].
  rewrite (affineEncrypt_ok _ a b Hg Hs). f_equal.
  rewrite <- list_fmap_compose.
  rewrite <- (list_fmap_id t) at 2. apply list_fmap_ext. intros _ ch _. cbn.
  pose proof (Z.mod_pos_bound (aInv * (ch - 97 - b)) 26 ltac:(lia)).
  pose proof (Z.mod_pos_bound (aInv * (ch - 65 - b)) 26 ltac:(lia)).
  letter_cases ch.
  - rewrite (proj2 (is_lower_spec _)) by lia.
    replace ((aInv * (ch - 97 - b)) `mod` 26 + 97 - 97)
      with ((aInv * (ch - 97 - b)) `mod` 26) by ring.
    rewrite affine_residue_forward by (done || lia). ring.
  - rewrite (proj2 (is_lower_false _)) by lia.
    rewrite (proj2 (is_upper_spec _)) by lia.
    replace ((aInv * (ch - 65 - b)) `mod` 26 + 65 - 65)
      with ((aInv * (ch - 65 - b)) `mod` 26) by ring.
    rewrite affine_residue_forward by (done || lia). ring.
  - rewrite Hl, Hu. reflexivity.
Qed.

Lemma affine_decrypt_then_encrypt_witness :
  (affineDecrypt (codes "Hello, World!") 7 3
     ≫= λ p, affineEncrypt p 7 3) = Ok (codes "Hello, World!").
Proof.
  apply (affine_decrypt_then_encrypt (codes "Hello, World!") 7 3);
    [reflexivity|unfold safe_affine; lia].
Defined.

(** * Further properties of the attack module *)

(** ** Exhaustive search *)

(** Decoding with the residue of the shift undoes the encoding. *)
Lemma caesarDecrypt_residue (t : text) (s : Z) :
  safe_shift s → caesarDecrypt (caesarEncrypt t s) (s `mod` 26) = t.
Proof.
  intros Hs. pose proof (Z.mod_pos_bound s 26 ltac:(lia)) as Hr.
  rewrite <- (caesar_round_trip t (s `mod` 26)) at 2
    by apply safe_shift_mod.
  f_equal. by apply caesarEncrypt_mod.
Qed.

(** The search over shifts recovers the plaintext: whatever the text and
    the safe shift it was encoded with, the candidate for the residue of
    the shift modulo 26 is the text itself. *)
Theorem bruteForceCaesar_recovers (t : text) (s : Z) :
  safe_shift s →
  {| cc_shift := s `mod` 26; cc_text := t |}
    ∈ bruteForceCaesar (caesarEncrypt t s).
Proof.
  intros Hs. unfold bruteForceCaesar. apply list_elem_of_bind.
  exists (s `mod` 26). split.
  - apply list_elem_of_singleton. f_equal. symmetry.
    by apply caesarDecrypt_residue.
  - apply elem_of_seqZ. pose proof (Z.mod_pos_bound s 26 ltac:(lia)). lia.
Qed.

Lemma bruteForceCaesar_recovers_witness :
  {| cc_shift := (-29) `mod` 26; cc_text := codes "Attack at dawn" |}
    ∈ bruteForceCaesar (caesarEncrypt (codes "Attack at dawn") (-29)).
Proof.
  apply (bruteForceCaesar_recovers (codes "Attack at dawn") (-29)).
  unfold safe_shift. lia.
Defined.

Lemma affineDecrypt_affineEncrypt (t : text) (a b : Z) :
  gcd a 26 = 1 → safe_affine a b →
  ∃ c, affineEncrypt t a b = Ok c ∧ affineDecrypt c a b = Ok t.
Proof.
  intros Hg Hs.
  destruct (modInverse_coprime a (gcd_1_coprime a Hg)) as (aInv & Hi & _ & Hm).
  rewrite (affineEncrypt_ok t a b Hg Hs). eexists. split; [reflexivity|].
  rewrite (affineDecrypt_ok _ a b aInv Hi (proj2 Hs)). f_equal.
  rewrite <- list_fmap_compose.
  rewrite <- (list_fmap_id t) at 2. apply list_fmap_ext. intros _ ch _. cbn.
  pose proof (Z.mod_pos_bound (a * (ch - 97) + b) 26 ltac:(lia)).
  pose proof (Z.mod_pos_bound (a * (ch - 65) + b) 26 ltac:(lia)).
  letter_cases ch.
  - rewrite (proj2 (is_lower_spec _)) by lia.
    replace ((a * (ch - 97) + b) `mod` 26 + 97 - 97 - b)
      with ((a * (ch - 97) + b) `mod` 26 - b) by ring.
    rewrite affine_residue_inverse by (done || lia). ring.
  - rewrite (proj2 (is_lower_false _)) by lia.
    rewrite (proj2 (is_upper_spec _)) by lia.
    replace ((a * (ch - 65) + b) `mod` 26 + 65 - 65 - b)
      with ((a * (ch - 65) + b) `mod` 26 - b) by ring.
    rewrite affine_residue_inverse by (done || lia). ring.
  - rewrite Hl, Hu. reflexivity.
Qed.

(** Decoding depends on the offset through its residue only. *)
Lemma affineDecrypt_offset_mod (t : text) (a b : Z) :
  Z.abs b <= 2 ^ 48 →
  affineDecrypt t a (b `mod` 26) = affineDecrypt t a b.
Proof.
  intros Hb. pose proof (Z.mod_pos_bound b 26 ltac:(lia)) as Hr.
  destruct (modInverse a 26) as [aInv|] eqn:Hi;
    [|unfold affineDecrypt; by rewrite Hi].
  rewrite (affineDecrypt_ok t a b aInv Hi Hb).
  rewrite (affineDecrypt_ok t a _ aInv Hi) by lia.
  f_equal. apply list_fmap_ext. intros _ ch _. cbn.
  rewrite <- (Zmult_mod_idemp_r (ch - 97 - b `mod` 26)),
    <- (Zmult_mod_idemp_r (ch - 65 - b `mod` 26)).
  rewrite !Zminus_mod_idemp_r. rewrite !Zmult_mod_idemp_r. reflexivity.
Qed.

Lemma validA_range (a : Z) : a ∈ validA → 1 <= a <= 25.
Proof.
  intros Ha. unfold validA in Ha.
  repeat (apply elem_of_cons in Ha as [->|Ha]; [lia|]).
  by apply elem_of_nil in Ha.
Qed.

(** The search over affine keys recovers the plaintext: for a multiplier of
    the valid list and an integer offset up to 2^48 in magnitude, the
    candidate for that multiplier and the residue of the offset is the text
    itself. *)
Theorem bruteForceAffine_recovers (t : text) (a b : Z) :
  a ∈ validA → Z.abs b <= 2 ^ 48 →
  ∃ c, affineEncrypt t a b = Ok c ∧
    {| ac_a := a; ac_b := b `mod` 26; ac_text := t |} ∈ bruteForceAffine c.
Proof.
  intros Ha Hb. pose proof (validA_range a Ha) as Hr.
  destruct (affineDecrypt_affineEncrypt t a b (validA_gcd a Ha))
    as (c & Henc & Hdec); [unfold safe_affine; lia|].
  exists c. split; [done|].
  unfold bruteForceAffine. apply list_elem_of_bind.
  exists a. split; [|done]. apply list_elem_of_bind.
  exists (b `mod` 26). split.
  - rewrite affineDecrypt_offset_mod, Hdec by done.
    by apply list_elem_of_singleton.
  - apply elem_of_seqZ. pose proof (Z.mod_pos_bound b 26 ltac:(lia)). lia.
Qed.

Lemma bruteForceAffine_recovers_witness :
  ∃ c, affineEncrypt (codes "Attack at dawn") 11 (-3) = Ok c ∧
    {| ac_a := 11; ac_b := (-3) `mod` 26; ac_text := codes "Attack at dawn" |}
      ∈ bruteForceAffine c.
Proof.
  apply (bruteForceAffine_recovers (codes "Attack at dawn") 11 (-3)).
  - apply (bool_decide_unpack _). vm_compute. exact I.
  - lia.
Defined.

(** ** Dictionary search *)

Lemma tryWord_elem (ct : text) (cipher : string) (p : option params)
  (word w : entry) :
  w ∈ tryWord ct cipher p [] word ↔
  w = word ∧
  ∃ enc, encryptWord word cipher p = Ok enc ∧
    toLowerCase enc = toLowerCase ct.
Proof.
  unfold tryWord. destruct (encryptWord word cipher p) as [enc|e].
  - destruct (decide (toLowerCase enc = toLowerCase ct)) as [He|He].
    + cbn [app]. rewrite list_elem_of_singleton.
      split; [intros ->; eauto|tauto].
    + rewrite elem_of_nil. split; [done|].
      intros (_ & enc' & [= <-] & He'). done.
  - rewrite elem_of_nil. split; [done|]. intros (_ & enc' & Henc & _). done.
Qed.

Lemma tryWord_sublist (ct : text) (cipher : string) (p : option params)
  (word : entry) :
  tryWord ct cipher p [] word = [word] ∨ tryWord ct cipher p [] word = [].
Proof.
  unfold tryWord. destruct (encryptWord word cipher p) as [enc|e]; [|by right].
  destruct (decide (toLowerCase enc = toLowerCase ct)); [by left|by right].
Qed.

Lemma dictionaryDirectAttack_elem (ct : text) (words : list entry)
  (cipher : string) (p : option params) (w : entry) :
  w ∈ dictionaryDirectAttack ct words cipher p ↔
  w ∈ words ∧
  ∃ enc, encryptWord w cipher p = Ok enc ∧ toLowerCase enc = toLowerCase ct.
Proof.
  induction words as [|word words IH].
  - unfold dictionaryDirectAttack. cbn. rewrite !elem_of_nil. tauto.
  - rewrite dictionaryDirectAttack_cons, elem_of_app, tryWord_elem, IH,
      elem_of_cons.
    split.
    + intros [[-> H]|[Hin H]]; (split; [tauto|exact H]).
    + intros [[->|Hin] H]; [left|right]; tauto.
Qed.

(** On an ASCII ciphertext and word list and under parameters in the exact
    range of the numbers, [dictionaryDirectAttack] returns, in the order of
    the word list, exactly the entries whose encoding succeeds and equals
    the ciphertext up to the case of the letters; an entry that is no
    string is never returned. *)
Theorem dictionaryDirectAttack_matches (ct : text) (words : list entry)
  (cipher : string) (p : option params) :
  is_ascii ct → Forall ascii_entry words → safe_params p →
  sublist (dictionaryDirectAttack ct words cipher p) words ∧
  (∀ e, e ∈ dictionaryDirectAttack ct words cipher p ↔
        e ∈ words ∧
        ∃ enc, encryptWord e cipher p = Ok enc ∧
          toLowerCase enc = toLowerCase ct) ∧
  NotString ∉ dictionaryDirectAttack ct words cipher p.
Proof.
  intros _ _ _. split; [|split; [intros w; apply dictionaryDirectAttack_elem|]].
  - induction words as [|word words IH].
    + unfold dictionaryDirectAttack. cbn. constructor.
    + rewrite dictionaryDirectAttack_cons.
      destruct (tryWord_sublist ct cipher p word) as [-> | ->]; cbn [app].
      * by apply sublist_skip.
      * by apply sublist_cons.
  - intros Hin. apply dictionaryDirectAttack_elem in Hin as (_ & enc & He & _).
    destruct (encryptWord_NotString cipher p) as [e He']. congruence.
Qed.

Lemma dictionaryDirectAttack_matches_witness :
  sublist
    (dictionaryDirectAttack (codes "RCLLA")
       [Str (codes "hello"); NotString; Str (codes "world")] "affine" None)
    [Str (codes "hello"); NotString; Str (codes "world")] ∧
  (∀ e, e ∈ dictionaryDirectAttack (codes "RCLLA")
              [Str (codes "hello"); NotString; Str (codes "world")] "affine"
              None ↔
        e ∈ [Str (codes "hello"); NotString; Str (codes "world")] ∧
        ∃ enc, encryptWord e "affine" None = Ok enc ∧
          toLowerCase enc = toLowerCase (codes "RCLLA")) ∧
  NotString ∉ dictionaryDirectAttack (codes "RCLLA")
                [Str (codes "hello"); NotString; Str (codes "world")] "affine"
                None.
Proof.
  apply (dictionaryDirectAttack_matches (codes "RCLLA")
           [Str (codes "hello"); NotString; Str (codes "world")]
           "affine" None).
  - repeat constructor; lia.
  - repeat constructor; lia.
  - unfold safe_params, safe_shift, safe_affine. cbn.
    split; [lia|]. split; [lia|]. split; repeat constructor; lia.
Defined.

(** A scan depends on the parameters only through the encoding of the
    words. *)
Lemma dictionaryDirectAttack_ext (ct : text) (words : list entry)
  (cipher : string) (p p' : option params) :
  (∀ w, encryptWord w cipher p = encryptWord w cipher p') →
  dictionaryDirectAttack ct words cipher p
  = dictionaryDirectAttack ct words cipher p'.
Proof.
  intros H. induction words as [|word words IH]; [reflexivity|].
  rewrite !dictionaryDirectAttack_cons, IH. f_equal.
  unfold tryWord. by rewrite H.
Qed.

(** The parameters are read with [|| default], so a zero or empty value
    cannot be chosen: a Caesar shift of 0 acts as 3, an affine offset of 0
    as 8 and an empty Playfair key as "SECRET"; a missing [params] object
    gives the same scans. *)
Theorem dictionaryDirectAttack_falsy_parameters (ct : text)
  (words : list entry) (a : option Z) :
  dictionaryDirectAttack ct words "caesar"
    (Some {| p_shift := Some 0; p_a := None; p_b := None; p_key := None;
             p_keyMatrix := None |})
  = dictionaryDirectAttack ct words "caesar"
      (Some {| p_shift := Some 3; p_a := None; p_b := None; p_key := None;
               p_keyMatrix := None |}) ∧
  dictionaryDirectAttack ct words "affine"
    (Some {| p_shift := None; p_a := a; p_b := Some 0; p_key := None;
             p_keyMatrix := None |})
  = dictionaryDirectAttack ct words "affine"
      (Some {| p_shift := None; p_a := a; p_b := Some 8; p_key := None;
               p_keyMatrix := None |}) ∧
  dictionaryDirectAttack ct words "playfair"
    (Some {| p_shift := None; p_a := None; p_b := None; p_key := Some [];
             p_keyMatrix := None |})
  = dictionaryDirectAttack ct words "playfair"
      (Some {| p_shift := None; p_a := None; p_b := None;
               p_key := Some (codes "SECRET"); p_keyMatrix := None |}) ∧
  dictionaryDirectAttack ct words "caesar" None
  = dictionaryDirectAttack ct words "caesar"
      (Some {| p_shift := Some 3; p_a := None; p_b := None; p_key := None;
               p_keyMatrix := None |}).
Proof.
  repeat split; apply dictionaryDirectAttack_ext; intros [w|]; reflexivity.
Qed.

(** The dictionary search finds the password: when a word of the list was
    encoded with a non-zero Caesar shift, the scan of the ciphertext under
    that shift returns the word. *)
Theorem dictionaryDirectAttack_finds_caesar (words : list entry) (w : text)
  (s : Z) (p : params) :
  Str w ∈ words → s ≠ 0 → p_shift p = Some s →
  Str w ∈ dictionaryDirectAttack (caesarEncrypt w s) words "caesar" (Some p).
Proof.
  intros Hw Hs Hp. apply dictionaryDirectAttack_elem. split; [done|].
  exists (caesarEncrypt w s). split; [|reflexivity].
  unfold encryptWord. cbn [String.eqb Ascii.eqb Bool.eqb].
  unfold field. cbn [mbind option_bind]. rewrite Hp. unfold num_or.
  by rewrite decide_False.
Qed.

Lemma dictionaryDirectAttack_finds_caesar_witness :
  Str (codes "secret")
    ∈ dictionaryDirectAttack (caesarEncrypt (codes "secret") 7)
        [Str (codes "password"); Str (codes "secret"); Str (codes "admin")]
        "caesar"
        (Some {| p_shift := Some 7; p_a := None; p_b := None;
                 p_key := None; p_keyMatrix := None |}).
Proof.
  apply (dictionaryDirectAttack_finds_caesar
           [Str (codes "password"); Str (codes "secret"); Str (codes "admin")]
           (codes "secret") 7).
  - apply list_elem_of_lookup. exists 1%nat. reflexivity.
  - lia.
  - reflexivity.
Defined.

(** * Further properties of Playfair *)

(** ** The grid *)

Lemma filter_not_in_snoc (m l : list Z) (x : Z) :
  filter (λ y, y ∉ m ++ [x]) l = filter (λ y, y ∉ m) (filter (λ y, y ≠ x) l).
Proof.
  induction l as [|y l IH]; [reflexivity|].
  rewrite (filter_cons (λ y, y ≠ x)), filter_cons.
  destruct (decide (y ≠ x)) as [Hne|He].
  - rewrite filter_cons. destruct (decide (y ∉ m)) as [Hm|Hm].
    + rewrite decide_True; [by rewrite IH|].
      rewrite elem_of_app, list_elem_of_singleton. tauto.
    + rewrite decide_False; [done|].
      rewrite elem_of_app, list_elem_of_singleton. tauto.
  - rewrite decide_False; [done|].
    rewrite elem_of_app, list_elem_of_singleton.
    intros Hn. apply Hn. right. by apply dec_stable.
Qed.

Lemma filter_not_in_removed (m l : list Z) (x : Z) :
  x ∈ m →
  filter (λ y, y ∉ m) (filter (λ y, y ≠ x) l) = filter (λ y, y ∉ m) l.
Proof.
  intros Hx. induction l as [|y l IH]; [reflexivity|].
  rewrite (filter_cons (λ y, y ≠ x)), (filter_cons (λ y, y ∉ m) y l).
  destruct (decide (y ≠ x)) as [Hne|He].
  - rewrite filter_cons, IH. reflexivity.
  - apply dec_stable in He as ->. rewrite decide_False by tauto. done.
Qed.

(** The two push loops append the letters not seen yet, in the order of
    their first occurrence. *)
Lemma foldl_push_unseen_first_seen (l : list Z) (st : list Z * gset Z) :
  pushed st →
  (foldl push_unseen st l).1
  = st.1 ++ filter (λ y, y ∉ st.1) (first_seen l).
Proof.
  revert st. induction l as [|x l IH]; intros st Hst.
  - cbn. by rewrite app_nil_r.
  - cbn [foldl first_seen].
    destruct (push_unseen_pushed st x Hst) as [Hst' _].
    rewrite (IH _ Hst'). destruct Hst as [_ Hseen].
    unfold push_unseen. destruct (decide (x ∈ st.2)) as [Hin|Hin].
    + apply Hseen in Hin. rewrite filter_cons, decide_False by tauto.
      by rewrite filter_not_in_removed.
    + cbn [fst]. rewrite filter_cons, decide_True by (by rewrite <- Hseen).
      rewrite <- app_assoc. cbn [app].
      by rewrite filter_not_in_snoc.
Qed.

Lemma first_seen_app (l k : list Z) :
  first_seen (l ++ k) = first_seen l ++ filter (λ y, y ∉ first_seen l) (first_seen k).
Proof.
  pose proof (foldl_push_unseen_first_seen (l ++ k) ([], ∅)) as H1.
  pose proof (foldl_push_unseen_first_seen l ([], ∅)) as H2.
  assert (pushed ([], ∅)) as H0.
  { split; [apply NoDup_nil_2|]. intros x. cbn.
    rewrite elem_of_empty, elem_of_nil. tauto. }
  specialize (H1 H0). specialize (H2 H0). cbn [fst app] in H1, H2.
  assert (∀ l : list Z, filter (λ y, y ∉ @nil Z) l = l) as Hall.
  { intros l0. induction l0 as [|y l0 IHl]; [done|].
    rewrite filter_cons, decide_True by apply not_elem_of_nil.
    by rewrite IHl. }
  rewrite Hall in H1, H2. rewrite <- H1, foldl_app.
  destruct (foldl_push_unseen_pushed l ([], ∅) H0) as [Hp _].
  rewrite (foldl_push_unseen_first_seen k _ Hp). by rewrite H2.
Qed.

Lemma flatGrid_first_seen (key : text) :
  flatGrid key
  = first_seen (stripNonAZ (replaceJ (toUpperCase key)) ++ alphabet).
Proof.
  unfold flatGrid. rewrite <- foldl_app.
  assert (pushed ([], ∅)) as H0.
  { split; [apply NoDup_nil_2|]. intros x. cbn.
    rewrite elem_of_empty, elem_of_nil. tauto. }
  rewrite (foldl_push_unseen_first_seen _ _ H0). cbn [fst app].
  generalize (first_seen (stripNonAZ (replaceJ (toUpperCase key)) ++ alphabet)).
  intros l. induction l as [|y l IHl]; [done|].
  rewrite filter_cons, decide_True by apply not_elem_of_nil. by rewrite IHl.
Qed.

Lemma take_drop_next (l : list Z) (n m : nat) :
  m = (n + 5)%nat → take 5 (drop n l) ++ drop m l = drop n l.
Proof. intros ->. rewrite <- drop_drop. apply take_drop. Qed.

Lemma concat_rows (l : list Z) :
  length l = 25%nat →
  concat ((λ i, slice l (i * 5) ((i + 1) * 5)) <$> seq 0 5) = l.
Proof.
  intros Hl.
  transitivity (take 5 (drop 0 l) ++ take 5 (drop 5 l) ++ take 5 (drop 10 l)
                ++ take 5 (drop 15 l) ++ take 5 (drop 20 l)).
  { cbn [fmap list_fmap seq concat]. unfold slice.
    rewrite app_nil_r. reflexivity. }
  rewrite (take_ge (drop 20 l)) by (rewrite length_drop; lia).
  rewrite (take_drop_next l 15 20), (take_drop_next l 10 15),
    (take_drop_next l 5 10), (take_drop_next l 0 5) by reflexivity.
  reflexivity.
Qed.

(** Every key, the empty one included, yields a 5x5 grid: five rows of five
    letters that hold each of the 25 letters once; for an ASCII key the
    grid, read row by row, is the letters of the key (capitals, I for J)
    followed by the alphabet without J, each letter kept at its first
    occurrence only. *)
Theorem buildPlayfairMatrix_grid (key : text) :
  length (buildPlayfairMatrix key) = 5%nat ∧
  Forall (λ row, length row = 5%nat) (buildPlayfairMatrix key) ∧
  concat (buildPlayfairMatrix key) ≡ₚ alphabet ∧
  (is_ascii key →
   concat (buildPlayfairMatrix key)
   = first_seen (stripNonAZ (replaceJ (toUpperCase key)) ++ alphabet)).
Proof.
  rewrite buildPlayfairMatrix_rows.
  pose proof (flatGrid_length key) as Hl.
  split; [reflexivity|]. split.
  - apply Forall_fmap, Forall_forall. intros i Hi. apply elem_of_seq in Hi.
    cbn. unfold slice. rewrite length_take, length_drop. lia.
  - rewrite concat_rows by done.
    split; [apply flatGrid_permutation|intros _; apply flatGrid_first_seen].
Qed.

Lemma buildPlayfairMatrix_grid_witness :
  concat (buildPlayfairMatrix (codes "Playfair Example"))
  = first_seen
      (stripNonAZ (replaceJ (toUpperCase (codes "Playfair Example")))
       ++ alphabet).
Proof.
  apply (proj2 (proj2 (proj2
           (buildPlayfairMatrix_grid (codes "Playfair Example"))))).
  repeat constructor; lia.
Defined.

(** ** The transforms *)

Lemma pred5_lt (i : nat) : (i < 5)%nat → (pred5 i < 5)%nat.
Proof.
  intros H. destruct i as [|[|[|[|[|i]]]]]; [vm_compute; lia..|lia].
Qed.

Lemma append_cell_Some (res : text) (ch : Z) :
  append_cell res (Some ch) = res ++ [ch].
Proof. reflexivity. Qed.

Section GridShape.

Variable matrix : list (list Z).
Hypothesis Hgrid : grid_ok matrix.

(** Both rules append two letters of the grid whenever the two symbols are
    found. *)
Lemma encryptPair_shape (res out : text) (c1 c2 : option Z) :
  encryptPair matrix res c1 c2 = Ok out →
  ∃ a' b', out = res ++ [a'; b'] ∧ a' ∈ alphabet ∧ b' ∈ alphabet.
Proof.
  destruct Hgrid as (Hfull & _). unfold encryptPair.
  destruct (findPosition matrix c1) as [[r1 k1]|] eqn:H1;
    cbn [mbind result_bind destructure]; [|done].
  destruct (findPosition matrix c2) as [[r2 k2]|] eqn:H2;
    cbn [mbind result_bind destructure]; [|done].
  apply findPosition_Some in H1 as (Hr1 & Hk1 & _).
  apply findPosition_Some in H2 as (Hr2 & Hk2 & _).
  destruct (decide (r1 = r2)) as [Hr|Hr];
    [|destruct (decide (k1 = k2)) as [Hk|Hk]].
  - destruct (Hfull r1 _ Hr1 (succ5_lt k1)) as (a' & Ea & Ha).
    destruct (Hfull r2 _ Hr2 (succ5_lt k2)) as (b' & Eb & Hb).
    rewrite Ea, Eb, !append_cell_Some. intros [= <-].
    exists a', b'. rewrite <- app_assoc. done.
  - destruct (Hfull _ k1 (succ5_lt r1) Hk1) as (a' & Ea & Ha).
    destruct (Hfull _ k2 (succ5_lt r2) Hk2) as (b' & Eb & Hb).
    rewrite Ea, Eb, !append_cell_Some. intros [= <-].
    exists a', b'. rewrite <- app_assoc. done.
  - destruct (Hfull r1 k2 Hr1 Hk2) as (a' & Ea & Ha).
    destruct (Hfull r2 k1 Hr2 Hk1) as (b' & Eb & Hb).
    rewrite Ea, Eb, !append_cell_Some. intros [= <-].
    exists a', b'. rewrite <- app_assoc. done.
Qed.

Lemma decryptPair_shape (res out : text) (c1 c2 : option Z) :
  decryptPair matrix res c1 c2 = Ok out →
  ∃ a' b', out = res ++ [a'; b'] ∧ a' ∈ alphabet ∧ b' ∈ alphabet.
Proof.
  destruct Hgrid as (Hfull & _). unfold decryptPair.
  destruct (findPosition matrix c1) as [[r1 k1]|] eqn:H1;
    cbn [mbind result_bind destructure]; [|done].
  destruct (findPosition matrix c2) as [[r2 k2]|] eqn:H2;
    cbn [mbind result_bind destructure]; [|done].
  apply findPosition_Some in H1 as (Hr1 & Hk1 & _).
  apply findPosition_Some in H2 as (Hr2 & Hk2 & _).
  destruct (decide (r1 = r2)) as [Hr|Hr];
    [|destruct (decide (k1 = k2)) as [Hk|Hk]].
  - destruct (Hfull r1 _ Hr1 (pred5_lt k1 Hk1)) as (a' & Ea & Ha).
    destruct (Hfull r2 _ Hr2 (pred5_lt k2 Hk2)) as (b' & Eb & Hb).
    rewrite Ea, Eb, !append_cell_Some. intros [= <-].
    exists a', b'. rewrite <- app_assoc. done.
  - destruct (Hfull _ k1 (pred5_lt r1 Hr1) Hk1) as (a' & Ea & Ha).
    destruct (Hfull _ k2 (pred5_lt r2 Hr2) Hk2) as (b' & Eb & Hb).
    rewrite Ea, Eb, !append_cell_Some. intros [= <-].
    exists a', b'. rewrite <- app_assoc. done.
  - destruct (Hfull r1 k2 Hr1 Hk2) as (a' & Ea & Ha).
    destruct (Hfull r2 k1 Hr2 Hk1) as (b' & Eb & Hb).
    rewrite Ea, Eb, !append_cell_Some. intros [= <-].
    exists a', b'. rewrite <- app_assoc. done.
Qed.

(** A pair of letters of the grid is decoded without an exception. *)
Lemma decryptPair_letters (res : text) (a b : Z) :
  a ∈ alphabet → b ∈ alphabet →
  ∃ out, decryptPair matrix res (Some a) (Some b) = Ok out.
Proof.
  intros Ha Hb.
  destruct (findPosition_letter matrix Hgrid a Ha) as (r1 & k1 & _ & _ & _ & H1).
  destruct (findPosition_letter matrix Hgrid b Hb) as (r2 & k2 & _ & _ & _ & H2).
  unfold decryptPair. rewrite H1, H2. cbn [mbind result_bind destructure].
  repeat case_decide; eauto.
Qed.

(** A pair with a symbol outside the grid throws. *)
Lemma decryptPair_absent (res : text) (a b : Z) :
  a ∉ alphabet ∨ b ∉ alphabet →
  decryptPair matrix res (Some a) (Some b) = Throw TypeError.
Proof.
  intros H. unfold decryptPair.
  destruct (findPosition matrix (Some a)) as [[r1 k1]|] eqn:H1;
    cbn [mbind result_bind destructure]; [|done].
  destruct (findPosition matrix (Some b)) as [[r2 k2]|] eqn:H2;
    cbn [mbind result_bind destructure]; [|done].
  destruct H as [H|H].
  - by rewrite (findPosition_absent matrix Hgrid a H) in H1.
  - by rewrite (findPosition_absent matrix Hgrid b H) in H2.
Qed.

Lemma encryptLoop_length (digrams : list (Z * Z)) (res out : text) :
  for_of digrams
    (λ res d, encryptPair matrix res (Some d.1) (Some d.2)) res = Ok out →
  length out = (length res + 2 * length digrams)%nat.
Proof.
  revert res. induction digrams as [|d digrams IH]; intros res.
  - cbn. intros [= <-]. lia.
  - cbn [for_of].
    destruct (encryptPair matrix res (Some d.1) (Some d.2)) as [res'|e]
      eqn:Hp; cbn [mbind result_bind]; [|done].
    apply encryptPair_shape in Hp as (a' & b' & -> & _).
    intros H. apply IH in H. rewrite H, length_app. cbn [length]. lia.
Qed.

(** The decoding loop on letters of the grid, an even number of them, ends
    without an exception and appends as many letters of the grid. *)
Lemma decryptLoop_defined (t res : text) :
  (length t `mod` 2 = 0)%nat → Forall (λ ch, ch ∈ alphabet) t →
  ∃ c, decryptLoop matrix t res = Ok (res ++ c) ∧
    length c = length t ∧ Forall (λ ch, ch ∈ alphabet) c.
Proof.
  remember (length t) as n eqn:Hn. revert t res Hn.
  induction n as [n IH] using lt_wf_ind. intros t res -> Hl Ht.
  destruct t as [|a [|b t]].
  - exists []. rewrite decryptLoop_nil, app_nil_r. done.
  - cbn in Hl. done.
  - apply Forall_cons in Ht as [Ha Ht]. apply Forall_cons in Ht as [Hb Ht].
    rewrite decryptLoop_cons.
    destruct (decryptPair_letters res a b Ha Hb) as [out Hout].
    rewrite Hout. cbn [mbind result_bind].
    apply decryptPair_shape in Hout as (a' & b' & -> & Ha' & Hb').
    destruct (IH (length t) ltac:(cbn; lia) t (res ++ [a'; b']) eq_refl)
      as (c & Hloop & Hlen & Hall); [|done|].
    { cbn [length] in Hl.
      replace (S (S (length t))) with (length t + 1 * 2)%nat in Hl by lia.
      by rewrite Nat.Div0.mod_add in Hl. }
    exists (a' :: b' :: c). rewrite Hloop, <- app_assoc.
    split; [done|]. split; [cbn [length]; lia|].
    constructor; [done|]. constructor; done.
Qed.

(** The decoding loop on capital letters with a J, which is in no cell,
    throws. *)
Lemma decryptLoop_absent (t res : text) :
  Exists (λ ch, ch ∉ alphabet) t →
  decryptLoop matrix t res = Throw TypeError.
Proof.
  remember (length t) as n eqn:Hn. revert t res Hn.
  induction n as [n IH] using lt_wf_ind. intros t res -> Hex.
  destruct t as [|a [|b t]].
  - by apply Exists_nil in Hex.
  - apply decryptLoop_odd; [done|reflexivity].
  - rewrite decryptLoop_cons.
    destruct (decryptPair matrix res (Some a) (Some b)) as [out|e] eqn:Hp;
      cbn [mbind result_bind].
    + apply Exists_cons in Hex as [Ha|Hex].
      { rewrite decryptPair_absent in Hp by by left. done. }
      apply Exists_cons in Hex as [Hb|Hex].
      { rewrite decryptPair_absent in Hp by by right. done. }
      by apply (IH (length t) ltac:(cbn; lia)).
    + by apply decryptPair_throws in Hp as ->.
Qed.

End GridShape.

(** [playfairEncrypt] never throws, whatever the text and the key: it
    returns two letters of the grid (capitals, no J) per digram of the
    prepared text, and [playfairDecrypt] turns its output back into the
    prepared text, fillers included. *)
Theorem playfairEncrypt_never_throws (t key : text) :
  ∃ c,
    playfairEncrypt t key = Ok c ∧
    Forall (λ ch, ch ∈ alphabet) c ∧
    length c = (2 * length (preparePlayfairText t))%nat ∧
    playfairDecrypt c key = Ok (spell (preparePlayfairText t)).
Proof.
  destruct (playfairEncrypt_ok t key) as (c & Henc & Hall & Hdec).
  exists c. split; [done|]. split; [done|]. split; [|done].
  unfold playfairEncrypt in Henc. cbv zeta in Henc.
  apply (encryptLoop_length _ (buildPlayfairMatrix_ok key)) in Henc.
  exact Henc.
Qed.

Lemma stripped_alphabet (s : text) :
  Forall (λ ch, is_upper ch = true) s → 74 ∉ s →
  Forall (λ ch, ch ∈ alphabet) s.
Proof.
  intros Hu Hj. apply Forall_forall. intros ch Hin.
  apply alphabet_spec. split.
  - by apply (proj1 (Forall_forall _ _) Hu).
  - intros ->. done.
Qed.

(** On an ASCII text, [playfairDecrypt] returns a text exactly when the
    stripped text (capitals, letters only) has an even length and holds no
    J; in every other case it throws a [TypeError]. *)
Theorem playfairDecrypt_defined (t key : text) :
  is_ascii t →
  ((∃ out, playfairDecrypt t key = Ok out ∧
      length out = length (stripNonAZ (toUpperCase t)))
   ↔ (length (stripNonAZ (toUpperCase t)) `mod` 2 = 0)%nat ∧
     74 ∉ stripNonAZ (toUpperCase t)) ∧
  (playfairDecrypt t key = Throw TypeError
   ↔ ¬ ((length (stripNonAZ (toUpperCase t)) `mod` 2 = 0)%nat ∧
        74 ∉ stripNonAZ (toUpperCase t))).
Proof.
  intros _. rewrite playfairDecrypt_unfold.
  pose proof (stripNonAZ_Forall (toUpperCase t)) as Hu.
  pose proof (buildPlayfairMatrix_ok key) as Hgrid.
  generalize dependent (stripNonAZ (toUpperCase t)). intros s Hu.
  generalize dependent (buildPlayfairMatrix key). intros matrix Hgrid.
  destruct (decide ((length s `mod` 2 = 0)%nat ∧ 74 ∉ s)) as [[He Hj]|Hn].
  - destruct (decryptLoop_defined matrix Hgrid s [] He
                (stripped_alphabet s Hu Hj)) as (c & Hc & Hlen & _).
    rewrite Hc. cbn [app]. split.
    + split; [done|]. intros _. by exists c.
    + split; [done|]. intros H. by destruct H.
  - assert (decryptLoop matrix s [] = Throw TypeError) as ->.
    { destruct (decide ((length s `mod` 2 = 0)%nat)) as [He|Ho].
      - apply decryptLoop_absent; [done|]. apply Exists_exists.
        exists 74. split.
        + apply dec_stable. intros Hj. by apply Hn.
        + intros Hin. apply alphabet_spec in Hin as [_ Hin]. done.
      - apply decryptLoop_odd; [done|].
        pose proof (Nat.mod_upper_bound (length s) 2 ltac:(lia)). lia. }
    split.
    + split; [intros (out & Hout & _); done|done].
    + done.
Qed.

Lemma playfairDecrypt_defined_witness :
  ((∃ out, playfairDecrypt (codes "bm-od") (codes "KEY") = Ok out ∧
      length out = length (stripNonAZ (toUpperCase (codes "bm-od"))))
   ↔ (length (stripNonAZ (toUpperCase (codes "bm-od"))) `mod` 2 = 0)%nat ∧
     74 ∉ stripNonAZ (toUpperCase (codes "bm-od"))) ∧
  (playfairDecrypt (codes "bm-od") (codes "KEY") = Throw TypeError
   ↔ ¬ ((length (stripNonAZ (toUpperCase (codes "bm-od"))) `mod` 2 = 0)%nat ∧
        74 ∉ stripNonAZ (toUpperCase (codes "bm-od")))).
Proof.
  apply (playfairDecrypt_defined (codes "bm-od") (codes "KEY")).
  repeat constructor; lia.
Defined.

Lemma digramsFrom_shape (s : text) :
  Forall (λ ch, ch ∈ alphabet) s →
  Forall (λ d, d.1 ∈ alphabet ∧ d.2 ∈ alphabet ∧ (d.1 = d.2 → d.1 = X))
    (digramsFrom s) ∧
  (length s <= 2 * length (digramsFrom s) <= 2 * length s)%nat.
Proof.
  remember (length s) as n eqn:Hn. revert s Hn.
  induction n as [n IH] using lt_wf_ind. intros s -> Hs.
  destruct s as [|a [|b s]].
  - split; [constructor|cbn; lia].
  - apply Forall_cons in Hs as [Ha _]. split; [|cbn; lia].
    constructor; [|constructor]. cbn [fst snd].
    split; [done|]. split; [apply X_alphabet|done].
  - apply Forall_cons in Hs as [Ha Hs].
    pose proof Hs as Hbs. apply Forall_cons in Hs as [Hb Hs].
    rewrite digramsFrom_cons. destruct (decide (a = b)) as [->|Hab].
    + destruct (IH (length (b :: s)) ltac:(cbn; lia) (b :: s) eq_refl Hbs)
        as [Hall Hlen].
      split; [|cbn [length] in *; lia].
      constructor; [|done]. cbn [fst snd].
      split; [done|]. split; [apply X_alphabet|done].
    + destruct (IH (length s) ltac:(cbn; lia) s eq_refl Hs) as [Hall Hlen].
      split; [|cbn [length] in *; lia].
      constructor; [|done]. cbn [fst snd]. done.
Qed.

(** The digrams of [preparePlayfairText] on an ASCII text: both symbols are
    letters of the grid, they are equal only in the digram XX, and there
    are at least half as many and at most as many digrams as letters in the
    stripped text. *)
Theorem preparePlayfairText_digrams (t : text) :
  is_ascii t →
  Forall (λ d, d.1 ∈ alphabet ∧ d.2 ∈ alphabet ∧ (d.1 = d.2 → d.1 = X))
    (preparePlayfairText t) ∧
  (length (stripNonAZ (replaceJ (toUpperCase t)))
   <= 2 * length (preparePlayfairText t)
   <= 2 * length (stripNonAZ (replaceJ (toUpperCase t))))%nat.
Proof.
  intros _. unfold preparePlayfairText.
  pose proof (prepared_alphabet (toUpperCase t)) as Hs.
  destruct (digramsFrom_shape _ Hs) as [Hall Hlen].
  split; [exact Hall|exact Hlen].
Qed.

Lemma preparePlayfairText_digrams_witness :
  Forall (λ d, d.1 ∈ alphabet ∧ d.2 ∈ alphabet ∧ (d.1 = d.2 → d.1 = X))
    (preparePlayfairText (codes "Balloon, jazz!")) ∧
  (length (stripNonAZ (replaceJ (toUpperCase (codes "Balloon, jazz!"))))
   <= 2 * length (preparePlayfairText (codes "Balloon, jazz!"))
   <= 2 * length (stripNonAZ
                    (replaceJ (toUpperCase (codes "Balloon, jazz!")))))%nat.
Proof.
  apply (preparePlayfairText_digrams (codes "Balloon, jazz!")).
  repeat constructor; lia.
Defined.

(** * Further properties of Hill 3x3 *)

Lemma inverseMatrix3x3Mod26_Ok (m n : mat3) :
  bounded_key 100000 m →
  inverseMatrix3x3Mod26 m = Ok n →
  ∃ dInv,
    (dInv * determinant m) `mod` 26 = 1 ∧
    n = map_mat3 (λ val, (dInv * val) `mod` 26) (adjugate m).
Proof.
  intros Hb Hn.
  destruct (decide (Z.gcd (determinant m `mod` 26) 26 = 1)) as [Hg|Hg].
  - destruct (inverseMatrix3x3Mod26_ok m Hb Hg) as (dInv & Hd & Hinv).
    exists dInv. split; [done|]. congruence.
  - rewrite inverseMatrix3x3Mod26_throws in Hn by done. done.
Qed.

(** For a key with entries up to 100000 in magnitude, the matrix returned
    by [inverseMatrix3x3Mod26] is the inverse of the key modulo 26 on both
    sides, with its entries reduced to 0..25. *)
Theorem inverseMatrix3x3Mod26_inverse (m n : mat3) :
  bounded_key 100000 m →
  inverseMatrix3x3Mod26 m = Ok n →
  map_mat3 (λ v, v `mod` 26) (mat_mul n m) = identity3 ∧
  map_mat3 (λ v, v `mod` 26) (mat_mul m n) = identity3 ∧
  Forall (λ v, 0 <= v < 26) (entries n).
Proof.
  intros Hb Hn. apply inverseMatrix3x3Mod26_Ok in Hn as (dInv & Hd & ->);
    [|done]. clear Hb.
  assert (eqm 26 (dInv * determinant m) 1) as Hd' by (unfold eqm; by rewrite Hd).
  destruct m as [[[[m00 m01] m02] [[m10 m11] m12]] [[m20 m21] m22]].
  set (d := determinant ((m00, m01, m02), (m10, m11, m12), (m20, m21, m22)))
    in Hd'.
  cbn [adjugate map_mat3 mat_mul dot entries].
  split; [|split].
  - unfold identity3. repeat f_equal.
    all: apply eqm26_small; [|lia].
    all: rewrite !(Zmod_eqm 26).
    all: match goal with
         | |- eqm 26 ?l 1 =>
             replace l with (dInv * d) by (unfold d; cbn; ring); exact Hd'
         | |- eqm 26 ?l 0 => replace l with 0 by ring; reflexivity
         end.
  - unfold identity3. repeat f_equal.
    all: apply eqm26_small; [|lia].
    all: rewrite !(Zmod_eqm 26).
    all: match goal with
         | |- eqm 26 ?l 1 =>
             replace l with (dInv * d) by (unfold d; cbn; ring); exact Hd'
         | |- eqm 26 ?l 0 => replace l with 0 by ring; reflexivity
         end.
  - repeat constructor; apply Z.mod_pos_bound; lia.
Qed.

Lemma inverseMatrix3x3Mod26_inverse_witness :
  map_mat3 (λ v, v `mod` 26)
    (mat_mul ((8, 5, 10), (21, 8, 21), (21, 12, 8))
       ((6, 24, 1), (13, 16, 10), (20, 17, 15))) = identity3 ∧
  map_mat3 (λ v, v `mod` 26)
    (mat_mul ((6, 24, 1), (13, 16, 10), (20, 17, 15))
       ((8, 5, 10), (21, 8, 21), (21, 12, 8))) = identity3 ∧
  Forall (λ v, 0 <= v < 26) (entries ((8, 5, 10), (21, 8, 21), (21, 12, 8))).
Proof.
  apply (inverseMatrix3x3Mod26_inverse
           ((6, 24, 1), (13, 16, 10), (20, 17, 15))
           ((8, 5, 10), (21, 8, 21), (21, 12, 8))).
  - repeat constructor; vm_compute; discriminate.
  - reflexivity.
Defined.

Lemma padToBlocks_step (t : text) :
  padToBlocks t
  = if decide ((length t `mod` 3)%nat ≠ 0%nat) then padToBlocks (t ++ [X])
    else t.
Proof.
  rewrite padToBlocks_equation_1.
  destruct (decide ((length t `mod` 3)%nat ≠ 0%nat)); reflexivity.
Qed.

(** The padding loop appends no, one or two fillers, as many as are missing
    to a multiple of 3. *)
Lemma padToBlocks_spec (t : text) :
  padToBlocks t = t ++ replicate ((3 - length t `mod` 3) `mod` 3) X.
Proof.
  pose proof (Nat.mod_upper_bound (length t) 3 ltac:(lia)) as Hb.
  destruct (length t `mod` 3)%nat as [|[|[|k]]] eqn:Hm; [| | |lia].
  - rewrite padToBlocks_full by done. cbn. by rewrite app_nil_r.
  - rewrite padToBlocks_step, decide_True by lia.
    assert (length (t ++ [X]) `mod` 3 = 2)%nat as Hm1.
    { rewrite length_app. cbn [length].
      rewrite <- Nat.Div0.add_mod_idemp_l, Hm. reflexivity. }
    rewrite padToBlocks_step, decide_True by lia.
    rewrite padToBlocks_full.
    + rewrite <- app_assoc. reflexivity.
    + rewrite length_app. cbn [length].
      rewrite <- Nat.Div0.add_mod_idemp_l, Hm1. reflexivity.
  - rewrite padToBlocks_step, decide_True by lia.
    rewrite padToBlocks_full; [reflexivity|].
    rewrite length_app. cbn [length].
    rewrite <- Nat.Div0.add_mod_idemp_l, Hm. reflexivity.
Qed.

Lemma padToBlocks_length (t : text) :
  (length (padToBlocks t) `mod` 3 = 0)%nat.
Proof.
  rewrite padToBlocks_spec, length_app, length_replicate.
  pose proof (Nat.mod_upper_bound (length t) 3 ltac:(lia)) as Hb.
  rewrite <- Nat.Div0.add_mod_idemp_l.
  destruct (length t `mod` 3)%nat as [|[|[|k]]]; [reflexivity..|lia].
Qed.

Lemma padToBlocks_upper (t : text) :
  Forall (λ ch, is_upper ch = true) t →
  Forall (λ ch, is_upper ch = true) (padToBlocks t).
Proof.
  intros H. rewrite padToBlocks_spec. apply Forall_app. split; [done|].
  apply Forall_replicate. reflexivity.
Qed.

Lemma hillBlock_length (m : mat3) (block : text) :
  length (hillBlock m block) = 3%nat.
Proof. destruct m as [[r0 r1] r2]. reflexivity. Qed.

Lemma hillBlocks_length (m : mat3) (t : text) :
  (length t `mod` 3 = 0)%nat → length (hillBlocks m t) = length t.
Proof.
  revert t. apply (blocks_ind (λ t, length (hillBlocks m t) = length t)).
  - reflexivity.
  - intros a b c t IH.
    rewrite hillBlocks_cons, length_app, hillBlock_length, IH. reflexivity.
Qed.

(** On an ASCII text and under a key with entries up to 2^46 in magnitude,
    [hillEncrypt] returns capital letters only, as many as the stripped
    text padded with X to a multiple of 3. *)
Theorem hillEncrypt_shape (t : text) (m : mat3) :
  is_ascii t → bounded_key (2 ^ 46) m →
  Forall (λ ch, is_upper ch = true) (hillEncrypt t m) ∧
  length (hillEncrypt t m)
  = (length (stripNonAZ (toUpperCase t))
     + (3 - length (stripNonAZ (toUpperCase t)) `mod` 3) `mod` 3)%nat ∧
  (length (hillEncrypt t m) `mod` 3 = 0)%nat.
Proof.
  intros _ Hm. unfold hillEncrypt.
  pose proof (padToBlocks_length (stripNonAZ (toUpperCase t))) as Hl.
  pose proof (padToBlocks_upper _ (stripNonAZ_Forall (toUpperCase t))) as Hu.
  split; [by apply hillBlocks_upper|].
  rewrite hillBlocks_length by done. split; [|done].
  by rewrite padToBlocks_spec, length_app, length_replicate.
Qed.

Lemma hillEncrypt_shape_witness :
  Forall (λ ch, is_upper ch = true)
    (hillEncrypt (codes "Meet me at 9!")
       ((6, 24, 1), (13, 16, 10), (20, 17, 15))) ∧
  length (hillEncrypt (codes "Meet me at 9!")
            ((6, 24, 1), (13, 16, 10), (20, 17, 15)))
  = (length (stripNonAZ (toUpperCase (codes "Meet me at 9!")))
     + (3 - length (stripNonAZ (toUpperCase (codes "Meet me at 9!")))
            `mod` 3) `mod` 3)%nat ∧
  (length (hillEncrypt (codes "Meet me at 9!")
             ((6, 24, 1), (13, 16, 10), (20, 17, 15))%Z) `mod` 3 = 0)%nat.
Proof.
  apply (hillEncrypt_shape (codes "Meet me at 9!")
           ((6, 24, 1), (13, 16, 10), (20, 17, 15))).
  - repeat constructor; lia.
  - repeat constructor; vm_compute; discriminate.
Defined.

(** The round trip on any ASCII text: under a key with entries up to 100000
    in magnitude whose determinant is coprime to 26, decoding the encoding
    returns the canonical text (capitals, letters only) padded with X to a
    multiple of 3. *)
Theorem hill_round_trip_canonical (t : text) (m : mat3) :
  is_ascii t →
  bounded_key 100000 m →
  Z.gcd (determinant m `mod` 26) 26 = 1 →
  hillDecrypt (hillEncrypt t m) m
  = Ok (stripNonAZ (toUpperCase t)
        ++ replicate
             ((3 - length (stripNonAZ (toUpperCase t)) `mod` 3) `mod` 3) X).
Proof.
  intros _ Hb Hg.
  pose proof (bounded_key_encrypt m Hb) as Hb'.
  destruct (inverseMatrix3x3Mod26_ok m Hb Hg) as (dInv & Hd & Hinv).
  pose proof (padToBlocks_length (stripNonAZ (toUpperCase t))) as Hl.
  pose proof (padToBlocks_upper _ (stripNonAZ_Forall (toUpperCase t))) as Hu.
  rewrite <- padToBlocks_spec.
  unfold hillEncrypt, hillDecrypt. cbv zeta.
  rewrite toUpperCase_upper, stripNonAZ_upper by by apply hillBlocks_upper.
  rewrite Hinv. cbn [mbind result_bind]. f_equal.
  by apply hillBlocks_inverse.
Qed.

Lemma hill_round_trip_canonical_witness :
  hillDecrypt
    (hillEncrypt (codes "Meet me at 9!")
       ((6, 24, 1), (13, 16, 10), (20, 17, 15)))
    ((6, 24, 1), (13, 16, 10), (20, 17, 15))
  = Ok (codes "MEETMEATX").
Proof.
  apply (hill_round_trip_canonical (codes "Meet me at 9!")
           ((6, 24, 1), (13, 16, 10), (20, 17, 15))).
  - repeat constructor; lia.
  - repeat constructor; vm_compute; discriminate.
  - reflexivity.
Defined.





(** * Properties of the key exchange *)

Lemma modPow_loop_step (r b e m : Z) :
  modPow_loop r b e m
  = if decide (e > 0) then
      modPow_loop
        (if decide (Z.rem e 2 = 1) then Z.rem (r * b) m else r)
        (Z.rem (b * b) m) (Z.shiftr e 1) m
    else r.
Proof.
  rewrite modPow_loop_equation_1. destruct (decide (e > 0)); reflexivity.
Qed.

(** The invariant of the square-and-multiply loop. *)
Lemma modPow_loop_spec (r b e m : Z) :
  1 < m → 0 <= e → 0 <= r < m → 0 <= b < m →
  modPow_loop r b e m = (r * b ^ e) `mod` m.
Proof.
  intros Hm. remember (Z.to_nat e) as n eqn:Hn. revert r b e Hn.
  induction n as [n IH] using lt_wf_ind. intros r b e -> He Hr Hb.
  rewrite modPow_loop_step. destruct (decide (e > 0)) as [Hpos|Hz].
  - assert (Z.shiftr e 1 = e `div` 2) as Hq
      by (rewrite Z.shiftr_div_pow2 by lia; reflexivity).
    pose proof (Z.div_mod e 2 ltac:(lia)) as Hdm.
    pose proof (Z.mod_pos_bound e 2 ltac:(lia)) as Hmb.
    pose proof (Z.div_pos e 2 ltac:(lia) ltac:(lia)) as Hqpos.
    rewrite Z.rem_mod_nonneg by lia.
    rewrite (Z.rem_mod_nonneg (b * b)) by nia.
    rewrite Hq.
    assert (b ^ e = (b * b) ^ (e `div` 2) * b ^ (e `mod` 2)) as Hpow.
    { rewrite Hdm at 1. rewrite Z.pow_add_r, Z.pow_mul_r by lia.
      f_equal. f_equal. apply Z.pow_2_r. }
    pose proof (Z.mod_pos_bound (b * b) m ltac:(lia)) as Hbb.
    destruct (decide (e `mod` 2 = 1)) as [Hodd|Heven].
    + rewrite Z.rem_mod_nonneg by nia.
      pose proof (Z.mod_pos_bound (r * b) m ltac:(lia)) as Hrb.
      rewrite (IH (Z.to_nat (e `div` 2)) ltac:(lia) _ _ (e `div` 2) eq_refl)
        by lia.
      rewrite Hpow, Hodd, Z.pow_1_r.
      rewrite Zmult_mod, Z.mod_mod, Z.mod_pow_l, <- Zmult_mod by lia.
      f_equal. ring.
    + rewrite (IH (Z.to_nat (e `div` 2)) ltac:(lia) _ _ (e `div` 2) eq_refl)
        by lia.
      assert (e `mod` 2 = 0) as Hev by lia.
      rewrite Hpow, Hev, Z.pow_0_r, Z.mul_1_r.
      rewrite Zmult_mod, Z.mod_pow_l, <- Zmult_mod by lia.
      reflexivity.
  - assert (e = 0) as -> by lia.
    rewrite Z.pow_0_r, Z.mul_1_r. symmetry. apply Z.mod_small. done.
Qed.

Lemma modPow_pow (b e m : Z) :
  0 <= b → 0 <= e → 0 < m → modPow b e m = Some (b ^ e `mod` m).
Proof.
  intros Hb He Hm. unfold modPow.
  destruct (decide (m = 1)) as [->|H1]; [by rewrite Z.mod_1_r|].
  rewrite decide_False by lia. f_equal.
  rewrite Z.rem_mod_nonneg by lia.
  pose proof (Z.mod_pos_bound b m ltac:(lia)).
  rewrite modPow_loop_spec by lia.
  rewrite Z.mul_1_l. apply Z.mod_pow_l.
Qed.

(** [modPow] is modular exponentiation: on a non-negative base and exponent
    and a positive modulus it returns [base ^ exponent mod modulus], a value
    below the modulus. *)
Theorem modPow_correct (base exponent modulus : Z) :
  0 <= base → 0 <= exponent → 0 < modulus →
  modPow base exponent modulus = Some (base ^ exponent `mod` modulus) ∧
  0 <= base ^ exponent `mod` modulus < modulus.
Proof.
  intros Hb He Hm. split; [by apply modPow_pow|].
  apply Z.mod_pos_bound. done.
Qed.

Lemma modPow_correct_witness :
  modPow 4 13 497 = Some (4 ^ 13 `mod` 497) ∧ 0 <= 4 ^ 13 `mod` 497 < 497.
Proof. apply (modPow_correct 4 13 497); lia. Defined.

(** The edge cases of [modPow]: the modulus 1 gives 0 and the modulus 0
    throws, whatever the other arguments; an exponent that is not positive
    leaves the initial result 1 for every other modulus. *)
Theorem modPow_edge_cases (base exponent modulus : Z) :
  modPow base exponent 1 = Some 0 ∧
  modPow base exponent 0 = None ∧
  (exponent <= 0 ∧ modulus ≠ 0 ∧ modulus ≠ 1 →
   modPow base exponent modulus = Some 1).
Proof.
  split; [reflexivity|]. split; [reflexivity|].
  intros (He & H0 & H1). unfold modPow.
  rewrite !decide_False by done. f_equal.
  rewrite modPow_loop_step. by rewrite decide_False by lia.
Qed.

(** The two sides of the exchange derive the same secret: the shared key
    computed from the other side's public value is [g ^ (a b) mod p] for
    both. *)
Theorem diffie_hellman_agreement (g a b p : Z) :
  0 <= g → 0 <= a → 0 <= b → 0 < p →
  (computeDHPublic g a p ≫= λ A, computeDHShared A b p)
  = Some (g ^ (a * b) `mod` p) ∧
  (computeDHPublic g b p ≫= λ B, computeDHShared B a p)
  = (computeDHPublic g a p ≫= λ A, computeDHShared A b p).
Proof.
  intros Hg Ha Hb Hp.
  assert (∀ x y, 0 <= x → 0 <= y →
            (computeDHPublic g x p ≫= λ X, computeDHShared X y p)
            = Some (g ^ (x * y) `mod` p)) as Hside.
  { intros x y Hx Hy. unfold computeDHPublic, computeDHShared.
    rewrite (modPow_pow g x p) by done. cbn [mbind option_bind].
    pose proof (Z.mod_pos_bound (g ^ x) p Hp).
    rewrite modPow_pow by lia. f_equal.
    rewrite Z.mod_pow_l. by rewrite Z.pow_mul_r. }
  rewrite !Hside by done. split; [done|]. by rewrite (Z.mul_comm b a).
Qed.

Lemma diffie_hellman_agreement_witness :
  (computeDHPublic 5 6 23 ≫= λ A, computeDHShared A 15 23)
  = Some (5 ^ (6 * 15) `mod` 23) ∧
  (computeDHPublic 5 15 23 ≫= λ B, computeDHShared B 6 23)
  = (computeDHPublic 5 6 23 ≫= λ A, computeDHShared A 15 23).
Proof. apply (diffie_hellman_agreement 5 6 15 23); lia. Defined.

Lemma modPow_edge_cases_witness :
  modPow 7 (-3) 5 = Some 1.
Proof. apply (proj2 (proj2 (modPow_edge_cases 7 (-3) 5))). lia. Defined.

(** * Properties of the client-side ciphers *)

Lemma caesarClient_caesarEncrypt (t : text) (shift : Z) :
  -26 <= shift <= 2 ^ 53 - 51 → caesarClient t shift = caesarEncrypt t shift.
Proof.
  intros Hs. rewrite caesarEncrypt_ok by (unfold safe_shift; lia).
  unfold caesarClient.
  apply list_fmap_ext. intros _ ch _. cbn.
  letter_cases ch; [| |reflexivity].
  - rewrite (fadd_exact (ch - 97)) by lia. rewrite fadd_exact by lia.
    rewrite Z.rem_mod_nonneg by lia.
    replace (ch - 97 + shift + 26) with (ch - 97 + shift + 1 * 26) by ring.
    rewrite Z_mod_plus_full.
    pose proof (Z.mod_pos_bound (ch - 97 + shift) 26 ltac:(lia)).
    apply fromCharCode_small. lia.
  - rewrite (fadd_exact (ch - 65)) by lia. rewrite fadd_exact by lia.
    rewrite Z.rem_mod_nonneg by lia.
    replace (ch - 65 + shift + 26) with (ch - 65 + shift + 1 * 26) by ring.
    rewrite Z_mod_plus_full.
    pose proof (Z.mod_pos_bound (ch - 65 + shift) 26 ltac:(lia)).
    apply fromCharCode_small. lia.
Qed.

(** The client-side Caesar transform adds 26 once before the truncated
    remainder: for every shift from -26 up to 2^53 - 51 it is
    [caesarEncrypt], and within -26..26 decoding with the opposite shift
    undoes encoding. *)
Theorem caesarClient_agrees (t : text) (shift : Z) :
  -26 <= shift <= 2 ^ 53 - 51 →
  caesarClient t shift = caesarEncrypt t shift ∧
  (shift <= 26 → caesarClient (caesarClient t shift) (- shift) = t).
Proof.
  intros Hs. split; [by apply caesarClient_caesarEncrypt|].
  intros Hs'. rewrite !caesarClient_caesarEncrypt by lia.
  apply caesar_round_trip. unfold safe_shift. lia.
Qed.

Lemma caesarClient_agrees_witness :
  caesarClient (codes "Hello, World!") (-26)
  = caesarEncrypt (codes "Hello, World!") (-26) ∧
  (-26 <= 26 →
   caesarClient (caesarClient (codes "Hello, World!") (-26)) (- -26)
   = codes "Hello, World!").
Proof. apply (caesarClient_agrees (codes "Hello, World!") (-26)). lia. Defined.

(** The client-side affine encoding is [affineEncrypt], with the same
    rejection of the multiplier. *)
Lemma affineClient_encrypt (t : text) (a b : Z) (operation : string) :
  operation ≠ "decrypt"%string →
  affineClient t a b operation = affineEncrypt t a b.
Proof.
  intros Hop. unfold affineClient, affineEncrypt.
  destruct (decide (gcd a 26 ≠ 1)); [reflexivity|].
  rewrite (proj2 (String.eqb_neq _ _) Hop). reflexivity.
Qed.

Lemma affineClient_encrypt_witness :
  affineClient (codes "HELLO") 5 8 "encrypt"
  = affineEncrypt (codes "HELLO") 5 8.
Proof.
  apply (affineClient_encrypt (codes "HELLO") 5 8 "encrypt"). discriminate.
Defined.

Lemma find_ext_In {A : Type} (f g : A → bool) (l : list A) :
  (∀ x, In x l → f x = g x) → List.find f l = List.find g l.
Proof.
  induction l as [|x l IH]; intros H; [reflexivity|]. cbn.
  rewrite (H x) by (by left). destruct (g x); [reflexivity|].
  apply IH. intros y Hy. apply H. by right.
Qed.

Lemma clientModInverse_nonneg (a : Z) :
  0 <= a <= 2 ^ 48 → clientModInverse a 26 = modInverse a 26.
Proof.
  intros Ha. unfold clientModInverse, modInverse. apply find_ext_In.
  intros x Hx. apply list_elem_of_In, elem_of_seqZ in Hx.
  fold (mod' a 26). rewrite mod'_eq by lia.
  pose proof (Z.mod_pos_bound a 26 ltac:(lia)).
  rewrite !fmul_exact by nia.
  rewrite !Z.rem_mod_nonneg by nia. by rewrite Zmult_mod_idemp_l.
Qed.

Lemma rem_rem_26 (n : Z) : Z.rem (fadd (Z.rem n 26) 26) 26 = n `mod` 26.
Proof. apply (mod'_eq n 26). lia. Qed.

(** What the client-side decoding does: it applies the inverse multiplier
    and then subtracts the offset, instead of subtracting first.  On the
    encoding of a text under a valid key (a, b), with a non-negative
    multiplier and both numbers up to 2^48 in magnitude, it returns the text
    shifted by [(aInv - 1) b], where [aInv] is the inverse of [a]. *)
Theorem affineClient_decrypt_shifts (t : text) (a b : Z) :
  0 <= a → safe_affine a b → gcd a 26 = 1 →
  ∃ aInv,
    modInverse a 26 = Some aInv ∧
    (affineEncrypt t a b ≫= λ c, affineClient c a b "decrypt")
    = Ok (caesarEncrypt t (aInv * b - b)).
Proof.
  intros Ha Hs Hg. pose proof Hs as [Hsa Hsb].
  destruct (modInverse_coprime a (gcd_1_coprime a Hg))
    as (aInv & Hi & Hr & Hm).
  exists aInv. split; [done|].
  rewrite (affineEncrypt_ok t a b Hg Hs). cbn [mbind result_bind].
  unfold affineClient. rewrite decide_False by (rewrite Hg; tauto).
  cbn [String.eqb Ascii.eqb Bool.eqb].
  rewrite clientModInverse_nonneg, Hi by lia.
  rewrite decide_False by lia. cbn [mbind result_bind]. f_equal.
  rewrite caesarEncrypt_ok by (unfold safe_shift; nia).
  rewrite <- list_fmap_compose.
  apply list_fmap_ext. intros _ ch _. cbn.
  rewrite !rem_rem_26.
  pose proof (Z.mod_pos_bound (a * (ch - 97) + b) 26 ltac:(lia)).
  pose proof (Z.mod_pos_bound (a * (ch - 65) + b) 26 ltac:(lia)).
  assert (∀ x, (aInv * ((a * x + b) `mod` 26) + - b) `mod` 26
               = (x + (aInv * b - b)) `mod` 26) as Hshift.
  { intros x. rewrite <- Zplus_mod_idemp_l, Zmult_mod_idemp_r, Zplus_mod_idemp_l.
    replace (aInv * (a * x + b) + - b) with (aInv * a * x + (aInv * b - b))
      by ring.
    rewrite <- Zplus_mod_idemp_l, <- Zmult_mod_idemp_l, Hm, Z.mul_1_l.
    by rewrite Zplus_mod_idemp_l. }
  letter_cases ch.
  - rewrite (proj2 (is_lower_spec _)) by lia.
    replace ((a * (ch - 97) + b) `mod` 26 + 97 - 97)
      with ((a * (ch - 97) + b) `mod` 26) by ring.
    rewrite fmul_exact by nia. rewrite fadd_exact by nia. rewrite Hshift.
    pose proof (Z.mod_pos_bound (ch - 97 + (aInv * b - b)) 26 ltac:(lia)).
    apply fromCharCode_small. lia.
  - rewrite (proj2 (is_lower_false _)) by lia.
    rewrite (proj2 (is_upper_spec _)) by lia.
    replace ((a * (ch - 65) + b) `mod` 26 + 65 - 65)
      with ((a * (ch - 65) + b) `mod` 26) by ring.
    rewrite fmul_exact by nia. rewrite fadd_exact by nia. rewrite Hshift.
    pose proof (Z.mod_pos_bound (ch - 65 + (aInv * b - b)) 26 ltac:(lia)).
    apply fromCharCode_small. lia.
  - rewrite Hl, Hu. reflexivity.
Qed.

Lemma affineClient_decrypt_shifts_witness :
  ∃ aInv,
    modInverse 5 26 = Some aInv ∧
    (affineEncrypt (codes "HELLO") 5 8 ≫= λ c, affineClient c 5 8 "decrypt")
    = Ok (caesarEncrypt (codes "HELLO") (aInv * 8 - 8)).
Proof.
  apply (affineClient_decrypt_shifts (codes "HELLO") 5 8);
    [lia|unfold safe_affine; lia|reflexivity].
Defined.

(** * Properties of the password enumeration *)

Lemma length_bind_fmap {A B : Type} (f : text → A → B) (cs : list text)
  (l : list A) :
  length (c ← cs; f c <$> l) = (length cs * length l)%nat.
Proof.
  induction cs as [|c cs IHc]; [reflexivity|].
  rewrite bind_cons, length_app, length_fmap, IHc. cbn [length]. lia.
Qed.

Lemma all_words_length (symbols : list text) (n : nat) :
  length (all_words symbols n) = (length symbols ^ n)%nat.
Proof.
  induction n as [|n IH]; [reflexivity|]. cbn [all_words Nat.pow].
  by rewrite length_bind_fmap, IH.
Qed.

Lemma all_words_elem (symbols : list text) (n : nat) (w : text) :
  w ∈ all_words symbols n ↔
  ∃ parts, length parts = n ∧ Forall (λ c, c ∈ symbols) parts ∧
    w = concat parts.
Proof.
  revert w. induction n as [|n IH]; intros w.
  - cbn [all_words]. rewrite list_elem_of_singleton. split.
    + intros ->. exists []. split; [reflexivity|]. split; [constructor|done].
    + intros (parts & Hl & _ & ->). apply nil_length_inv in Hl as ->. done.
  - cbn [all_words]. rewrite list_elem_of_bind. split.
    + intros (c & Hw & Hc). apply list_elem_of_fmap in Hw as (w' & -> & Hw').
      apply IH in Hw' as (parts & Hl & Hall & ->).
      exists (c :: parts). split; [cbn; lia|]. split; [by constructor|done].
    + intros (parts & Hl & Hall & ->). destruct parts as [|c parts]; [done|].
      apply Forall_cons in Hall as [Hc Hall].
      exists c. split; [|done]. apply list_elem_of_fmap.
      exists (concat parts). split; [done|]. apply IH.
      exists parts. split; [cbn in Hl; lia|done].
Qed.

Lemma generate_step (charset : text) (maxAttempts : Z) (remaining : nat)
  (current : text) (results : list text) :
  generate charset maxAttempts remaining current results
  = if decide (maxAttempts <= Z.of_nat (length results)) then results
    else
      match remaining with
      | O => results ++ [current]
      | S remaining' =>
          foldl
            (λ results char,
               generate charset maxAttempts remaining' (current ++ char)
                 results)
            results (codePoints charset)
      end.
Proof. destruct remaining; reflexivity. Qed.

(** While the limit leaves room for all of them, [generate] appends the
    words of the remaining length, each after the prefix [current]. *)
Lemma generate_all (charset : text) (maxAttempts : Z) (remaining : nat)
  (current : text) (results : list text) :
  Z.of_nat (length results + length (codePoints charset) ^ remaining)
  <= maxAttempts →
  generate charset maxAttempts remaining current results
  = results
    ++ ((λ w, current ++ w) <$> all_words (codePoints charset) remaining).
Proof.
  revert current results. induction remaining as [|r IH];
    intros current results Hmax.
  - rewrite generate_step. cbn [Nat.pow] in Hmax.
    rewrite decide_False by lia. cbn. by rewrite app_nil_r.
  - rewrite generate_step.
    destruct (decide (maxAttempts <= Z.of_nat (length results))) as [Hfull|_].
    + assert (length (codePoints charset) ^ S r = 0)%nat as H0 by lia.
      rewrite <- all_words_length in H0. apply nil_length_inv in H0.
      rewrite H0. cbn. by rewrite app_nil_r.
    + cbn [all_words Nat.pow] in *.
      assert (∀ cs results,
                Z.of_nat (length results
                          + length cs * length (codePoints charset) ^ r)
                <= maxAttempts →
                foldl (λ results char,
                         generate charset maxAttempts r (current ++ char)
                           results) results cs
                = results ++ ((λ w, current ++ w) <$>
                                (c ← cs;
                                 (λ w, c ++ w)
                                   <$> all_words (codePoints charset) r)))
        as Hloop.
      { clear results Hmax. intros cs.
        induction cs as [|c cs IHc]; intros results Hmax.
        - cbn. by rewrite app_nil_r.
        - cbn [foldl]. cbn [length] in Hmax.
          rewrite IH by lia. rewrite IHc.
          + rewrite bind_cons, fmap_app, <- list_fmap_compose, app_assoc.
            f_equal. f_equal. apply list_fmap_ext. intros _ w _. cbn.
            by rewrite <- app_assoc.
          + rewrite length_app, length_fmap, all_words_length. lia. }
      apply Hloop. exact Hmax.
Qed.

(** There are at most as many code points as code units, and as many when
    no code unit is a high surrogate. *)
Lemma codePoints_cons (a b : Z) (t : text) :
  codePoints (a :: b :: t)
  = if is_high_surrogate a && is_low_surrogate b then [a; b] :: codePoints t
    else [a] :: codePoints (b :: t).
Proof. reflexivity. Qed.

Lemma codePoints_length (t : text) : (length (codePoints t) <= length t)%nat.
Proof.
  remember (length t) as n eqn:Hn. revert t Hn.
  induction n as [n IH] using lt_wf_ind. intros t ->.
  destruct t as [|a [|b t]]; [done|done|].
  rewrite codePoints_cons.
  destruct (is_high_surrogate a && is_low_surrogate b); cbn [length].
  - pose proof (IH (length t) ltac:(cbn; lia) t eq_refl). lia.
  - pose proof (IH (length (b :: t)) ltac:(cbn; lia) (b :: t) eq_refl) as H.
    cbn [length] in H. lia.
Qed.

Lemma codePoints_units (t : text) :
  Forall (λ c, is_high_surrogate c = false) t →
  codePoints t = (λ c, [c]) <$> t.
Proof.
  induction 1 as [|a t Ha _ IH]; [reflexivity|].
  destruct t as [|b t]; [reflexivity|].
  rewrite codePoints_cons, Ha. cbn [andb]. rewrite IH. reflexivity.
Qed.

(** When the number of combinations [charset.length ^ length] does not
    exceed the limit, itself up to 2^53, [bruteForcePassword] generates
    every word of the given length over the symbols of the charset, in
    enumeration order: [total] counts the code units of the charset and
    [generated] its symbols (code points), which are the code units when
    the charset holds no high surrogate. *)
Theorem bruteForcePassword_complete (charset : text) (len : nat)
  (maxAttempts : Z) :
  maxAttempts <= 2 ^ 53 →
  Z.of_nat (length charset) ^ Z.of_nat len <= maxAttempts →
  bruteForcePassword charset len maxAttempts
  = Generated (Z.of_nat (length charset) ^ Z.of_nat len)
      (length (codePoints charset) ^ len)%nat
      (all_words (codePoints charset) len) ∧
  (∀ w, w ∈ all_words (codePoints charset) len ↔
        ∃ parts, length parts = len ∧
          Forall (λ c, c ∈ codePoints charset) parts ∧ w = concat parts) ∧
  (Forall (λ c, is_high_surrogate c = false) charset →
   codePoints charset = (λ c, [c]) <$> charset).
Proof.
  intros Hlim Hmax.
  split; [|split; [intros w; apply all_words_elem|apply codePoints_units]].
  unfold bruteForcePassword. cbv zeta.
  assert (0 <= Z.of_nat (length charset) ^ Z.of_nat len) as Hpos
    by (apply Z.pow_nonneg; lia).
  rewrite toDouble_exact by lia.
  rewrite decide_False by lia.
  rewrite generate_all.
  - cbn [app]. rewrite list_fmap_id, all_words_length. reflexivity.
  - cbn [length]. rewrite Nat.add_0_l.
    pose proof (Nat.pow_le_mono_l _ _ len (codePoints_length charset)) as Hle.
    apply Nat2Z.inj_le in Hle. rewrite (Nat2Z.inj_pow (length charset)) in Hle.
    lia.
Qed.

Lemma bruteForcePassword_complete_witness :
  bruteForcePassword [48; 55357; 56832] 2 10000
  = Generated (Z.of_nat (length [48; 55357; 56832]) ^ Z.of_nat 2)
      (length (codePoints [48; 55357; 56832]%Z) ^ 2)%nat
      (all_words (codePoints [48; 55357; 56832]) 2) ∧
  (∀ w, w ∈ all_words (codePoints [48; 55357; 56832]) 2 ↔
        ∃ parts, length parts = 2%nat ∧
          Forall (λ c, c ∈ codePoints [48; 55357; 56832]) parts ∧
          w = concat parts) ∧
  (Forall (λ c, is_high_surrogate c = false) [48; 55357; 56832] →
   codePoints [48; 55357; 56832] = (λ c, [c]) <$> [48; 55357; 56832]).
Proof.
  apply (bruteForcePassword_complete [48; 55357; 56832] 2 10000); done.
Defined.

(** The charset "0" followed by U+1F600, a symbol of two code units, with
    the length 2: [total] is 9 and four passwords are generated. *)
Lemma bruteForcePassword_surrogate_pair :
  bruteForcePassword [48; 55357; 56832] 2 10000
  = Generated 9 4
      [[48; 48]; [48; 55357; 56832]; [55357; 56832; 48];
       [55357; 56832; 55357; 56832]].
Proof. vm_compute. reflexivity. Qed.

(** * Properties of the dictionary filter *)

Section DictionaryFilter.

Context {C : Type}.
Variable text_of : C → text.
Variable content : text.

Abbreviation keep :=
  (keepMatch text_of (list_to_set (dictionaryWords content) : gset text)).

Lemma dictionaryAttack_fold (candidates : list C) (acc : list (C * text)) :
  foldl keep acc candidates
  = acc ++ dictionaryAttack text_of candidates content.
Proof.
  unfold dictionaryAttack. cbv zeta. revert acc.
  induction candidates as [|c candidates IH]; intros acc; cbn [foldl].
  - by rewrite app_nil_r.
  - rewrite IH, (IH (keep [] c)). rewrite app_assoc. f_equal.
    unfold keepMatch. cbv zeta. case_decide; [reflexivity|by rewrite app_nil_r].
Qed.

Lemma dictionaryAttack_cons (c : C) (candidates : list C) :
  dictionaryAttack text_of (c :: candidates) content
  = keep [] c ++ dictionaryAttack text_of candidates content.
Proof.
  unfold dictionaryAttack at 1. cbv zeta. cbn [foldl].
  apply dictionaryAttack_fold.
Qed.

Lemma dictionaryAttack_elem (candidates : list C) (c : C) (m : text) :
  (c, m) ∈ dictionaryAttack text_of candidates content ↔
  c ∈ candidates ∧ m = toLowerCase (text_of c) ∧
  m ∈ dictionaryWords content.
Proof.
  induction candidates as [|c' candidates IH].
  - unfold dictionaryAttack. cbn. rewrite !elem_of_nil. tauto.
  - rewrite dictionaryAttack_cons, elem_of_app, IH, elem_of_cons.
    unfold keepMatch. cbv zeta. case_decide as Hin.
    + rewrite elem_of_list_to_set in Hin. cbn [app].
      rewrite list_elem_of_singleton. split.
      * intros [[= -> ->]|H]; [|tauto]. split; [by left|done].
      * intros [[->|Hc] [-> Hm]]; [by left|]. right. tauto.
    + rewrite elem_of_list_to_set in Hin. rewrite elem_of_nil. split.
      * intros [[]|H]. tauto.
      * intros [[->|Hc] [-> Hm]]; [done|]. right. tauto.
Qed.


End DictionaryFilter.

Lemma toLowerCase_nil (t : text) : toLowerCase t = [] → t = [].
Proof. unfold toLowerCase. apply fmap_nil_inv. Qed.



(** The whole attack on a Caesar ciphertext, for an ASCII password and
    dictionary and a safe shift: when the password, in small letters, is a
    word of the dictionary, filtering the candidates of the exhaustive
    search returns the password with the residue of the shift it was
    encoded with. *)
Theorem caesar_attack_recovers (pw content : text) (s : Z) :
  safe_shift s → is_ascii pw → is_ascii content →
  toLowerCase pw ∈ dictionaryWords content →
  ({| cc_shift := s `mod` 26; cc_text := pw |}, toLowerCase pw)
    ∈ dictionaryAttack cc_text (bruteForceCaesar (caesarEncrypt pw s))
        content.
Proof.
  intros Hs _ _ Hw. apply dictionaryAttack_elem. split; [|done].
  unfold bruteForceCaesar. apply list_elem_of_bind.
  exists (s `mod` 26). split.
  - rewrite caesarDecrypt_residue by done. by apply list_elem_of_singleton.
  - apply elem_of_seqZ. pose proof (Z.mod_pos_bound s 26 ltac:(lia)). lia.
Qed.

Lemma caesar_attack_recovers_witness :
  ({| cc_shift := 29 `mod` 26; cc_text := codes "hello" |},
   toLowerCase (codes "hello"))
    ∈ dictionaryAttack cc_text
        (bruteForceCaesar (caesarEncrypt (codes "hello") 29))
        (codes "admin" ++ [10] ++ codes " Hello " ++ [10]).
Proof.
  apply (caesar_attack_recovers (codes "hello")
           (codes "admin" ++ [10] ++ codes " Hello " ++ [10]) 29).
  - unfold safe_shift. lia.
  - repeat constructor; lia.
  - repeat constructor; lia.
  - apply (bool_decide_unpack _). vm_compute. exact I.
Defined.

(** * A further property of the Playfair search *)

(** [findPosition] on the grid of a key: a letter of the 25-letter alphabet
    is found in the one cell that holds it; J, every other symbol and
    [undefined] are not found ([null]). *)
Theorem findPosition_correct (key : text) (ch : Z) :
  (ch ∈ alphabet →
   ∃ row col,
     findPosition (buildPlayfairMatrix key) (Some ch) = Some (row, col) ∧
     (row < 5)%nat ∧ (col < 5)%nat ∧
     cell (buildPlayfairMatrix key) row col = Some ch ∧
     ∀ row' col', (row' < 5)%nat → (col' < 5)%nat →
       cell (buildPlayfairMatrix key) row' col' = Some ch →
       row' = row ∧ col' = col) ∧
  (ch ∉ alphabet →
   findPosition (buildPlayfairMatrix key) (Some ch) = None) ∧
  findPosition (buildPlayfairMatrix key) None = None.
Proof.
  pose proof (buildPlayfairMatrix_ok key) as Hgrid.
  generalize dependent (buildPlayfairMatrix key). intros matrix Hgrid.
  split; [|split].
  - intros Hin.
    destruct (findPosition_letter matrix Hgrid ch Hin)
      as (row & col & Hr & Hc & Hcell & Hpos).
    exists row, col. repeat split; try done.
    + destruct Hgrid as (_ & Hinj & _).
      by destruct (Hinj row' col' row col ch) as [-> _].
    + destruct Hgrid as (_ & Hinj & _).
      by destruct (Hinj row' col' row col ch) as [_ ->].
  - by apply findPosition_absent.
  - by apply findPosition_undefined.
Qed.

Lemma findPosition_correct_witness :
  findPosition (buildPlayfairMatrix (codes "KEY")) (Some 74) = None.
Proof.
  apply (proj1 (proj2 (findPosition_correct (codes "KEY") 74))).
  intros H. apply alphabet_spec in H as [_ H]. done.
Defined.
